(** * parallel-claude: worker registry, identity allocation and lifecycle

    A shallow embedding of [src/lib/config.ts], [src/lib/workers.ts],
    [src/lib/iterm.ts] (the boundary only), [src/commands/spawn.ts] and
    [src/commands/cleanup.ts], followed by the properties of the
    specification that were checked against it.

    Conventions.
    - JavaScript strings are byte strings ([string]); [===] on strings is
      decidable equality.
    - JavaScript numbers that hold counters and ports are [Z]; timestamps
      are [N].
    - The state file and the module-level object [DEFAULT_STATE] are the
      two pieces of mutable state the code threads through every call;
      they form the [World] that every operation takes and returns.
    - Everything the code asks of the outside (random draws, the clock,
      the file system, git, the terminal) is read from an explicit
      environment record, so a theorem quantified over the environment
      holds for every outcome of those calls. *)

From stdpp Require Import base option list strings gmap pretty.
From Stdlib Require Import Ascii ZArith Lia.

#[local] Open Scope string_scope.
#[local] Open Scope Z_scope.
#[local] Open Scope list_scope.

(* ===================================================================== *)
(** ** [src/lib/config.ts] *)
(* ===================================================================== *)

Module CONFIG.

(** [basePort: 3100] *)
Definition basePort : Z := 3100.

(** [portIncrement: 10] *)
Definition portIncrement : Z := 10.

(** [path.join] on the two-argument calls of the code: none of the
    segments involved is empty or contains [.], [..] or a slash at its
    ends, so joining is concatenation around one separator. *)
Definition join (a b : string) : string := a +:+ "/" +:+ b.

(** [workersDir: join(homedir(), ".parallel-claude", "workers")] *)
Definition workersDir (homedir : string) : string :=
  join (join homedir ".parallel-claude") "workers".

(** [stateFile: join(homedir(), ".parallel-claude", "state.json")] *)
Definition stateFile (homedir : string) : string :=
  join (join homedir ".parallel-claude") "state.json".

End CONFIG.

(** [status: "setting-up" | "running" | "stopped" | "failed"] *)
Inductive Status : Set :=
| setting_up
| running
| stopped
| failed.

#[global] Instance Status_eq_dec : EqDecision Status.
Proof. solve_decision. Defined.

(** [interface Worker] *)
Module Worker.

Record t : Set := mk {
  id : string;
  name : string;
  repoUrl : string;
  repoName : string;
  branch : string;
  task : string;
  directory : string;
  port : Z;
  pid : option Z;
  terminalTab : option string;
  createdAt : string;
  status : Status
}.

#[global] Instance eq_dec : EqDecision t.
Proof. solve_decision. Defined.

(** [worker.status = s] *)
Definition set_status (s : Status) (w : t) : t :=
  mk (id w) (name w) (repoUrl w) (repoName w) (branch w) (task w)
     (directory w) (port w) (pid w) (terminalTab w) (createdAt w) s.

(** [Object.assign(worker, { terminalTab: tab })] *)
Definition set_terminalTab (tab : string) (w : t) : t :=
  mk (id w) (name w) (repoUrl w) (repoName w) (branch w) (task w)
     (directory w) (port w) (pid w) (Some tab) (createdAt w) (status w).

(** The predicate of every lookup in [workers.ts]:
    [(w) => w.name === nameOrId || w.id === nameOrId]. *)
Definition matches (nameOrId : string) (w : t) : Prop :=
  name w = nameOrId ∨ id w = nameOrId.

#[global] Instance matches_dec nameOrId w : Decision (matches nameOrId w).
Proof. unfold matches. apply _. Defined.

End Worker.

(** [interface State] *)
Module State.

Record t : Set := mk {
  workers : list Worker.t;
  nextPortOffset : Z;
  itermWindowId : option string
}.

#[global] Instance eq_dec : EqDecision t.
Proof. solve_decision. Defined.

End State.

(** [DEFAULT_STATE] as the module is initialised:
    [{ workers: [], nextPortOffset: 0 }]. *)
Definition DEFAULT_STATE : State.t := State.mk [] 0 None.

(* ===================================================================== *)
(** ** The persisted store and the process heap *)
(* ===================================================================== *)

(** What [loadState] can find at [CONFIG.stateFile]. [Stored s] is a file
    whose text parses to the state [s] (what [saveState s] writes).
    Text that parses to a value of another shape is outside the model:
    [State] is the type [loadState] is declared to return. *)
Inductive StoreFile : Set :=
| NoFile                        (* existsSync is false *)
| Unreadable                    (* readFileSync throws *)
| Malformed (data : string)     (* JSON.parse throws *)
| Stored (s : State.t).

(** [loadState] returns [{ ...DEFAULT_STATE }] when it reads nothing: a new
    object whose [workers] property is the very array that
    [DEFAULT_STATE.workers] refers to. An array reference is therefore
    either an array of its own (the result of [JSON.parse]) or that shared
    array, whose content lives in the heap. *)
Inductive ArrRef : Set :=
| Own (elems : list Worker.t)
| Shared.

Record World : Set := mkWorld {
  file : StoreFile;
  (** the content of the array [DEFAULT_STATE.workers] refers to *)
  defaultWorkers : list Worker.t
}.

(** A process that has just started: the module initialiser has run and
    nothing else. *)
Definition boot (f : StoreFile) : World := mkWorld f [].

(** A [State] object held in a local variable. *)
Record StateObj : Set := mkObj {
  workersRef : ArrRef;
  o_nextPortOffset : Z;
  o_itermWindowId : option string
}.

Definition deref (w : World) (r : ArrRef) : list Worker.t :=
  match r with
  | Own l => l
  | Shared => defaultWorkers w
  end.

(** The value an object has when it is read (or serialised). *)
Definition snapshot (w : World) (o : StateObj) : State.t :=
  State.mk (deref w (workersRef o)) (o_nextPortOffset o) (o_itermWindowId o).

(** An in-place update of the array behind a reference. *)
Definition mutate (f : list Worker.t → list Worker.t)
    (w : World) (r : ArrRef) : World * ArrRef :=
  match r with
  | Own l => (w, Own (f l))
  | Shared => (mkWorld (file w) (f (defaultWorkers w)), Shared)
  end.

(* ===================================================================== *)
(** ** [src/lib/workers.ts]: the registry *)
(* ===================================================================== *)

(** [loadState]: the [try] covers [existsSync], [readFileSync] and
    [JSON.parse]; every failure falls through to the spread of
    [DEFAULT_STATE], whose own properties at that point are [workers]
    (shared) and [nextPortOffset: 0]. *)
Definition loadState (w : World) : StateObj :=
  match file w with
  | Stored s =>
      mkObj (Own (State.workers s)) (State.nextPortOffset s) (State.itermWindowId s)
  | NoFile | Unreadable | Malformed _ =>
      mkObj Shared (State.nextPortOffset DEFAULT_STATE)
            (State.itermWindowId DEFAULT_STATE)
  end.

(** [saveState]: a full overwrite of the file with the serialised object.
    The write is taken to succeed and the file to be readable afterwards;
    a later reader gets back the state that was written. *)
Definition saveState (w : World) (o : StateObj) : World :=
  mkWorld (Stored (snapshot w o)) (defaultWorkers w).

(** What a reader of the file sees: the value [loadState] would return. *)
Definition persisted (w : World) : State.t := snapshot w (loadState w).

(** [addWorker]: [push], [nextPortOffset++], [saveState]. *)
Definition addWorker (worker : Worker.t) (w : World) : World :=
  let state := loadState w in
  let '(w1, ref) := mutate (λ l, l ++ [worker]) w (workersRef state) in
  saveState w1 (mkObj ref (o_nextPortOffset state + 1) (o_itermWindowId state)).

(** [findIndex] and [find] with the lookup predicate. *)
Definition findIndex (nameOrId : string) (l : list Worker.t) : option nat :=
  fst <$> list_find (Worker.matches nameOrId) l.

Definition find (nameOrId : string) (l : list Worker.t) : option Worker.t :=
  snd <$> list_find (Worker.matches nameOrId) l.

(** [removeWorker]: [undefined] and no write when nothing matches;
    otherwise [splice(index, 1)], [saveState], and the removed record. *)
Definition removeWorker (nameOrId : string) (w : World)
    : option Worker.t * World :=
  let state := loadState w in
  match list_find (Worker.matches nameOrId) (deref w (workersRef state)) with
  | None => (None, w)
  | Some (index, removed) =>
      let '(w1, ref) := mutate (delete index) w (workersRef state) in
      (Some removed,
       saveState w1 (mkObj ref (o_nextPortOffset state) (o_itermWindowId state)))
  end.

(** [getWorker] *)
Definition getWorker (nameOrId : string) (w : World) : option Worker.t :=
  find nameOrId (deref w (workersRef (loadState w))).

(** [getAllWorkers] hands out the array itself. *)
Definition getAllWorkers (w : World) : ArrRef := workersRef (loadState w).

(** [updateWorkerStatus]: the record found is updated in place, then the
    state is written; nothing happens when no record matches. [updates]
    is the [terminalTab] of the one call that passes it. *)
Definition updateWorkerStatus (nameOrId : string) (status : Status)
    (updates : option string) (w : World) : World :=
  let state := loadState w in
  match list_find (Worker.matches nameOrId) (deref w (workersRef state)) with
  | None => w
  | Some (index, worker) =>
      let worker1 := Worker.set_status status worker in
      let worker2 :=
        match updates with
        | Some tab => Worker.set_terminalTab tab worker1
        | None => worker1
        end in
      let '(w1, ref) := mutate (λ l, <[index := worker2]> l) w (workersRef state) in
      saveState w1 (mkObj ref (o_nextPortOffset state) (o_itermWindowId state))
  end.

(** [getNextPort] *)
Definition getNextPort (w : World) : Z :=
  CONFIG.basePort + o_nextPortOffset (loadState w) * CONFIG.portIncrement.

(** [getItermWindowId] *)
Definition getItermWindowId (w : World) : option string :=
  o_itermWindowId (loadState w).

(** [setItermWindowId] *)
Definition setItermWindowId (windowId : string) (w : World) : World :=
  let state := loadState w in
  saveState w (mkObj (workersRef state) (o_nextPortOffset state) (Some windowId)).

(** [clearItermWindowId] *)
Definition clearItermWindowId (w : World) : World :=
  let state := loadState w in
  saveState w (mkObj (workersRef state) (o_nextPortOffset state) None).

(* ===================================================================== *)
(** ** [src/lib/workers.ts]: identity and allocation *)
(* ===================================================================== *)

Definition adjectives : list string :=
  [ "swift"; "brave"; "calm"; "bright"; "bold"; "keen"; "wise"; "quick";
    "sharp"; "cool"; "warm"; "fair"; "pure"; "true"; "kind"; "proud" ].

Definition animals : list string :=
  [ "fox"; "owl"; "eagle"; "wolf"; "bear"; "hawk"; "deer"; "lion";
    "tiger"; "raven"; "falcon"; "panther"; "jaguar"; "leopard"; "lynx"; "otter" ].

(** [xs[k]] inside a template literal: an index out of range reads
    [undefined], which the template prints as the text "undefined". *)
Definition at_index (xs : list string) (k : nat) : string :=
  default "undefined" (xs !! k).

(** One pass of the loop body up to the test: the candidate built from
    the two values [Math.floor(Math.random() * 16)] took in that pass. *)
Definition candidate (draw : nat * nat) : string :=
  at_index adjectives draw.1 +:+ "-" +:+ at_index animals draw.2.

(** [for (let i = 0; i < 100; i++) { ... if (!existing.has(name)) return name; }]
    with [remaining] passes still to run; [draws i] are the two random indices
    of pass [i]. [None] is the loop running to its end. *)
Fixpoint attempts (remaining i : nat) (existing : gset string)
    (draws : nat → nat * nat) : option string :=
  match remaining with
  | O => None
  | S remaining' =>
      let name := candidate (draws i) in
      if decide (name ∈ existing) then attempts remaining' (S i) existing draws
      else Some name
  end.

(** [generateWorkerName(existingNames)]; [now] is [Date.now()]. *)
Definition generateWorkerName (existingNames : list string)
    (draws : nat → nat * nat) (now : N) : string :=
  let existing : gset string := list_to_set existingNames in
  match attempts 100 0 existing draws with
  | Some name => name
  | None => "worker-" +:+ pretty now
  end.

(** The text after the last slash of [s], when [s] has a slash. *)
Fixpoint last_segment (s : string) : option string :=
  match s with
  | EmptyString => None
  | String c rest =>
      match last_segment rest with
      | Some seg => Some seg
      | None => if decide (c = "/"%char) then Some rest else None
      end
  end.

(** The lazy group [([^/]+?)] before [(\.git)?$]: the segment without one
    trailing [.git], unless that would leave nothing. *)
Fixpoint strip_git (seg : string) : string :=
  match seg with
  | EmptyString => EmptyString
  | String c rest =>
      if decide (rest = ".git") then String c EmptyString
      else String c (strip_git rest)
  end.

(** [getRepoName]: [repoUrl.match(/\/([^/]+?)(\.git)?$/)], group 1, or
    the placeholder when nothing matches. *)
Definition getRepoName (repoUrl : string) : string :=
  match last_segment repoUrl with
  | Some (String c rest) => strip_git (String c rest)
  | Some EmptyString | None => "repo"
  end.

(** [a-z0-9] *)
Definition is_lower_alnum (c : ascii) : bool :=
  let n := nat_of_ascii c in
  ((97 <=? n)%nat && (n <=? 122)%nat) || ((48 <=? n)%nat && (n <=? 57)%nat).

(** The lower-case letter of a letter A to Z; every other byte is kept. *)
Definition lower (c : ascii) : ascii :=
  let n := nat_of_ascii c in
  if ((65 <=? n)%nat && (n <=? 90)%nat) then ascii_of_nat (n + 32) else c.

(** [toLowerCase] on a text in UTF-8. The letters A to Z become a to z.
    Two characters outside ASCII lower-case into ASCII: the Kelvin sign
    U+212A (bytes 226 132 170) becomes [k], and the capital I with dot
    above U+0130 (bytes 196 176) becomes [i] followed by the combining
    dot above U+0307 (bytes 204 135). Every other character outside
    ASCII lower-cases to characters outside ASCII; its bytes are kept as
    they are, which [generateBranchName], the one caller, cannot tell
    apart: it replaces every run of bytes outside [a-z0-9] by a hyphen
    (lemma [replace_runs_outside]). *)
Fixpoint toLowerCase (s : string) : string :=
  match s with
  | EmptyString => EmptyString
  | String "226"%char (String "132"%char (String "170"%char rest)) =>
      String "k"%char (toLowerCase rest)
  | String "196"%char (String "176"%char rest) =>
      String "i"%char (String "204"%char (String "135"%char (toLowerCase rest)))
  | String c rest => String (lower c) (toLowerCase rest)
  end.

(** [.replace(/[^a-z0-9]+/g, "-")]: every maximal run of characters
    outside [a-z0-9] becomes one hyphen. [in_run] says that the previous
    character belonged to such a run. *)
Fixpoint replace_runs (in_run : bool) (s : string) : string :=
  match s with
  | EmptyString => EmptyString
  | String c rest =>
      if is_lower_alnum c then String c (replace_runs false rest)
      else if in_run then replace_runs true rest
      else String "-" (replace_runs true rest)
  end.

(** [.slice(0, n)] *)
Fixpoint slice0 (n : nat) (s : string) : string :=
  match n, s with
  | S n', String c rest => String c (slice0 n' rest)
  | _, _ => EmptyString
  end.

(** The alternative [-$] of [/^-|-$/g]: a hyphen that is the last
    character is dropped. *)
Fixpoint strip_trailing (s : string) : string :=
  match s with
  | EmptyString => EmptyString
  | String c rest =>
      if decide (c = "-"%char ∧ rest = EmptyString) then EmptyString
      else String c (strip_trailing rest)
  end.

(** [.replace(/^-|-$/g, "")]: the match at index 0 and, scanning on from
    there, the match at the last index. *)
Definition strip_hyphens (s : string) : string :=
  match s with
  | String "-" rest => strip_trailing rest
  | _ => strip_trailing s
  end.

(** The chain applied to the lower-cased task. *)
Definition slugify (lowered : string) : string :=
  strip_hyphens (slice0 40 (replace_runs false lowered)).

(** [.replace(/-/g, "")] *)
Fixpoint remove_hyphens (s : string) : string :=
  match s with
  | EmptyString => EmptyString
  | String c rest =>
      if decide (c = "-"%char) then remove_hyphens rest
      else String c (remove_hyphens rest)
  end.

(** [generateBranchName(task, workerName)]; [iso] is what
    [new Date().toISOString()] returned. *)
Definition generateBranchName (task workerName iso : string) : string :=
  let slug := slugify (toLowerCase task) in
  let date := remove_hyphens (slice0 10 iso) in
  "feat/" +:+ slug +:+ "-" +:+ workerName +:+ "-" +:+ date.

(* ===================================================================== *)
(** ** The boundary: terminal, file system, console *)
(* ===================================================================== *)

(** The calls a command issues to the outside, in the order it issues
    them. A call is recorded when it is made, whether or not it then
    throws. Colours ([chalk]) are left out of the texts. *)
Inductive Event : Set :=
| WriteText (session text : string)
    (* iterm.ts: [tell s to write text "..."] for the session with that id *)
| Delay (ms : Z)
    (* [await new Promise((r) => setTimeout(r, ms))] *)
| EnsureItermRunning
| OpenWorkerTab (workerName directory : string) (devCommand : option string)
    (claudeCommand task : string) (isFirstWorker : bool)
| RmSync (dir : string)
    (* [rmSync(dir, { recursive: true, force: true, maxRetries: 3 })] *)
| RmRf (dir : string)
    (* [execSync(`rm -rf "${dir}"`)] *)
| ConsoleLog (line : string)
| SpinnerSucceed (text : string)
| SpinnerWarn (text : string)
| SpinnerFail (text : string).

(** How a command ends: it returns, or [process.exit(code)] ends the
    process on the spot. *)
Inductive Exit : Set :=
| Returned
| Exited (code : Z).

#[global] Instance Exit_eq_dec : EqDecision Exit.
Proof. solve_decision. Defined.

Record Result : Set := mkResult {
  world : World;
  log : list Event;
  exit : Exit
}.

(** JavaScript truthiness of an optional string and of an optional flag. *)
Definition truthy (o : option string) : option string :=
  match o with
  | Some EmptyString | None => None
  | Some s => Some s
  end.

Definition flag (o : option bool) : bool := default false o.

Definition nl : string := String (ascii_of_nat 10) EmptyString.

(** A call into [iterm.ts]: the events it causes, and whether it throws.
    [scriptFails] says that [runAppleScript] threw inside the call. *)
Definition Call : Set := (list Event * bool)%type.

(** [sendToItermSession(sessionId, command)]: one scripted [write text]
    of [command] (whose double quotes are escaped for the script), not
    guarded: a failure of the script is thrown on to the caller. *)
Definition sendToItermSession (sessionId command : string)
    (scriptFails : bool) : Call :=
  ([WriteText sessionId command], scriptFails).

(** [closeItermTab(sessionId)]: one scripted [write text "exit"] inside
    the function's own [try]/[catch], so it never throws. *)
Definition closeItermTab (sessionId : string) (scriptFails : bool) : Call :=
  ([WriteText sessionId "exit"], false).

(* ===================================================================== *)
(** ** [src/commands/spawn.ts] *)
(* ===================================================================== *)

(** [interface SpawnOptions] *)
Module SpawnOptions.

Record t : Set := mk {
  task : list string;
  branch : option string;
  port : option Z;
  noDev : option bool;
  name : option string
}.

End SpawnOptions.

(** Everything one run of [spawnSingleWorker] reads from the outside. An
    error is the message of the exception thrown. *)
Record SpawnEnv : Set := mkSpawnEnv {
  homedir : string;
  draws : nat → nat * nat;      (* the random indices, per naming attempt *)
  dateNow : N;                  (* [Date.now()] *)
  nanoid : string;              (* [nanoid(10)] *)
  isoBranch : string;           (* [toISOString()] in generateBranchName *)
  isoCreated : string;          (* [toISOString()] for createdAt *)
  mkdirError : option string;   (* creating the workers directory *)
  workerDirExists : bool;       (* [existsSync(workerDir)] *)
  setupError : option string;   (* clone, git config, checkout, copy of
                                   .env.local, install: the first to throw *)
  bunLockfile : bool;           (* [hasLockfile("bun.lockb")] *)
  itermError : option string;   (* [ensureItermRunning()] *)
  openWorkerTab : string + string  (* error, or the id the script returned *)
}.

(** [catch (error) { spinner.fail(...); process.exit(1); }] *)
Definition spawn_failed (w : World) (events : list Event) (message : string)
    : Result :=
  mkResult w (events ++ [SpinnerFail ("Failed to spawn worker: " +:+ message)])
           (Exited 1).

(** The names, port and branch minted at the top of [spawnSingleWorker]. *)
Definition workerName_of (e : SpawnEnv) (w : World) : string :=
  generateWorkerName (Worker.name <$> deref w (getAllWorkers w))
                     (draws e) (dateNow e).

Definition branchName_of (task : string) (options : SpawnOptions.t)
    (e : SpawnEnv) (w : World) : string :=
  match truthy (SpawnOptions.branch options) with
  | Some b => b
  | None => generateBranchName task (workerName_of e w) (isoBranch e)
  end.

(** The record literal passed to [addWorker]. *)
Definition new_worker (repoUrl task : string) (options : SpawnOptions.t)
    (e : SpawnEnv) (w : World) : Worker.t :=
  let workerName := workerName_of e w in
  Worker.mk (nanoid e) workerName repoUrl (getRepoName repoUrl)
            (branchName_of task options e w) task
            (CONFIG.join (CONFIG.workersDir (homedir e)) workerName)
            (getNextPort w) None None (isoCreated e) setting_up.

(** [devCmd] *)
Definition devCmd_of (options : SpawnOptions.t) (e : SpawnEnv) (port : Z)
    : option string :=
  if flag (SpawnOptions.noDev options) then None
  else if bunLockfile e then Some ("bun run dev --port " +:+ pretty port)
  else Some ("npm run dev -- --port " +:+ pretty port).

Definition claudeCmd : string := "claude --dangerously-skip-permissions".

Definition fullTask_of (task : string) : string :=
  "Always make sure to follow CLAUDE.md before starting. Task: " +:+ task.

(** [spawnSingleWorker(repoUrl, task, options, isFirstInBatch)]. The last
    argument is never read by the body. *)
Definition spawnSingleWorker (repoUrl task : string) (options : SpawnOptions.t)
    (isFirstInBatch : bool) (e : SpawnEnv) (w : World) : Result :=
  let worker := new_worker repoUrl task options e w in
  let workerName := Worker.name worker in
  let workerDir := Worker.directory worker in
  let port := Worker.port worker in
  match mkdirError e with
  | Some message => spawn_failed w [] message
  | None =>
  if workerDirExists e then
    mkResult w [SpinnerFail ("Worker directory already exists: " +:+ workerDir)]
             (Exited 1)
  else
  match setupError e with
  | Some message => spawn_failed w [] message
  | None =>
  (* Check if this is the first worker BEFORE adding *)
  let isFirstWorker := bool_decide (length (deref w (getAllWorkers w)) = 0%nat) in
  let w1 := addWorker worker w in
  match itermError e with
  | Some message => spawn_failed w1 [EnsureItermRunning] message
  | None =>
  let call :=
    OpenWorkerTab workerName workerDir (devCmd_of options e port) claudeCmd
                  (fullTask_of task) isFirstWorker in
  match openWorkerTab e with
  | inl message => spawn_failed w1 [EnsureItermRunning; call] message
  | inr windowId =>
      let w2 := updateWorkerStatus workerName running (Some windowId) w1 in
      mkResult w2
        [ EnsureItermRunning; call;
          SpinnerSucceed
            ("Worker " +:+ workerName +:+ " is running!" +:+ nl
             +:+ "   Directory: " +:+ workerDir +:+ nl
             +:+ "   Branch:    " +:+ Worker.branch worker +:+ nl
             +:+ "   Port:      " +:+ pretty port +:+ nl
             +:+ "   Task:      " +:+ task);
          ConsoleLog (nl +:+ "Tip: Use parallel-claude cleanup " +:+ workerName
                      +:+ " when done.") ]
        Returned
  end end end end.

(** The [for] loop of [spawn]: one worker per task, in order; a failed
    worker ends the process, so the tasks after it are never tried.
    [envs i] is the environment of the run for task [i]. *)
Fixpoint spawn_loop (repoUrl : string) (options : SpawnOptions.t)
    (tasks : list string) (i : nat) (envs : nat → SpawnEnv)
    (w : World) (events : list Event) : Result :=
  match tasks with
  | [] => mkResult w events Returned
  | task :: tasks' =>
      let r := spawnSingleWorker repoUrl task options (bool_decide (i = 0%nat))
                                 (envs i) w in
      match exit r with
      | Exited code => mkResult (world r) (events ++ log r) (Exited code)
      | Returned =>
          spawn_loop repoUrl options tasks' (S i) envs (world r) (events ++ log r)
      end
  end.

(** [spawn(repoUrl, options)] *)
Definition spawn (repoUrl : string) (options : SpawnOptions.t)
    (envs : nat → SpawnEnv) (w : World) : Result :=
  let tasks := SpawnOptions.task options in
  let r := spawn_loop repoUrl options tasks 0 envs w [] in
  match exit r with
  | Exited _ => r
  | Returned =>
      if bool_decide (1 < length tasks)%nat then
        mkResult (world r)
          (log r ++ [ConsoleLog (nl +:+ "✨ Spawned " +:+ pretty (length tasks)
                                 +:+ " workers!")])
          Returned
      else r
  end.

(* ===================================================================== *)
(** ** [src/commands/cleanup.ts] *)
(* ===================================================================== *)

(** [interface CleanupOptions] *)
Module CleanupOptions.

Record t : Set := mk {
  all : option bool;
  force : option bool
}.

End CleanupOptions.

(** What the clean-up of one worker reads from the outside. *)
Record CleanupEnv : Set := mkCleanupEnv {
  sendFails : bool;             (* the script of [sendToItermSession] fails *)
  closeFails : bool;            (* the script of [closeItermTab] fails *)
  dirExists : bool;             (* [existsSync(worker.directory)] *)
  rmSyncThrows : bool;          (* [rmSync] throws *)
  rmRfError : option string     (* the fallback [rm -rf] throws *)
}.

(** The inner [try] around the terminal: interrupt, pause, close. The
    first call that throws leaves the block, and the empty [catch]
    swallows the exception: the block yields its events and nothing else. *)
Definition close_terminal (pause : Z) (e : CleanupEnv) (worker : Worker.t)
    : list Event :=
  match truthy (Worker.terminalTab worker) with
  | None => []
  | Some tab =>
      (* Send Ctrl+C first to stop any running processes *)
      let '(sent, thrown) := sendToItermSession tab "\x03" (sendFails e) in
      if thrown then sent
      else
        let '(closed, _) := closeItermTab tab (closeFails e) in
        sent ++ [Delay pause] ++ closed
  end.

(** The block that deletes the directory: the events, and the error that
    leaves the block, if any. *)
Definition delete_directory (e : CleanupEnv) (worker : Worker.t)
    : list Event * option string :=
  let dir := Worker.directory worker in
  if dirExists e then
    if rmSyncThrows e then ([RmSync dir; RmRf dir], rmRfError e)
    else ([RmSync dir], None)
  else ([], None).

(** The body of the [for] loop of [cleanupAll] for one record. *)
Record Tally : Set := mkTally {
  t_world : World;
  t_log : list Event;
  cleaned : nat;
  failedCount : nat
}.

Definition cleanupAll_step (e : CleanupEnv) (worker : Worker.t) (acc : Tally)
    : Tally :=
  let terminal := close_terminal 200 e worker in
  let '(deletion, error) := delete_directory e worker in
  match error with
  | Some _ =>
      mkTally (t_world acc) (t_log acc ++ terminal ++ deletion)
              (cleaned acc) (S (failedCount acc))
  | None =>
      mkTally (removeWorker (Worker.id worker) (t_world acc)).2
              (t_log acc ++ terminal ++ deletion)
              (S (cleaned acc)) (failedCount acc)
  end.

(** [for (const worker of workers)]: the array iterator reads the array
    as it is at each step, by index. [fuel] bounds the number of steps. *)
Fixpoint cleanupAll_loop (fuel i : nat) (workers : ArrRef)
    (envs : nat → CleanupEnv) (acc : Tally) : Tally :=
  match fuel with
  | O => acc
  | S fuel' =>
      match deref (t_world acc) workers !! i with
      | None => acc
      | Some worker =>
          cleanupAll_loop fuel' (S i) workers envs
                          (cleanupAll_step (envs i) worker acc)
      end
  end.

(** The line printed for one record by the dry run. *)
Definition listing_line (worker : Worker.t) : string :=
  "  - " +:+ Worker.name worker +:+ " (" +:+ Worker.branch worker +:+ ")".

(** [cleanupAll(force)]. The array is never longer than at the start, so
    its first length is fuel enough for the loop. *)
Definition cleanupAll (force : option bool) (envs : nat → CleanupEnv)
    (w : World) : Result :=
  let workers := getAllWorkers w in
  let n := length (deref w workers) in
  if bool_decide (n = 0%nat) then
    mkResult w [ConsoleLog "No workers to clean up."] Returned
  else if negb (flag force) then
    mkResult w
      ([ConsoleLog (nl +:+ "This will remove " +:+ pretty n +:+ " worker(s):" +:+ nl)]
       ++ (ConsoleLog ∘ listing_line <$> deref w workers)
       ++ [ConsoleLog (nl +:+ "Run with --force to confirm.")])
      Returned
  else
    let acc := cleanupAll_loop n 0 workers envs (mkTally w [] 0 0) in
    let w' := clearItermWindowId (t_world acc) in
    let summary :=
      if bool_decide (0 < failedCount acc)%nat then
        SpinnerWarn ("Cleaned up " +:+ pretty (cleaned acc) +:+ " workers, "
                     +:+ pretty (failedCount acc) +:+ " failed")
      else SpinnerSucceed ("Cleaned up " +:+ pretty (cleaned acc) +:+ " workers") in
    mkResult w' (t_log acc ++ [summary]) Returned.

(** [cleanup(nameOrId, options)]; [e] is the environment of the single
    worker, [envs] that of the records of [cleanupAll]. *)
Definition cleanup (nameOrId : option string) (options : CleanupOptions.t)
    (e : CleanupEnv) (envs : nat → CleanupEnv) (w : World) : Result :=
  if flag (CleanupOptions.all options) then
    cleanupAll (CleanupOptions.force options) envs w
  else
  match truthy nameOrId with
  | None =>
      mkResult w
        [ ConsoleLog "Error: Please specify a worker name or use --all";
          ConsoleLog (nl +:+ "Usage: parallel-claude cleanup <worker-name>");
          ConsoleLog "       parallel-claude cleanup --all" ]
        (Exited 1)
  | Some nameOrId =>
  match getWorker nameOrId w with
  | None =>
      mkResult w
        [ SpinnerFail ("Worker not found: " +:+ nameOrId);
          ConsoleLog (nl +:+ "Run parallel-claude list to see active workers.") ]
        (Exited 1)
  | Some worker =>
      (* Try to close iTerm tab gracefully *)
      let terminal := close_terminal 500 e worker in
      (* Delete directory *)
      let '(deletion, error) := delete_directory e worker in
      match error with
      | Some message =>
          mkResult w
            (terminal ++ deletion ++ [SpinnerFail ("Failed to cleanup: " +:+ message)])
            (Exited 1)
      | None =>
          (* Remove from state *)
          let w1 := (removeWorker nameOrId w).2 in
          (* Clear window ID if no workers left *)
          let w2 :=
            if bool_decide (length (deref w1 (getAllWorkers w1)) = 0%nat)
            then clearItermWindowId w1 else w1 in
          mkResult w2
            (terminal ++ deletion
             ++ [ SpinnerSucceed ("Cleaned up " +:+ Worker.name worker);
                  ConsoleLog ("   Directory removed: " +:+ Worker.directory worker);
                  ConsoleLog ("   Branch was: " +:+ Worker.branch worker) ])
            Returned
      end
  end end.

(* ===================================================================== *)
(** ** [src/lib/iterm.ts]: text placed inside AppleScript literals *)
(* ===================================================================== *)

Definition backslash : ascii := "\"%char.
Definition dquote : ascii := ascii_of_nat 34.

(** [.replace(/c/g, by)] for a pattern that is one literal character:
    every occurrence of [c] becomes the text [by]. *)
Fixpoint replace_char (c : ascii) (by_text : string) (s : string) : string :=
  match s with
  | EmptyString => EmptyString
  | String d rest =>
      if decide (d = c) then by_text +:+ replace_char c by_text rest
      else String d (replace_char c by_text rest)
  end.

(** [escapeForAppleScript(str)]:
    [str.replace(/\\/g, "\\\\").replace(/"/g, '\\"')], the backslashes
    first, then the double quotes. *)
Definition escapeForAppleScript (str : string) : string :=
  replace_char dquote (String backslash (String dquote EmptyString))
    (replace_char backslash (String backslash (String backslash EmptyString)) str).

(** What [sendToItermSession] puts between the quotes of its
    [write text "..."]: [command.replace(/"/g, '\\"')], the double quotes
    only. *)
Definition sendToItermSession_literal (command : string) : string :=
  replace_char dquote (String backslash (String dquote EmptyString)) command.

(* ===================================================================== *)
(** ** [src/index.ts]: the [focus] command *)
(* ===================================================================== *)

(** How the action of [focus <name>] ends: [focusItermSession] is called
    with the record's [terminalTab], or the error line is printed and the
    process exits with code 1. *)
Inductive FocusOutcome : Set :=
| FocusSession (sessionId : string)
| FocusFailed (line : string) (code : Z).

(** [const worker = getWorker(name); if (!worker?.terminalTab) { ... }] *)
Definition focus (name : string) (w : World) : FocusOutcome :=
  match getWorker name w ≫= λ worker, truthy (Worker.terminalTab worker) with
  | Some tab => FocusSession tab
  | None => FocusFailed ("Worker not found or no terminal tab: " +:+ name) 1
  end.

(* ===================================================================== *)
(** * Vocabulary of the properties *)
(* ===================================================================== *)

(** Two records that cannot be taken for one another by a lookup: they
    share neither name nor id, and the name of one is not the id of the
    other. *)
Definition distinct_keys (x y : Worker.t) : Prop :=
  Worker.name x ≠ Worker.name y ∧ Worker.id x ≠ Worker.id y
  ∧ Worker.name x ≠ Worker.id y ∧ Worker.id x ≠ Worker.name y.

#[global] Instance distinct_keys_dec x y : Decision (distinct_keys x y).
Proof. unfold distinct_keys. apply _. Defined.

(** Records whose names and ids are keys: any two of them are distinct
    in that sense. *)
Fixpoint unique_keys (l : list Worker.t) : Prop :=
  match l with
  | [] => True
  | x :: rest => Forall (distinct_keys x) rest ∧ unique_keys rest
  end.

#[global] Instance unique_keys_dec l : Decision (unique_keys l).
Proof. induction l; simpl; apply _. Defined.

(** A registry of three running workers, used to instantiate the
    statements below. *)
Definition sample_worker (id name : string) (port : Z) : Worker.t :=
  Worker.mk id name "https://github.com/user/repo.git" "repo"
            ("feat/task-" +:+ name +:+ "-20260104") "task"
            ("/home/u/.parallel-claude/workers/" +:+ name) port None
            (Some "7") "2026-01-04T10:20:30.000Z" running.

Definition sample_registry : World :=
  boot (Stored (State.mk [ sample_worker "V1StGXR8_Z" "swift-fox" 3100;
                           sample_worker "b5f2kQ9xLm" "calm-owl" 3110;
                           sample_worker "Zt0pWq83nA" "keen-lynx" 3120 ]
                         3 None)).


(** *** Shapes of strings *)

Fixpoint all_chars (p : ascii → bool) (s : string) : bool :=
  match s with
  | EmptyString => true
  | String c rest => p c && all_chars p rest
  end.

Definition is_hyphen (c : ascii) : bool := bool_decide (c = "-"%char).

(** [0-9] *)
Definition is_digit (c : ascii) : bool :=
  let n := nat_of_ascii c in (48 <=? n)%nat && (n <=? 57)%nat.

(** A character a slug may hold: a lower-case letter, a digit, a hyphen. *)
Definition slug_char (c : ascii) : bool := is_lower_alnum c || is_hyphen c.

Definition starts_with_hyphen (s : string) : bool :=
  match s with
  | String c _ => is_hyphen c
  | EmptyString => false
  end.

Fixpoint ends_with_hyphen (s : string) : bool :=
  match s with
  | EmptyString => false
  | String c EmptyString => is_hyphen c
  | String _ rest => ends_with_hyphen rest
  end.

(** No hyphen is followed by a hyphen. *)
Fixpoint single_hyphens (s : string) : bool :=
  match s with
  | EmptyString => true
  | String c rest =>
      negb (is_hyphen c && starts_with_hyphen rest) && single_hyphens rest
  end.

(** The specification's words for the last step of the slug: stripped of
    leading and trailing hyphens, however many there are. *)
Fixpoint drop_leading_hyphens (s : string) : string :=
  match s with
  | String c rest => if is_hyphen c then drop_leading_hyphens rest else s
  | EmptyString => EmptyString
  end.

Fixpoint drop_trailing_hyphens (s : string) : string :=
  match s with
  | EmptyString => EmptyString
  | String c rest =>
      let rest' := drop_trailing_hyphens rest in
      if is_hyphen c && bool_decide (rest' = EmptyString) then EmptyString
      else String c rest'
  end.

Definition trim_hyphens (s : string) : string :=
  drop_trailing_hyphens (drop_leading_hyphens s).

(** The first ten characters of an ISO timestamp of a four-digit year:
    [dddd-dd-dd]. *)
Definition iso_date_prefix (iso : string) : bool :=
  match iso with
  | String y1 (String y2 (String y3 (String y4 (String h1
      (String m1 (String m2 (String h2 (String d1 (String d2 _))))))))) =>
      is_digit y1 && is_digit y2 && is_digit y3 && is_digit y4 && is_hyphen h1
      && is_digit m1 && is_digit m2 && is_hyphen h2
      && is_digit d1 && is_digit d2
  | _ => false
  end.

(** *** The branch name in the specification's words *)

(** The slug, as the specification words it: the task lower-cased, every
    run of non-alphanumeric characters replaced by a single hyphen,
    truncated to 40 characters, stripped of leading and trailing hyphens.
    Each step is written here on its own terms, with no function of the
    embedding of the code. *)

Definition capital_letters : string := "ABCDEFGHIJKLMNOPQRSTUVWXYZ".
Definition small_letters : string := "abcdefghijklmnopqrstuvwxyz".
Definition digits : string := "0123456789".

(** The characters with a lower-case form in ASCII that are not
    themselves in ASCII, in UTF-8. *)
Definition kelvin_sign : string :=
  String "226" (String "132" (String "170" EmptyString)).
Definition capital_i_with_dot : string := String "196" (String "176" EmptyString).
Definition small_i_with_dot : string :=
  String "i" (String "204" (String "135" EmptyString)).

(** The small letter of a capital letter, by its place in the alphabet. *)
Definition small_letter (c : ascii) : ascii :=
  match String.index 0 (String c EmptyString) capital_letters with
  | Some place => default c (String.get place small_letters)
  | None => c
  end.

(** Lower-cased: character by character, where [skip] counts the bytes
    of the current character still to pass over. *)
Fixpoint lower_cased (skip : nat) (text : string) : string :=
  match text with
  | EmptyString => EmptyString
  | String c rest =>
      match skip with
      | S skip' => lower_cased skip' rest
      | O =>
          if String.prefix kelvin_sign text then "k" +:+ lower_cased 2 rest
          else if String.prefix capital_i_with_dot text
               then small_i_with_dot +:+ lower_cased 1 rest
          else String (small_letter c) (lower_cased 0 rest)
      end
  end.

(** A lower-case alphanumeric: a small letter or a digit. *)
Definition alphanumeric (c : ascii) : bool :=
  bool_decide (is_Some (String.index 0 (String c EmptyString)
                                     (small_letters +:+ digits))).

(** The maximal runs of a text, each with its kind ([true] for a run of
    alphanumerics). *)
Fixpoint runs (text : string) : list (bool * string) :=
  match text with
  | EmptyString => []
  | String c rest =>
      let kind := alphanumeric c in
      match runs rest with
      | (kind', run) :: more =>
          if bool_decide (kind = kind') then (kind, String c run) :: more
          else (kind, String c EmptyString) :: (kind', run) :: more
      | [] => [(kind, String c EmptyString)]
      end
  end.

(** Every run of non-alphanumeric characters replaced by a single hyphen;
    the runs of alphanumerics stay. *)
Definition rendered (parts : list (bool * string)) : string :=
  foldr (λ '(kind, run) out, (if kind : bool then run else "-") +:+ out)
        EmptyString parts.

Definition hyphenated (text : string) : string := rendered (runs text).

Definition spec_slug (task : string) : string :=
  trim_hyphens (String.substring 0 40 (hyphenated (lower_cased 0 task))).

(** [<YYYYMMDD>]: year, month and day of the timestamp, without the
    hyphens between them. *)
Definition spec_date (iso : string) : string :=
  String.substring 0 4 iso +:+ String.substring 5 2 iso +:+ String.substring 8 2 iso.

(** A character a slug may hold in the specification's words: a
    lower-case alphanumeric or a hyphen. *)
Definition spec_slug_char (c : ascii) : bool := alphanumeric c || is_hyphen c.

(** *** Outcomes of a spawn *)

(** Whether a run wrote its record ([addWorker] was reached), and whether
    it ran to [spinner.succeed]. *)
Definition persists_record (e : SpawnEnv) : bool :=
  bool_decide (mkdirError e = None) && negb (workerDirExists e)
  && bool_decide (setupError e = None).

Definition succeeds (e : SpawnEnv) : bool :=
  persists_record e && bool_decide (itermError e = None)
  && match openWorkerTab e with inr _ => true | inl _ => false end.

(** *** Sample runs *)

(** An environment in which everything outside works; [tab] is what the
    script of [openWorkerTab] does. *)
Definition sample_env (tab : string + string) : SpawnEnv :=
  mkSpawnEnv "/home/u" (λ i, (i, i)) 1767522030000 "V1StGXR8_Z"
             "2026-01-04T10:20:30.000Z" "2026-01-04T10:20:31.000Z"
             None false None false None tab.

Definition sample_options (tasks : list string) : SpawnOptions.t :=
  SpawnOptions.mk tasks None None None None.


(** *** Cleaning up *)

(** The deletion of a directory fails for good: the directory is there,
    [rmSync] throws and the fallback [rm -rf] throws as well. *)
Definition deletion_fails (e : CleanupEnv) : bool :=
  dirExists e && rmSyncThrows e && bool_decide (is_Some (rmRfError e)).

(** The records of [items] whose deletion fails, [envs i] being the
    environment of the first of them. *)
Fixpoint kept_records (envs : nat → CleanupEnv) (i : nat)
    (items : list Worker.t) : list Worker.t :=
  match items with
  | [] => []
  | x :: rest =>
      if deletion_fails (envs i) then x :: kept_records envs (S i) rest
      else kept_records envs (S i) rest
  end.

(** The loop of [cleanupAll] over an array nobody else mutates: one step
    per record, in order. *)
Fixpoint for_of (i : nat) (items : list Worker.t) (envs : nat → CleanupEnv)
    (acc : Tally) : Tally :=
  match items with
  | [] => acc
  | x :: rest => for_of (S i) rest envs (cleanupAll_step (envs i) x acc)
  end.

(** The last line of a forced [cleanupAll]. *)
Definition summary (cleaned failed : nat) : Event :=
  if bool_decide (0 < failed)%nat then
    SpinnerWarn ("Cleaned up " +:+ pretty cleaned +:+ " workers, "
                 +:+ pretty failed +:+ " failed")
  else SpinnerSucceed ("Cleaned up " +:+ pretty cleaned +:+ " workers").

(** Environments for a clean-up: everything works; the terminal is gone;
    the directory cannot be deleted. *)
Definition env_ok : CleanupEnv := mkCleanupEnv false false true false None.
Definition env_no_terminal : CleanupEnv := mkCleanupEnv true true true false None.
Definition env_stuck : CleanupEnv :=
  mkCleanupEnv false false true true (Some "rm: Permission denied").

(** *** Histories of a registry *)

(** What happens to a registry over time, one step after the other: a
    run of [spawnSingleWorker] (a [spawn] command is one run per task), a
    [cleanup] command, or the start of a new process. A step that ends
    in [process.exit] is followed by a new process in any case. *)
Inductive Step : Type :=
| SpawnStep (repoUrl task : string) (options : SpawnOptions.t)
    (isFirstInBatch : bool) (e : SpawnEnv)
| CleanupStep (nameOrId : option string) (options : CleanupOptions.t)
    (e : CleanupEnv) (envs : nat → CleanupEnv)
| Restart.

Definition step_result (s : Step) (w : World) : Result :=
  match s with
  | SpawnStep repoUrl task options first e =>
      spawnSingleWorker repoUrl task options first e w
  | CleanupStep nameOrId options e envs => cleanup nameOrId options e envs w
  | Restart => mkResult (boot (file w)) [] Returned
  end.

(** The process in which the next step runs. *)
Definition next_world (r : Result) : World :=
  match exit r with
  | Returned => world r
  | Exited _ => boot (file (world r))
  end.

Fixpoint run (steps : list Step) (w : World) : World :=
  match steps with
  | [] => w
  | s :: rest => run rest (next_world (step_result s w))
  end.

(** The steps of one [spawn] command: a run per task, up to and
    including the first that fails. *)
Fixpoint steps_of_spawn (repoUrl : string) (options : SpawnOptions.t)
    (tasks : list string) (i : nat) (envs : nat → SpawnEnv) : list Step :=
  match tasks with
  | [] => []
  | task :: tasks' =>
      SpawnStep repoUrl task options (bool_decide (i = 0%nat)) (envs i)
      :: (if succeeds (envs i)
          then steps_of_spawn repoUrl options tasks' (S i) envs
          else [])
  end.

(** The spawn runs of a history that satisfy [sel] ([succeeds], or
    [persists_record]): how many there are, and the ports of the records
    they built, in order. *)
Definition selected (sel : SpawnEnv → bool) (s : Step) : bool :=
  match s with
  | SpawnStep _ _ _ _ e => sel e
  | _ => false
  end.

Fixpoint count_spawns (sel : SpawnEnv → bool) (steps : list Step) : nat :=
  match steps with
  | [] => 0
  | s :: rest =>
      ((if selected sel s then 1 else 0) + count_spawns sel rest)%nat
  end.

Fixpoint assigned_ports (sel : SpawnEnv → bool) (steps : list Step)
    (w : World) : list Z :=
  match steps with
  | [] => []
  | s :: rest =>
      match s with
      | SpawnStep repoUrl task options _ e =>
          if sel e then [Worker.port (new_worker repoUrl task options e w)]
          else []
      | _ => []
      end ++ assigned_ports sel rest (next_world (step_result s w))
  end.

(** [basePort + i * portIncrement] for [i] from [from] on, [n] of them. *)
Definition port_range (from : Z) (n : nat) : list Z :=
  (λ i : nat, CONFIG.basePort + (from + Z.of_nat i) * CONFIG.portIncrement)
    <$> seq 0 n.

(** No spawn of the history failed after its record had been written. *)
Definition no_failure_after_record (steps : list Step) : Prop :=
  Forall (λ s, selected persists_record s = selected succeeds s) steps.

(** *** Reading an AppleScript string literal *)

(** The text a literal denotes when its body uses the two escapes the
    code produces: a backslash followed by a backslash or by a double
    quote stands for that character. [None] when the body holds a double
    quote that is not escaped (the literal would end there) or a
    backslash followed by anything else. *)
Fixpoint unescape (body : string) : option string :=
  match body with
  | EmptyString => Some EmptyString
  | String c rest =>
      if decide (c = backslash) then
        match rest with
        | String d rest' =>
            if decide (d = backslash ∨ d = dquote)
            then String d <$> unescape rest'
            else None
        | EmptyString => None
        end
      else if decide (c = dquote) then None
      else String c <$> unescape rest
  end.

(** Number of occurrences of a character in a text. *)
Fixpoint count_char (c : ascii) (s : string) : nat :=
  match s with
  | EmptyString => 0%nat
  | String d rest => ((if bool_decide (d = c) then 1 else 0) + count_char c rest)%nat
  end.

(** *** Registry updates *)

(** The record [updateWorkerStatus] leaves in place of the one it found:
    [worker.status = status], then [Object.assign(worker, updates)]. *)
Definition updated (status : Status) (updates : option string)
    (x : Worker.t) : Worker.t :=
  let x1 := Worker.set_status status x in
  match updates with
  | Some tab => Worker.set_terminalTab tab x1
  | None => x1
  end.

(** A record without the two fields [updateWorkerStatus] writes. *)
Definition reset_progress (x : Worker.t) : Worker.t :=
  Worker.set_status setting_up
    (Worker.mk (Worker.id x) (Worker.name x) (Worker.repoUrl x)
               (Worker.repoName x) (Worker.branch x) (Worker.task x)
               (Worker.directory x) (Worker.port x) (Worker.pid x) None
               (Worker.createdAt x) (Worker.status x)).

(** *** Batches *)

(** The options with another list of tasks. *)
Definition with_tasks (tasks : list string) (options : SpawnOptions.t)
    : SpawnOptions.t :=
  SpawnOptions.mk tasks (SpawnOptions.branch options) (SpawnOptions.port options)
                  (SpawnOptions.noDev options) (SpawnOptions.name options).

(** *** Invariants of a registry *)

(** A port the counter has handed out when it stands at [offset]. *)
Definition allocated (offset : Z) (p : Z) : Prop :=
  ∃ k, 0 ≤ k ∧ k < offset ∧ p = CONFIG.basePort + k * CONFIG.portIncrement.

(** The ports of the records are ports the counter has handed out, and
    no two records hold the same. *)
Definition ports_allocated (s : State.t) : Prop :=
  0 ≤ State.nextPortOffset s
  ∧ NoDup (Worker.port <$> State.workers s)
  ∧ Forall (allocated (State.nextPortOffset s)) (Worker.port <$> State.workers s).

(** A record as a spawn leaves it: written and waiting for its session,
    or running in a session. *)
Definition in_progress (x : Worker.t) : Prop :=
  (Worker.status x = setting_up ∧ Worker.terminalTab x = None)
  ∨ (Worker.status x = running ∧ is_Some (Worker.terminalTab x)).

#[global] Instance in_progress_dec x : Decision (in_progress x).
Proof. unfold in_progress. apply _. Defined.
(* ===================================================================== *)
(** * Properties *)
(* ===================================================================== *)

(** ** The identity functions on the examples of the README *)

Example generateWorkerName_first_draw :
  generateWorkerName [] (λ _, (0, 0)%nat) 0 = "swift-fox".
Proof. vm_compute. reflexivity. Qed.

Example generateWorkerName_second_draw :
  generateWorkerName ["swift-fox"] (λ i, (i, 2 * i)%nat) 0 = "brave-eagle".
Proof. vm_compute. reflexivity. Qed.

Example getRepoName_git : getRepoName "https://github.com/user/repo.git" = "repo".
Proof. vm_compute. reflexivity. Qed.

Example getRepoName_plain : getRepoName "https://github.com/user/my-app" = "my-app".
Proof. vm_compute. reflexivity. Qed.

Example getRepoName_only_git : getRepoName "host/.git" = ".git".
Proof. vm_compute. reflexivity. Qed.

Example getRepoName_trailing_slash : getRepoName "https://github.com/user/app/" = "repo".
Proof. vm_compute. reflexivity. Qed.

Example generateBranchName_readme :
  generateBranchName "Implement dark mode toggle" "swift-fox" "2026-01-04T10:20:30.000Z"
  = "feat/implement-dark-mode-toggle-swift-fox-20260104".
Proof. vm_compute. reflexivity. Qed.

Example generateBranchName_punctuation :
  generateBranchName "!!! ???" "calm-owl" "2026-01-04T10:20:30.000Z"
  = "feat/-calm-owl-20260104".
Proof. vm_compute. reflexivity. Qed.

Example generateBranchName_empty :
  generateBranchName "" "calm-owl" "2026-01-04T10:20:30.000Z"
  = "feat/-calm-owl-20260104".
Proof. vm_compute. reflexivity. Qed.

(** ** The registry as its readers see it *)

Section RegistryFacts.

Implicit Types (w : World) (o : StateObj) (x worker : Worker.t)
  (f : StoreFile) (s : State.t).

Lemma persisted_saveState w o : persisted (saveState w o) = snapshot w o.
Proof. reflexivity. Qed.

Lemma persisted_Stored s l : persisted (mkWorld (Stored s) l) = s.
Proof. by destruct s. Qed.

(** The state a reader sees is the written one once a file is there. *)
Lemma file_persisted w s : file w = Stored s → persisted w = s.
Proof. destruct w as [f l]; simpl; intros ->. apply persisted_Stored. Qed.

(** A restart forgets the heap; it changes what is read only when no
    state is stored, and then only the records. *)
Lemma persisted_boot_Stored w s :
  file w = Stored s → persisted (boot (file w)) = persisted w.
Proof.
  intros Hf. rewrite (file_persisted w s Hf). unfold boot. rewrite Hf.
  apply persisted_Stored.
Qed.

Lemma nextPortOffset_boot w :
  State.nextPortOffset (persisted (boot (file w)))
  = State.nextPortOffset (persisted w).
Proof. by destruct w as [[] ?]. Qed.

Lemma itermWindowId_boot w :
  State.itermWindowId (persisted (boot (file w)))
  = State.itermWindowId (persisted w).
Proof. by destruct w as [[] ?]. Qed.

(** A process that starts on no stored state reads the empty default. *)
Lemma persisted_boot_default f :
  (∀ s, f ≠ Stored s) → persisted (boot f) = DEFAULT_STATE.
Proof. destruct f; intros H; try reflexivity. by destruct (H s). Qed.

Lemma deref_getAllWorkers w :
  deref w (getAllWorkers w) = State.workers (persisted w).
Proof. reflexivity. Qed.

Lemma getNextPort_persisted w :
  getNextPort w
  = CONFIG.basePort + State.nextPortOffset (persisted w) * CONFIG.portIncrement.
Proof. reflexivity. Qed.

(** [addWorker] as a reader sees it. *)
Lemma persisted_addWorker x w :
  persisted (addWorker x w)
  = State.mk (State.workers (persisted w) ++ [x])
             (State.nextPortOffset (persisted w) + 1)
             (State.itermWindowId (persisted w)).
Proof. by destruct w as [[] ?]. Qed.

Lemma file_addWorker x w :
  file (addWorker x w) = Stored (persisted (addWorker x w)).
Proof. by destruct w as [[] ?]. Qed.

(** [removeWorker] as a reader sees it. *)
Lemma removeWorker_None nameOrId w :
  list_find (Worker.matches nameOrId) (State.workers (persisted w)) = None →
  removeWorker nameOrId w = (None, w).
Proof. unfold removeWorker. rewrite deref_getAllWorkers. by intros ->. Qed.

Lemma removeWorker_Some nameOrId w index removed :
  list_find (Worker.matches nameOrId) (State.workers (persisted w))
    = Some (index, removed) →
  (removeWorker nameOrId w).1 = Some removed
  ∧ persisted (removeWorker nameOrId w).2
    = State.mk (delete index (State.workers (persisted w)))
               (State.nextPortOffset (persisted w))
               (State.itermWindowId (persisted w))
  ∧ file (removeWorker nameOrId w).2
    = Stored (persisted (removeWorker nameOrId w).2).
Proof.
  unfold removeWorker. rewrite deref_getAllWorkers. intros ->.
  by destruct w as [[] ?].
Qed.

Lemma removeWorker_nextPortOffset nameOrId w :
  State.nextPortOffset (persisted (removeWorker nameOrId w).2)
  = State.nextPortOffset (persisted w).
Proof.
  destruct (list_find (Worker.matches nameOrId) (State.workers (persisted w)))
    as [[i x]|] eqn:E.
  - by destruct (removeWorker_Some _ _ _ _ E) as (_ & -> & _).
  - by rewrite (removeWorker_None _ _ E).
Qed.

Lemma removeWorker_itermWindowId nameOrId w :
  State.itermWindowId (persisted (removeWorker nameOrId w).2)
  = State.itermWindowId (persisted w).
Proof.
  destruct (list_find (Worker.matches nameOrId) (State.workers (persisted w)))
    as [[i x]|] eqn:E.
  - by destruct (removeWorker_Some _ _ _ _ E) as (_ & -> & _).
  - by rewrite (removeWorker_None _ _ E).
Qed.

(** [updateWorkerStatus] as a reader sees it. *)
Lemma persisted_updateWorkerStatus nameOrId status updates w :
  State.nextPortOffset (persisted (updateWorkerStatus nameOrId status updates w))
  = State.nextPortOffset (persisted w)
  ∧ State.itermWindowId (persisted (updateWorkerStatus nameOrId status updates w))
  = State.itermWindowId (persisted w)
  ∧ length (State.workers (persisted (updateWorkerStatus nameOrId status updates w)))
  = length (State.workers (persisted w)).
Proof.
  unfold updateWorkerStatus. rewrite deref_getAllWorkers.
  destruct (list_find _ _) as [[i x]|]; [|done].
  destruct w as [[] ?]; simpl; by rewrite ?length_insert.
Qed.

Lemma file_updateWorkerStatus nameOrId status updates w s :
  file w = Stored s →
  ∃ s', file (updateWorkerStatus nameOrId status updates w) = Stored s'.
Proof.
  destruct w as [f l]; simpl; intros ->. unfold updateWorkerStatus; simpl.
  destruct (list_find _ _) as [[i x]|]; simpl; eauto.
Qed.

(** [clearItermWindowId] as a reader sees it. *)
Lemma persisted_clearItermWindowId w :
  persisted (clearItermWindowId w)
  = State.mk (State.workers (persisted w))
             (State.nextPortOffset (persisted w)) None.
Proof. by destruct w as [[] ?]. Qed.

End RegistryFacts.

(** ** Lookup and removal by name or id *)

Section Removal.

Implicit Types (w : World) (worker : Worker.t) (l : list Worker.t).

Lemma getWorker_list_find nameOrId w worker :
  getWorker nameOrId w = Some worker ↔
  ∃ index, list_find (Worker.matches nameOrId) (State.workers (persisted w))
           = Some (index, worker).
Proof.
  unfold getWorker, find. rewrite deref_getAllWorkers.
  destruct (list_find _ _) as [[i x]|]; simpl; split.
  - intros [= ->]. eauto.
  - by intros [? [= _ ->]].
  - done.
  - by intros [? ?].
Qed.

Lemma getWorker_None nameOrId w :
  getWorker nameOrId w = None ↔
  list_find (Worker.matches nameOrId) (State.workers (persisted w)) = None.
Proof.
  unfold getWorker, find. rewrite deref_getAllWorkers.
  by destruct (list_find _ _) as [[i x]|].
Qed.

(** Two identifiers that both resolve to one record resolve to it at the
    same index: each lookup stops at the first match, and the record
    matches both. *)
Lemma list_find_same_index l worker a b i j :
  Worker.matches a worker → Worker.matches b worker →
  list_find (Worker.matches a) l = Some (i, worker) →
  list_find (Worker.matches b) l = Some (j, worker) →
  i = j.
Proof.
  intros Ha Hb (Hi & _ & Hmin_a)%list_find_Some (Hj & _ & Hmin_b)%list_find_Some.
  destruct (Nat.lt_trichotomy i j) as [Hlt|[->|Hlt]]; [|done|].
  - destruct (Hmin_b i worker Hi Hlt Hb).
  - destruct (Hmin_a j worker Hj Hlt Ha).
Qed.

Lemma distinct_keys_not_matches x y nameOrId :
  distinct_keys x y → Worker.matches nameOrId y → ¬ Worker.matches nameOrId x.
Proof.
  intros (? & ? & ? & ?) [Hy|Hy] [Hx|Hx]; subst nameOrId; congruence.
Qed.

Lemma unique_keys_list_find l i worker nameOrId :
  unique_keys l → l !! i = Some worker → Worker.matches nameOrId worker →
  list_find (Worker.matches nameOrId) l = Some (i, worker).
Proof.
  revert i. induction l as [|y l IH]; intros i; [done|].
  intros [Hy Hl] Hi Hm. simpl.
  destruct i as [|i]; simpl in Hi.
  - injection Hi as ->. by rewrite decide_True.
  - rewrite decide_False.
    + by rewrite (IH i Hl Hi Hm).
    + eapply distinct_keys_not_matches; [|exact Hm].
      eapply Forall_forall; [exact Hy|]. by eapply list_elem_of_lookup_2.
Qed.

Lemma unique_keys_middle l1 x l2 :
  unique_keys (l1 ++ x :: l2) → unique_keys (l1 ++ l2).
Proof.
  induction l1 as [|y l1 IH]; simpl.
  - by intros [_ ?].
  - intros [Hy Hl]. split; [|by apply IH].
    apply Forall_app in Hy as [? [_ ?]%Forall_cons]. by apply Forall_app.
Qed.

(** In a registry with unique keys both identifiers of every record
    resolve to that record. *)
Lemma unique_keys_getWorker w worker :
  unique_keys (State.workers (persisted w)) →
  worker ∈ State.workers (persisted w) →
  getWorker (Worker.name worker) w = Some worker
  ∧ getWorker (Worker.id worker) w = Some worker.
Proof.
  intros Hkeys [i Hi]%list_elem_of_lookup.
  split; apply getWorker_list_find; exists i;
    apply unique_keys_list_find; auto; [by left|by right].
Qed.

End Removal.

(** C8. Removing a worker by its name and removing it by its id are the
    same operation whenever both identifiers refer to that record: the
    two calls return that record and leave the same store, in which
    exactly that record is gone. Removing an identifier that matches no
    record returns [undefined] and leaves the store and the heap as they
    were; [removeWorker] is a total function, it cannot throw. *)
Theorem removeWorker_name_id_equivalent
    (w : World) (worker : Worker.t) (nameOrId : string) :
  (getWorker (Worker.name worker) w = Some worker →
   getWorker (Worker.id worker) w = Some worker →
   removeWorker (Worker.name worker) w = removeWorker (Worker.id worker) w
   ∧ (removeWorker (Worker.name worker) w).1 = Some worker
   ∧ ∃ index,
       State.workers (persisted w) !! index = Some worker
       ∧ State.workers (persisted (removeWorker (Worker.name worker) w).2)
         = delete index (State.workers (persisted w)))
  ∧ (getWorker nameOrId w = None → removeWorker nameOrId w = (None, w)).
Proof.
  split.
  - intros [i Hi]%getWorker_list_find [j Hj]%getWorker_list_find.
    assert (i = j) as <-.
    { eapply list_find_same_index; [| |exact Hi|exact Hj]; [by left|by right]. }
    split_and!.
    + unfold removeWorker. rewrite deref_getAllWorkers, Hi, Hj. done.
    + by destruct (removeWorker_Some _ _ _ _ Hi) as (-> & _).
    + exists i. split.
      * by apply list_find_Some in Hi as (? & _).
      * by destruct (removeWorker_Some _ _ _ _ Hi) as (_ & -> & _).
  - intros H%getWorker_None. by apply removeWorker_None.
Qed.

Lemma removeWorker_name_id_equivalent_witness :
  let worker := sample_worker "b5f2kQ9xLm" "calm-owl" 3110 in
  (removeWorker "calm-owl" sample_registry = removeWorker "b5f2kQ9xLm" sample_registry
   ∧ (removeWorker "calm-owl" sample_registry).1 = Some worker
   ∧ ∃ index,
       State.workers (persisted sample_registry) !! index = Some worker
       ∧ State.workers (persisted (removeWorker "calm-owl" sample_registry).2)
         = delete index (State.workers (persisted sample_registry)))
  ∧ removeWorker "bold-bear" sample_registry = (None, sample_registry).
Proof.
  intros worker.
  destruct (removeWorker_name_id_equivalent sample_registry worker "bold-bear")
    as [Hsame Hnone].
  split; [apply Hsame|apply Hnone]; vm_compute; reflexivity.
Defined.

(** ** [loadState] and the shared default *)

(** Whatever is (or is not) at the state file, [loadState] returns: a
    stored state is read back as written, and everything else yields a
    copy of [DEFAULT_STATE] whose records are those of the shared array. *)
Lemma loadState_not_stored (w : World) :
  (∀ s, file w ≠ Stored s) →
  persisted w = State.mk (defaultWorkers w) 0 None.
Proof. destruct w as [[] l]; intros H; try reflexivity. by destruct (H s). Qed.

(** C9, at an input where it fails. A process starts with no state file
    and adds a worker: [loadState] hands out the default, [addWorker]
    pushes the record onto the array the default shares with
    [DEFAULT_STATE], and the state is written. If the file is then absent,
    unreadable or malformed again, the next [loadState] of that process
    does not return the empty default: its [workers] holds the record
    pushed earlier. *)
Example loadState_default_not_empty_after_push :
  let worker := sample_worker "V1StGXR8_Z" "swift-fox" 3100 in
  let w0 := boot NoFile in
  let w1 := addWorker worker w0 in
  let gone := mkWorld NoFile (defaultWorkers w1) in
  let unreadable := mkWorld Unreadable (defaultWorkers w1) in
  let malformed := mkWorld (Malformed "{") (defaultWorkers w1) in
  snapshot w0 (loadState w0) = DEFAULT_STATE
  ∧ file w1 = Stored (State.mk [worker] 1 None)
  ∧ snapshot gone (loadState gone) = State.mk [worker] 0 None
  ∧ snapshot unreadable (loadState unreadable) = State.mk [worker] 0 None
  ∧ snapshot malformed (loadState malformed) = State.mk [worker] 0 None
  ∧ State.mk [worker] 0 None ≠ DEFAULT_STATE.
Proof. cbv zeta. by split_and!. Qed.
(** ** Worker names *)

Section Names.

Implicit Types (existing : gset string) (draws : nat → nat * nat).

(** The loop returns the first candidate that is not taken. *)
Lemma attempts_Some n i existing draws name :
  attempts n i existing draws = Some name ↔
  (∃ k, (i ≤ k)%nat ∧ (k < i + n)%nat
        ∧ name = candidate (draws k)
        ∧ (name ∉ existing)
        ∧ ∀ j, (i ≤ j)%nat → (j < k)%nat → candidate (draws j) ∈ existing).
Proof.
  revert i. induction n as [|n IH]; intros i; simpl.
  { split; [done|]. intros (k & ? & ? & _). lia. }
  destruct (decide (candidate (draws i) ∈ existing)) as [Hin|Hout].
  - rewrite IH. split.
    + intros (k & ? & ? & -> & Hfree & Hbefore).
      exists k. split_and!; [lia|lia|done|done|].
      intros j ? ?. destruct (decide (j = i)) as [->|]; [done|].
      apply Hbefore; lia.
    + intros (k & ? & ? & -> & Hfree & Hbefore).
      assert (k ≠ i) by (intros ->; contradiction).
      exists k. split_and!; [lia|lia|done|done|].
      intros j ? ?. apply Hbefore; lia.
  - split.
    + intros [= <-]. exists i. split_and!; [lia|lia|done|done|]. intros j ? ?. lia.
    + intros (k & ? & ? & -> & Hfree & Hbefore).
      destruct (decide (k = i)) as [->|]; [done|].
      destruct Hout. apply Hbefore; lia.
Qed.

(** The loop runs to its end exactly when every candidate is taken. *)
Lemma attempts_None n i existing draws :
  attempts n i existing draws = None ↔
  (∀ j, (i ≤ j)%nat → (j < i + n)%nat → candidate (draws j) ∈ existing).
Proof.
  revert i. induction n as [|n IH]; intros i; simpl.
  { split; [|done]. intros _ j ? ?. lia. }
  destruct (decide (candidate (draws i) ∈ existing)) as [Hin|Hout].
  - rewrite IH. split; intros H j ? ?.
    + destruct (decide (j = i)) as [->|]; [done|]. apply H; lia.
    + apply H; lia.
  - split; [done|]. intros H. destruct Hout. apply H; lia.
Qed.

End Names.

(** C6, as the code has it. [generateWorkerName] returns the first of the
    (at most 100) drawn candidates that is not among the existing names,
    and that name is not among them. When all 100 candidates are taken it
    returns [worker-<now>] without looking it up; the result is then
    fresh provided [worker-<now>] itself is not an existing name. *)
Theorem generateWorkerName_fresh_or_fallback
    (existingNames : list string) (draws : nat → nat * nat) (now : N) :
  let name := generateWorkerName existingNames draws now in
  ((∃ k, (k < 100)%nat
         ∧ name = candidate (draws k)
         ∧ ∀ j, (j < k)%nat → candidate (draws j) ∈ existingNames)
   ∧ name ∉ existingNames)
  ∨ ((∀ j, (j < 100)%nat → candidate (draws j) ∈ existingNames)
     ∧ name = "worker-" +:+ pretty now
     ∧ ("worker-" +:+ pretty now ∉ existingNames → name ∉ existingNames)).
Proof.
  intros name. subst name. unfold generateWorkerName.
  destruct (attempts 100 0 _ draws) as [name|] eqn:E.
  - left. apply attempts_Some in E as (k & ? & ? & -> & Hfree & Hbefore).
    rewrite elem_of_list_to_set in Hfree. split; [|done].
    exists k. split_and!; [lia|done|].
    intros j Hj. rewrite <-(elem_of_list_to_set (C:=gset string)).
    apply Hbefore; lia.
  - right. split_and!; [|done|done].
    intros j Hj. rewrite <-(elem_of_list_to_set (C:=gset string)).
    eapply attempts_None; [exact E|lia|lia].
Qed.

(** C6, as stated, fails: with only two existing names (the cross
    product has 256) every draw can hit the first of them, and the
    fallback name can be the second. *)
Lemma generateWorkerName_returns_existing_name :
  let existingNames := ["swift-fox"; "worker-1767522030000"] in
  (length existingNames < length adjectives * length animals)%nat
  ∧ generateWorkerName existingNames (λ _, (0, 0)%nat) 1767522030000
    ∈ existingNames.
Proof.
  split; [vm_compute; lia|].
  assert (generateWorkerName ["swift-fox"; "worker-1767522030000"]
            (λ _, (0, 0)%nat) 1767522030000 = "worker-1767522030000") as ->
    by (vm_compute; reflexivity).
  set_solver.
Qed.

(** ** Branch names *)

Section Slug.

Implicit Types (s : string) (c : ascii) (b : bool).

Lemma lower_alnum_not_hyphen c : is_lower_alnum c = true → is_hyphen c = false.
Proof.
  unfold is_hyphen. intros H. apply bool_decide_eq_false. intros ->.
  by vm_compute in H.
Qed.

Lemma digit_not_hyphen c : is_digit c = true → is_hyphen c = false.
Proof.
  unfold is_hyphen. intros H. apply bool_decide_eq_false. intros ->.
  by vm_compute in H.
Qed.

Lemma is_hyphen_true c : is_hyphen c = true ↔ c = "-"%char.
Proof. apply bool_decide_eq_true. Qed.

(** *** Collapsing the runs *)

Lemma replace_runs_chars b s : all_chars slug_char (replace_runs b s) = true.
Proof.
  revert b. induction s as [|c s IH]; intros b; simpl; [done|].
  destruct (is_lower_alnum c) eqn:Hc; simpl.
  - unfold slug_char at 1. by rewrite Hc, IH.
  - destruct b; simpl; by rewrite ?IH.
Qed.

(** Inside a run no hyphen is emitted, so the text that follows a hyphen
    never starts with one. *)
Lemma replace_runs_in_run s : starts_with_hyphen (replace_runs true s) = false.
Proof.
  induction s as [|c s IH]; simpl; [done|].
  destruct (is_lower_alnum c) eqn:Hc; simpl; [|done].
  by apply lower_alnum_not_hyphen.
Qed.

Lemma replace_runs_single b s : single_hyphens (replace_runs b s) = true.
Proof.
  revert b. induction s as [|c s IH]; intros b; simpl; [done|].
  destruct (is_lower_alnum c) eqn:Hc; simpl.
  - by rewrite (lower_alnum_not_hyphen c Hc), IH.
  - destruct b; simpl; [done|]. by rewrite replace_runs_in_run, IH.
Qed.

(** *** Truncating *)

Lemma slice0_chars p n s :
  all_chars p s = true → all_chars p (slice0 n s) = true.
Proof.
  revert s. induction n as [|n IH]; intros [|c s]; simpl; try done.
  intros [? ?]%andb_true_iff. apply andb_true_iff. auto.
Qed.

Lemma slice0_starts n s :
  starts_with_hyphen (slice0 n s) = true → starts_with_hyphen s = true.
Proof. by destruct n, s. Qed.

Lemma slice0_single n s :
  single_hyphens s = true → single_hyphens (slice0 n s) = true.
Proof.
  revert s. induction n as [|n IH]; intros [|c s]; simpl; try done.
  intros [Hc Hs]%andb_true_iff. apply andb_true_iff. split; [|by apply IH].
  destruct (is_hyphen c); simpl in *; [|done].
  destruct (starts_with_hyphen (slice0 n s)) eqn:E; [|done].
  apply slice0_starts in E. by rewrite E in Hc.
Qed.

Lemma slice0_length n s : (String.length (slice0 n s) ≤ n)%nat.
Proof.
  revert s. induction n as [|n IH]; intros [|c s]; simpl; try lia.
  specialize (IH s). lia.
Qed.

(** *** Stripping *)

Lemma strip_trailing_empty s :
  strip_trailing s = EmptyString → s = EmptyString ∨ s = "-".
Proof.
  destruct s as [|c s]; simpl; [by left|].
  destruct (decide _) as [[-> ->]|]; [by right|done].
Qed.

Lemma strip_trailing_chars p s :
  all_chars p s = true → all_chars p (strip_trailing s) = true.
Proof.
  induction s as [|c s IH]; simpl; [done|].
  intros [? ?]%andb_true_iff. destruct (decide _); simpl; [done|].
  apply andb_true_iff. auto.
Qed.

Lemma strip_trailing_starts s :
  starts_with_hyphen (strip_trailing s) = true → starts_with_hyphen s = true.
Proof. destruct s as [|c s]; simpl; [done|]. by destruct (decide _). Qed.

Lemma strip_trailing_single s :
  single_hyphens s = true → single_hyphens (strip_trailing s) = true.
Proof.
  induction s as [|c s IH]; simpl; [done|].
  intros [Hc Hs]%andb_true_iff. destruct (decide _); simpl; [done|].
  apply andb_true_iff. split; [|by apply IH].
  destruct (is_hyphen c); simpl in *; [|done].
  destruct (starts_with_hyphen (strip_trailing s)) eqn:E; [|done].
  apply strip_trailing_starts in E. by rewrite E in Hc.
Qed.

Lemma strip_trailing_length s :
  (String.length (strip_trailing s) ≤ String.length s)%nat.
Proof.
  induction s as [|c s IH]; simpl; [done|].
  destruct (decide _); simpl; lia.
Qed.

(** After the strip the text cannot end in a hyphen: the one that was
    last is gone, and the character before it was not a hyphen. *)
Lemma strip_trailing_ends s :
  single_hyphens s = true → ends_with_hyphen (strip_trailing s) = false.
Proof.
  induction s as [|c s IH]; simpl; [done|].
  intros [Hc Hs]%andb_true_iff.
  destruct (decide _) as [|Hlast]; simpl; [done|].
  destruct (strip_trailing s) as [|c' s'] eqn:E.
  - apply strip_trailing_empty in E as [->| ->].
    + apply bool_decide_eq_false. intros ->. by destruct Hlast.
    + simpl in Hc. by destruct (is_hyphen c).
  - by apply IH.
Qed.

(** On text with single hyphens, what the regular expression strips (one
    hyphen at each end) is all there is to strip. *)
Lemma strip_trailing_drop s :
  single_hyphens s = true → strip_trailing s = drop_trailing_hyphens s.
Proof.
  induction s as [|c s IH]; simpl; [done|].
  intros [Hc Hs]%andb_true_iff. rewrite <-(IH Hs).
  destruct (decide _) as [[-> ->]|Hlast]; simpl; [done|].
  destruct (is_hyphen c) eqn:Ec; simpl; [|done].
  destruct (strip_trailing s) as [|c' s'] eqn:E; simpl; [|done].
  apply is_hyphen_true in Ec as ->.
  apply strip_trailing_empty in E as [->| ->]; [by destruct Hlast|done].
Qed.

Lemma strip_hyphens_trim s :
  single_hyphens s = true → strip_hyphens s = trim_hyphens s.
Proof.
  unfold trim_hyphens. destruct s as [|c s]; [done|].
  intros Hs. pose proof Hs as [Hc Hs']%andb_true_iff.
  destruct (is_hyphen c) eqn:Ec.
  - pose proof Ec as ->%is_hyphen_true. simpl.
    rewrite strip_trailing_drop by done. f_equal.
    destruct s as [|c' s]; simpl in *; [done|].
    by destruct (is_hyphen c').
  - simpl drop_leading_hyphens. rewrite Ec. rewrite <-strip_trailing_drop by done.
    unfold strip_hyphens.
    assert (c ≠ "-"%char) by (intros ->; by vm_compute in Ec).
    destruct c as [[] [] [] [] [] [] [] []]; try done.
Qed.

Lemma strip_hyphens_facts s :
  all_chars slug_char s = true → single_hyphens s = true →
  all_chars slug_char (strip_hyphens s) = true
  ∧ single_hyphens (strip_hyphens s) = true
  ∧ starts_with_hyphen (strip_hyphens s) = false
  ∧ ends_with_hyphen (strip_hyphens s) = false
  ∧ (String.length (strip_hyphens s) ≤ String.length s)%nat.
Proof.
  intros Hchars Hsingle.
  assert (∃ t, strip_hyphens s = strip_trailing t
               ∧ all_chars slug_char t = true ∧ single_hyphens t = true
               ∧ starts_with_hyphen t = false
               ∧ (String.length t ≤ String.length s)%nat)
    as (t & -> & Ht1 & Ht2 & Ht3 & Ht4).
  { destruct s as [|c s]; [by exists EmptyString|].
    simpl in Hchars, Hsingle.
    apply andb_true_iff in Hchars as [? ?].
    apply andb_true_iff in Hsingle as [Hc ?].
    destruct (is_hyphen c) eqn:Ec.
    - pose proof Ec as ->%is_hyphen_true. exists s. simpl.
      split_and!; try done; [|lia].
      by destruct (starts_with_hyphen s).
    - exists (String c s). split_and!; simpl; try done.
      + assert (c ≠ "-"%char) by (intros ->; by vm_compute in Ec).
        destruct c as [[] [] [] [] [] [] [] []]; try done.
      + by apply andb_true_iff.
      + by rewrite Ec. }
  split_and!.
  - by apply strip_trailing_chars.
  - by apply strip_trailing_single.
  - destruct (starts_with_hyphen (strip_trailing t)) eqn:E; [|done].
    apply strip_trailing_starts in E. congruence.
  - by apply strip_trailing_ends.
  - pose proof (strip_trailing_length t). lia.
Qed.

(** The slug of any text. *)
Lemma slugify_facts s :
  all_chars slug_char (slugify s) = true
  ∧ single_hyphens (slugify s) = true
  ∧ starts_with_hyphen (slugify s) = false
  ∧ ends_with_hyphen (slugify s) = false
  ∧ (String.length (slugify s) ≤ 40)%nat
  ∧ slugify s = trim_hyphens (slice0 40 (replace_runs false s)).
Proof.
  unfold slugify.
  pose proof (slice0_chars slug_char 40 _ (replace_runs_chars false s)) as Hchars.
  pose proof (slice0_single 40 _ (replace_runs_single false s)) as Hsingle.
  destruct (strip_hyphens_facts _ Hchars Hsingle) as (? & ? & ? & ? & Hlen).
  pose proof (slice0_length 40 (replace_runs false s)).
  split_and!; try done; [lia|]. by apply strip_hyphens_trim.
Qed.

(** *** The date *)

Lemma remove_hyphens_digit c s :
  is_digit c = true →
  remove_hyphens (String c s) = String c (remove_hyphens s).
Proof.
  intros Hc. simpl. destruct (decide _) as [->|]; [|done]. by vm_compute in Hc.
Qed.

Lemma date_of_iso iso :
  iso_date_prefix iso = true →
  String.length (remove_hyphens (slice0 10 iso)) = 8%nat
  ∧ all_chars is_digit (remove_hyphens (slice0 10 iso)) = true.
Proof.
  unfold iso_date_prefix.
  destruct iso as [|y1 [|y2 [|y3 [|y4 [|h1 [|m1 [|m2 [|h2 [|d1 [|d2 rest]]]]]]]]]];
    try done.
  rewrite !andb_true_iff.
  intros (((((((((Hy1 & Hy2) & Hy3) & Hy4) & ->%is_hyphen_true) & Hm1) & Hm2)
            & ->%is_hyphen_true) & Hd1) & Hd2).
  cbn [slice0].
  rewrite !remove_hyphens_digit by done.
  change (remove_hyphens (String "-" ?s)) with (remove_hyphens s).
  rewrite !remove_hyphens_digit by done.
  change (remove_hyphens (String "-" ?s)) with (remove_hyphens s).
  rewrite !remove_hyphens_digit by done.
  cbn [remove_hyphens String.length all_chars].
  by rewrite Hy1, Hy2, Hy3, Hy4, Hm1, Hm2, Hd1, Hd2.
Qed.

End Slug.

(** ** The slug of the code is the slug of the specification *)

Section SpecSlug.

Implicit Types (c : ascii) (text s : string).

Lemma small_letter_lower c : small_letter c = lower c.
Proof. by destruct c as [[] [] [] [] [] [] [] []]. Qed.

Lemma alphanumeric_is_lower_alnum c : alphanumeric c = is_lower_alnum c.
Proof. by destruct c as [[] [] [] [] [] [] [] []]. Qed.

Lemma append_String c s t : String c s +:+ t = String c (s +:+ t).
Proof. done. Qed.

Lemma append_empty t : EmptyString +:+ t = t.
Proof. done. Qed.

Lemma prefix_empty text : String.prefix EmptyString text = true.
Proof. by destruct text. Qed.

Lemma prefix_String a p c text :
  String.prefix (String a p) (String c text) = true →
  a = c ∧ String.prefix p text = true.
Proof. cbn [String.prefix]. by destruct (ascii_dec a c). Qed.

Lemma prefix_kelvin_sign text :
  String.prefix kelvin_sign text = true →
  ∃ rest, text = String "226" (String "132" (String "170" rest)).
Proof.
  unfold kelvin_sign. destruct text as [|c [|d [|e rest]]]; try done.
  - by intros [_ ?]%prefix_String.
  - intros [_ [_ ?]%prefix_String]%prefix_String. done.
  - intros [<- [<- [<- _]%prefix_String]%prefix_String]%prefix_String. eauto.
Qed.

Lemma prefix_capital_i_with_dot text :
  String.prefix capital_i_with_dot text = true →
  ∃ rest, text = String "196" (String "176" rest).
Proof.
  unfold capital_i_with_dot. destruct text as [|c [|d rest]]; try done.
  - by intros [_ ?]%prefix_String.
  - intros [<- [<- _]%prefix_String]%prefix_String. eauto.
Qed.

(** A character that is neither of the two lower-cases byte by byte. *)
Lemma toLowerCase_other c text :
  String.prefix kelvin_sign (String c text) = false →
  String.prefix capital_i_with_dot (String c text) = false →
  toLowerCase (String c text) = String (lower c) (toLowerCase text).
Proof.
  destruct (decide (c = "226"%char)) as [->|H1].
  { destruct text as [|d text]; [done|].
    destruct (decide (d = "132"%char)) as [->|H2].
    - destruct text as [|e text]; [done|].
      destruct (decide (e = "170"%char)) as [->|H3];
        [intros H; cbn in H; by rewrite prefix_empty in H|].
      intros _ _. by destruct e as [[] [] [] [] [] [] [] []].
    - intros _ _. by destruct d as [[] [] [] [] [] [] [] []]. }
  destruct (decide (c = "196"%char)) as [->|H2].
  { destruct text as [|d text]; [done|].
    destruct (decide (d = "176"%char)) as [->|H3];
      [intros _ H; cbn in H; by rewrite prefix_empty in H|].
    intros _ _. by destruct d as [[] [] [] [] [] [] [] []]. }
  intros _ _. by destruct c as [[] [] [] [] [] [] [] []].
Qed.

(** Lower-cased, in the specification's words, is [toLowerCase]. *)
Lemma lower_cased_toLowerCase text : lower_cased 0 text = toLowerCase text.
Proof.
  assert (∀ n text, (String.length text ≤ n)%nat →
                    lower_cased 0 text = toLowerCase text) as Hall;
    [|by apply (Hall (String.length text))].
  clear text. induction n as [|n IH]; intros [|c text] Hlen; try done.
  { cbn [String.length] in Hlen. lia. }
  cbn [String.length] in Hlen. cbn [lower_cased].
  destruct (String.prefix kelvin_sign (String c text)) eqn:Hk.
  { apply prefix_kelvin_sign in Hk as [rest [= -> ->]].
    cbn [lower_cased toLowerCase]. rewrite append_String, append_empty.
    rewrite IH; [done|]. cbn [String.length] in Hlen. lia. }
  destruct (String.prefix capital_i_with_dot (String c text)) eqn:Hi.
  { apply prefix_capital_i_with_dot in Hi as [rest [= -> ->]].
    cbn [lower_cased toLowerCase]. unfold small_i_with_dot.
    rewrite !append_String, append_empty.
    rewrite IH; [done|]. cbn [String.length] in Hlen. lia. }
  rewrite toLowerCase_other, small_letter_lower by done.
  rewrite IH; [done|lia].
Qed.

(** The runs of a text, rendered, are what the replacement leaves: all
    of it at the start of the text or after an alphanumeric, and all but
    the hyphen of the first run inside a run of other characters. *)
Lemma rendered_runs_replace_runs text :
  replace_runs false text = rendered (runs text)
  ∧ replace_runs true text
    = match runs text with
      | (false, _) :: more => rendered more
      | parts => rendered parts
      end.
Proof.
  induction text as [|c text [IHf IHt]]; [done|].
  cbn [replace_runs runs]. rewrite alphanumeric_is_lower_alnum.
  destruct (is_lower_alnum c); rewrite ?IHf, ?IHt;
    destruct (runs text) as [|[[] run] more]; by cbn.
Qed.

Lemma hyphenated_replace_runs text : hyphenated text = replace_runs false text.
Proof. symmetry. apply rendered_runs_replace_runs. Qed.

Lemma substring_slice0 n text : String.substring 0 n text = slice0 n text.
Proof.
  revert text. induction n as [|n IH]; intros [|c text]; cbn; by rewrite ?IH.
Qed.

(** Inside a run of characters outside [a-z0-9], which characters they
    are and how many does not matter to the replacement. *)
Lemma replace_runs_in_run_outside hi text :
  all_chars (λ c, negb (is_lower_alnum c)) hi = true →
  replace_runs true (hi +:+ text) = replace_runs true text.
Proof.
  induction hi as [|c hi IH]; [done|]. cbn [all_chars].
  intros [Hc Hhi]%andb_true_iff. apply negb_true_iff in Hc.
  rewrite append_String. cbn [replace_runs]. rewrite Hc. auto.
Qed.

Lemma replace_runs_outside in_run before hi hi' text :
  hi ≠ EmptyString → hi' ≠ EmptyString →
  all_chars (λ c, negb (is_lower_alnum c)) hi = true →
  all_chars (λ c, negb (is_lower_alnum c)) hi' = true →
  replace_runs in_run (before +:+ hi +:+ text)
  = replace_runs in_run (before +:+ hi' +:+ text).
Proof.
  intros Hne Hne' Hhi Hhi'.
  assert (∀ b run, run ≠ EmptyString →
            all_chars (λ c, negb (is_lower_alnum c)) run = true →
            replace_runs b (run +:+ text)
            = (if b then EmptyString else "-") +:+ replace_runs true text) as Hrun.
  { intros b [|c run] Hrun; [done|]. cbn [all_chars].
    intros [Hc Hall]%andb_true_iff. apply negb_true_iff in Hc.
    rewrite append_String. cbn [replace_runs]. rewrite Hc.
    rewrite (replace_runs_in_run_outside run text Hall). by destruct b. }
  revert in_run. induction before as [|c before IH]; intros in_run.
  - rewrite !append_empty. by rewrite !Hrun.
  - rewrite !append_String. cbn [replace_runs]. by rewrite !IH.
Qed.

(** The slug of the code is the slug of the specification. *)
Lemma slugify_spec_slug task : slugify (toLowerCase task) = spec_slug task.
Proof.
  unfold spec_slug.
  rewrite lower_cased_toLowerCase, hyphenated_replace_runs, substring_slice0.
  by destruct (slugify_facts (toLowerCase task)) as (_ & _ & _ & _ & _ & ->).
Qed.

Lemma spec_slug_char_slug_char c : spec_slug_char c = slug_char c.
Proof. unfold spec_slug_char, slug_char. by rewrite alphanumeric_is_lower_alnum. Qed.

Lemma all_chars_ext (p q : ascii → bool) text :
  (∀ c, p c = q c) → all_chars p text = all_chars q text.
Proof. intros Hpq. induction text as [|c text IH]; [done|]. cbn. by rewrite Hpq, IH. Qed.

Lemma spec_date_remove_hyphens iso :
  iso_date_prefix iso = true →
  remove_hyphens (slice0 10 iso) = spec_date iso.
Proof.
  destruct iso as [|y1 [|y2 [|y3 [|y4 [|h1 [|m1 [|m2 [|h2 [|d1 [|d2 rest]]]]]]]]]];
    try done.
  cbn [iso_date_prefix]. rewrite !andb_true_iff.
  intros (((((((((Hy1 & Hy2) & Hy3) & Hy4) & ->%is_hyphen_true) & Hm1) & Hm2)
            & ->%is_hyphen_true) & Hd1) & Hd2).
  cbn [slice0].
  assert (∀ c s, is_digit c = true →
                 remove_hyphens (String c s) = String c (remove_hyphens s)) as Hd.
  { intros c s Hc. by apply remove_hyphens_digit. }
  assert (∀ s, remove_hyphens (String "-" s) = remove_hyphens s) as Hh.
  { intros s. cbn [remove_hyphens]. by rewrite decide_True. }
  rewrite !Hd, Hh, !Hd, Hh, !Hd by done. cbn [remove_hyphens].
  unfold spec_date. cbn. by destruct rest.
Qed.

End SpecSlug.

(** C7. For every task (the empty text and texts of punctuation alone
    included) and every worker name, [generateBranchName] returns
    [feat/<slug>-<workerName>-<date>], where [<slug>] is the slug in the
    specification's words: the task lower-cased, every run of
    non-alphanumeric characters replaced by a single hyphen, truncated
    to 40 characters, stripped of leading and trailing hyphens. The slug
    holds lower-case alphanumerics and single hyphens only, neither
    starts nor ends with a hyphen and has at most 40 characters; the
    date is the eight digits of year, month and day, when the clock's
    [toISOString()] starts with [dddd-dd-dd]. *)
Theorem generateBranchName_shape (task workerName iso : string) :
  iso_date_prefix iso = true →
  generateBranchName task workerName iso
  = "feat/" +:+ spec_slug task +:+ "-" +:+ workerName +:+ "-" +:+ spec_date iso
  ∧ all_chars spec_slug_char (spec_slug task) = true
  ∧ single_hyphens (spec_slug task) = true
  ∧ starts_with_hyphen (spec_slug task) = false
  ∧ ends_with_hyphen (spec_slug task) = false
  ∧ (String.length (spec_slug task) ≤ 40)%nat
  ∧ String.length (spec_date iso) = 8%nat
  ∧ all_chars is_digit (spec_date iso) = true.
Proof.
  intros Hiso. unfold generateBranchName. cbv zeta.
  rewrite (spec_date_remove_hyphens iso Hiso), slugify_spec_slug.
  destruct (slugify_facts (toLowerCase task)) as (H1 & H2 & H3 & H4 & H5 & _).
  destruct (date_of_iso iso Hiso) as (H6 & H7).
  rewrite slugify_spec_slug in H1, H2, H3, H4, H5.
  rewrite (spec_date_remove_hyphens iso Hiso) in H6, H7.
  rewrite (all_chars_ext _ _ _ spec_slug_char_slug_char).
  by split_and!.
Qed.

Lemma generateBranchName_shape_witness :
  iso_date_prefix "2026-01-04T10:20:30.000Z" = true
  ∧ generateBranchName "  Fix: the LOGIN page -- ASAP!!" "keen-lynx"
                       "2026-01-04T10:20:30.000Z"
    = "feat/fix-the-login-page-asap-keen-lynx-20260104"
  ∧ spec_slug "  Fix: the LOGIN page -- ASAP!!" = "fix-the-login-page-asap"
  ∧ spec_date "2026-01-04T10:20:30.000Z" = "20260104".
Proof.
  split; [reflexivity|]. split; [|split; reflexivity].
  exact (proj1 (generateBranchName_shape "  Fix: the LOGIN page -- ASAP!!"
                  "keen-lynx" "2026-01-04T10:20:30.000Z" eq_refl)).
Defined.

(** Characters outside ASCII: the two that lower-case into it, and one
    that does not. *)
Example generateBranchName_kelvin_sign :
  generateBranchName ("Cool to 300 " +:+ kelvin_sign) "calm-owl"
                     "2026-01-04T10:20:30.000Z"
  = "feat/cool-to-300-k-calm-owl-20260104".
Proof. vm_compute. reflexivity. Qed.

Example generateBranchName_capital_i_with_dot :
  generateBranchName (capital_i_with_dot +:+ "stanbul OFFICE") "calm-owl"
                     "2026-01-04T10:20:30.000Z"
  = "feat/i-stanbul-office-calm-owl-20260104".
Proof. vm_compute. reflexivity. Qed.

Example generateBranchName_outside_ascii :
  generateBranchName ("caf" +:+ String "195" (String "137" " MENU")) "calm-owl"
                     "2026-01-04T10:20:30.000Z"
  = "feat/caf-menu-calm-owl-20260104".
Proof. vm_compute. reflexivity. Qed.

Example generateBranchName_fix_login :
  generateBranchName "  Fix: the LOGIN page -- ASAP!!" "keen-lynx"
                     "2026-01-04T10:20:30.000Z"
  = "feat/fix-the-login-page-asap-keen-lynx-20260104".
Proof. vm_compute. reflexivity. Qed.

Example generateBranchName_cut_at_hyphen :
  generateBranchName "Refactor the authentication middlewares and tests"
                     "bold-bear" "2026-01-04T10:20:30.000Z"
  = "feat/refactor-the-authentication-middlewares-bold-bear-20260104".
Proof. vm_compute. reflexivity. Qed.

(** ** One run of [spawnSingleWorker] *)

Section SpawnRun.

Implicit Types (w : World) (e : SpawnEnv) (options : SpawnOptions.t).

(** The three ways a run can go, by what the outside did. *)
Lemma spawnSingleWorker_no_record repoUrl task options first e w :
  persists_record e = false →
  world (spawnSingleWorker repoUrl task options first e w) = w
  ∧ exit (spawnSingleWorker repoUrl task options first e w) = Exited 1.
Proof.
  unfold persists_record, spawnSingleWorker.
  destruct (mkdirError e), (workerDirExists e), (setupError e); done.
Qed.

Lemma spawnSingleWorker_record_then_failure repoUrl task options first e w :
  persists_record e = true → succeeds e = false →
  world (spawnSingleWorker repoUrl task options first e w)
  = addWorker (new_worker repoUrl task options e w) w
  ∧ exit (spawnSingleWorker repoUrl task options first e w) = Exited 1
  ∧ ∃ message,
      last (log (spawnSingleWorker repoUrl task options first e w))
      = Some (SpinnerFail ("Failed to spawn worker: " +:+ message)).
Proof.
  unfold succeeds. intros Hp. rewrite Hp. revert Hp.
  unfold persists_record, spawnSingleWorker.
  destruct (mkdirError e), (workerDirExists e), (setupError e); try done.
  intros _. destruct (itermError e) as [message|]; simpl.
  - intros _. split_and!; [done..|]. by exists message.
  - destruct (openWorkerTab e) as [message|windowId]; [|done].
    intros _. split_and!; [done..|]. by exists message.
Qed.

Lemma spawnSingleWorker_success repoUrl task options first e w :
  succeeds e = true →
  ∃ windowId,
    openWorkerTab e = inr windowId
    ∧ world (spawnSingleWorker repoUrl task options first e w)
      = updateWorkerStatus
          (Worker.name (new_worker repoUrl task options e w)) running
          (Some windowId)
          (addWorker (new_worker repoUrl task options e w) w)
    ∧ exit (spawnSingleWorker repoUrl task options first e w) = Returned.
Proof.
  unfold succeeds, persists_record, spawnSingleWorker.
  destruct (mkdirError e), (workerDirExists e), (setupError e); try done.
  destruct (itermError e); try done.
  destruct (openWorkerTab e) as [|windowId]; try done.
  intros _. by exists windowId.
Qed.

Lemma succeeds_persists e : succeeds e = true → persists_record e = true.
Proof. unfold succeeds. by intros [[? _]%andb_true_iff _]%andb_true_iff. Qed.

(** [updateWorkerStatus] touches the status and the session handle of one
    record and nothing else. *)
Lemma updateWorkerStatus_fields nameOrId status updates w :
  Worker.port <$> State.workers (persisted (updateWorkerStatus nameOrId status updates w))
  = Worker.port <$> State.workers (persisted w)
  ∧ Worker.name <$> State.workers (persisted (updateWorkerStatus nameOrId status updates w))
  = Worker.name <$> State.workers (persisted w)
  ∧ Worker.branch <$> State.workers (persisted (updateWorkerStatus nameOrId status updates w))
  = Worker.branch <$> State.workers (persisted w).
Proof.
  unfold updateWorkerStatus. rewrite deref_getAllWorkers.
  destruct (list_find _ _) as [[i x]|] eqn:E; [|done].
  apply list_find_Some in E as (Hi & _).
  assert (∀ {B} (g : Worker.t → B) y, g y = g x →
            g <$> <[i:=y]> (State.workers (persisted w))
            = g <$> State.workers (persisted w)) as Hkeep.
  { intros B g y Hy. rewrite list_fmap_insert, Hy.
    apply list_insert_id. by rewrite list_lookup_fmap, Hi. }
  destruct w as [[] ?]; simpl in *;
    split_and!; apply Hkeep; by destruct updates.
Qed.

(** What a run that wrote its record leaves in the registry. *)
Lemma spawnSingleWorker_persisted repoUrl task options first e w :
  persists_record e = true →
  let r := spawnSingleWorker repoUrl task options first e w in
  let worker := new_worker repoUrl task options e w in
  Worker.port <$> State.workers (persisted (world r))
  = (Worker.port <$> State.workers (persisted w)) ++ [Worker.port worker]
  ∧ Worker.name <$> State.workers (persisted (world r))
  = (Worker.name <$> State.workers (persisted w)) ++ [Worker.name worker]
  ∧ Worker.branch <$> State.workers (persisted (world r))
  = (Worker.branch <$> State.workers (persisted w)) ++ [Worker.branch worker]
  ∧ State.nextPortOffset (persisted (world r))
  = State.nextPortOffset (persisted w) + 1
  ∧ State.itermWindowId (persisted (world r))
  = State.itermWindowId (persisted w).
Proof.
  intros Hp. cbv zeta.
  destruct (succeeds e) eqn:Hs.
  - destruct (spawnSingleWorker_success repoUrl task options first e w Hs)
      as (windowId & _ & -> & _).
    set (worker := new_worker repoUrl task options e w).
    destruct (updateWorkerStatus_fields (Worker.name worker) running
                (Some windowId) (addWorker worker w)) as (-> & -> & ->).
    destruct (persisted_updateWorkerStatus (Worker.name worker) running
                (Some windowId) (addWorker worker w)) as (-> & -> & _).
    rewrite persisted_addWorker. simpl. by rewrite !fmap_app.
  - destruct (spawnSingleWorker_record_then_failure
                repoUrl task options first e w Hp Hs) as (-> & _).
    rewrite persisted_addWorker. simpl. by rewrite !fmap_app.
Qed.

(** The window hint is never written by a run. *)
Lemma spawnSingleWorker_itermWindowId repoUrl task options first e w :
  State.itermWindowId
    (persisted (world (spawnSingleWorker repoUrl task options first e w)))
  = State.itermWindowId (persisted w).
Proof.
  destruct (persists_record e) eqn:Hp.
  - by destruct (spawnSingleWorker_persisted repoUrl task options first e w Hp)
      as (_ & _ & _ & _ & ->).
  - by destruct (spawnSingleWorker_no_record repoUrl task options first e w Hp)
      as (-> & _).
Qed.

End SpawnRun.

(** ** The options of [spawn] *)




(** ** A spawn that fails after its record was written *)

(** C2, as the code has it. When the set-up outside fails after the
    record was written (iTerm2 cannot be started, or the session cannot
    be created), the run reports the failure and ends the process with
    code 1; the registry is left exactly as [addWorker] wrote it: the new
    record is there with status [setting-up] and no session handle, and
    no record is marked [failed]. *)
Theorem failed_spawn_keeps_record_setting_up
    (repoUrl task : string) (options : SpawnOptions.t) (first : bool)
    (e : SpawnEnv) (w : World) :
  persists_record e = true → succeeds e = false →
  let r := spawnSingleWorker repoUrl task options first e w in
  let worker := new_worker repoUrl task options e w in
  exit r = Exited 1
  ∧ world r = addWorker worker w
  ∧ State.workers (persisted (world r)) = State.workers (persisted w) ++ [worker]
  ∧ Worker.status worker = setting_up
  ∧ Worker.terminalTab worker = None
  ∧ ∃ message,
      last (log r) = Some (SpinnerFail ("Failed to spawn worker: " +:+ message)).
Proof.
  intros Hp Hs. cbv zeta.
  destruct (spawnSingleWorker_record_then_failure
              repoUrl task options first e w Hp Hs) as (Hw & Hexit & Hlog).
  rewrite Hw, persisted_addWorker. by split_and!.
Qed.

Lemma failed_spawn_keeps_record_setting_up_witness :
  let e := sample_env (inl "iTerm2 got an error: window not found") in
  let r := spawnSingleWorker "https://github.com/user/repo.git" "add dark mode"
             (sample_options ["add dark mode"]) true e sample_registry in
  persists_record e = true ∧ succeeds e = false
  ∧ exit r = Exited 1
  ∧ Worker.status <$> State.workers (persisted (world r))
    = [running; running; running; setting_up].
Proof.
  cbv zeta.
  destruct (failed_spawn_keeps_record_setting_up
              "https://github.com/user/repo.git" "add dark mode"
              (sample_options ["add dark mode"]) true
              (sample_env (inl "iTerm2 got an error: window not found"))
              sample_registry eq_refl eq_refl)
    as (Hexit & _ & Hworkers & _).
  split; [reflexivity|]. split; [reflexivity|]. split; [exact Hexit|].
  rewrite Hworkers. vm_compute. reflexivity.
Defined.

(** C2, as stated, fails: session creation fails for the first worker of
    an empty registry, and the record stays [setting-up]. *)
Lemma failed_spawn_is_not_marked_failed :
  let r := spawn "https://github.com/user/repo.git"
             (sample_options ["add dark mode"])
             (λ _, sample_env (inl "iTerm2 got an error: window not found"))
             (boot NoFile) in
  exit r = Exited 1
  ∧ Worker.name <$> State.workers (persisted (world r)) = ["swift-fox"]
  ∧ Worker.status <$> State.workers (persisted (world r)) = [setting_up]
  ∧ failed ∉ (Worker.status <$> State.workers (persisted (world r))).
Proof.
  cbv zeta.
  assert (Worker.status <$> State.workers (persisted (world
            (spawn "https://github.com/user/repo.git"
               (sample_options ["add dark mode"])
               (λ _, sample_env (inl "iTerm2 got an error: window not found"))
               (boot NoFile)))) = [setting_up]) as Hstatus
    by (vm_compute; reflexivity).
  split_and!; [vm_compute; reflexivity..|exact Hstatus|].
  rewrite Hstatus. by intros [?|?%elem_of_nil]%elem_of_cons.
Qed.


(** ** Cleaning up one worker *)

Section CleanupOne.

Implicit Types (w : World) (e : CleanupEnv) (worker : Worker.t).

(** The terminal block, by what the two scripts do: an interrupt, then a
    pause, then the request to exit, unless the interrupt itself fails;
    nothing of it reaches the code after the block. *)
Lemma close_terminal_events pause e worker tab :
  truthy (Worker.terminalTab worker) = Some tab →
  close_terminal pause e worker
  = if sendFails e then [WriteText tab "\x03"]
    else [WriteText tab "\x03"; Delay pause; WriteText tab "exit"].
Proof. unfold close_terminal. intros ->. simpl. by destruct (sendFails e). Qed.

Lemma close_terminal_no_session pause e worker :
  truthy (Worker.terminalTab worker) = None → close_terminal pause e worker = [].
Proof. unfold close_terminal. by intros ->. Qed.

Lemma delete_directory_error e worker :
  (delete_directory e worker).2 = None ↔ deletion_fails e = false.
Proof.
  unfold delete_directory, deletion_fails.
  destruct (dirExists e), (rmSyncThrows e), (rmRfError e); simpl;
    split; done.
Qed.

End CleanupOne.

(** The block around the terminal is best effort. For a worker with a
    session handle, [cleanup] writes its first text to the session,
    pauses 500 ms, then asks the session to exit; if the first text
    cannot be sent the block is left at once. Whether these calls fail
    or not changes nothing else: the rest of the events, the resulting
    registry and the way the command ends are the same. The per-record
    step of [cleanupAll] does the same with a pause of 200 ms. *)
Lemma cleanup_closes_session_best_effort
    (nameOrId : option string) (options : CleanupOptions.t)
    (e : CleanupEnv) (envs : nat → CleanupEnv) (w : World)
    (target : string) (worker : Worker.t) (tab : string) (acc : Tally) :
  flag (CleanupOptions.all options) = false →
  truthy nameOrId = Some target →
  getWorker target w = Some worker →
  truthy (Worker.terminalTab worker) = Some tab →
  ∃ rest rest_all,
    ∀ send close,
      let e' := mkCleanupEnv send close (dirExists e) (rmSyncThrows e)
                             (rmRfError e) in
      let r := cleanup nameOrId options e' envs w in
      let step := cleanupAll_step e' worker acc in
      log r = (if send then [WriteText tab "\x03"]
               else [WriteText tab "\x03"; Delay 500; WriteText tab "exit"])
              ++ rest
      ∧ world r = world (cleanup nameOrId options e envs w)
      ∧ exit r = exit (cleanup nameOrId options e envs w)
      ∧ t_log step
        = t_log acc
          ++ (if send then [WriteText tab "\x03"]
              else [WriteText tab "\x03"; Delay 200; WriteText tab "exit"])
          ++ rest_all
      ∧ t_world step = t_world (cleanupAll_step e worker acc)
      ∧ cleaned step = cleaned (cleanupAll_step e worker acc)
      ∧ failedCount step = failedCount (cleanupAll_step e worker acc).
Proof.
  intros Hall Htarget Hworker Htab.
  unfold cleanup, cleanupAll_step. rewrite Hall, Htarget, Hworker.
  unfold delete_directory; simpl.
  destruct (dirExists e), (rmSyncThrows e), (rmRfError e) as [message|];
    simpl; eexists _, _; intros send close;
    rewrite !(close_terminal_events _ _ _ tab Htab); simpl;
    (split_and!; [|done..]); by destruct send.
Qed.

Lemma cleanup_closes_session_best_effort_witness :
  let worker := sample_worker "b5f2kQ9xLm" "calm-owl" 3110 in
  let options := CleanupOptions.mk None None in
  let r := cleanup (Some "calm-owl") options env_no_terminal (λ _, env_ok)
                   sample_registry in
  getWorker "calm-owl" sample_registry = Some worker
  ∧ truthy (Worker.terminalTab worker) = Some "7"
  ∧ take 1 (log r) = [WriteText "7" "\x03"]
  ∧ take 3 (log (cleanup (Some "calm-owl") options env_ok (λ _, env_ok)
                         sample_registry))
    = [WriteText "7" "\x03"; Delay 500; WriteText "7" "exit"]
  ∧ world r = world (cleanup (Some "calm-owl") options env_ok (λ _, env_ok)
                             sample_registry)
  ∧ Worker.name <$> State.workers (persisted (world r)) = ["swift-fox"; "keen-lynx"].
Proof.
  cbv zeta.
  destruct (cleanup_closes_session_best_effort
              (Some "calm-owl") (CleanupOptions.mk None None) env_ok
              (λ _, env_ok) sample_registry "calm-owl"
              (sample_worker "b5f2kQ9xLm" "calm-owl" 3110) "7"
              (mkTally sample_registry [] 0 0)
              eq_refl eq_refl eq_refl eq_refl) as (rest & rest_all & H).
  destruct (H true true) as (Hlog1 & Hworld & _).
  destruct (H false false) as (Hlog2 & _).
  cbv zeta in Hlog1, Hlog2, Hworld.
  split; [reflexivity|]. split; [reflexivity|].
  split; [exact (f_equal (take 1) Hlog1)|].
  split; [exact (f_equal (take 3) Hlog2)|].
  split; [exact Hworld|].
  vm_compute. reflexivity.
Defined.

(** C4. The text [cleanup] writes first to the session of a worker is
    not an interrupt. The code passes the literal ["\\x03"], the four
    characters backslash, [x], [0], [3]; [sendToItermSession] puts them
    unchanged between the quotes of its [write text], so the session is
    sent four printable characters and no control character (no byte 3,
    the Ctrl+C its comment announces). The same text is written by the
    per-record step of [cleanupAll]. When that write fails, neither the
    pause nor the request to exit follows. *)
Theorem cleanup_interrupt_is_literal_text
    (nameOrId : option string) (options : CleanupOptions.t)
    (e : CleanupEnv) (envs : nat → CleanupEnv) (w : World)
    (target : string) (worker : Worker.t) (tab : string) (acc : Tally) :
  flag (CleanupOptions.all options) = false →
  truthy nameOrId = Some target →
  getWorker target w = Some worker →
  truthy (Worker.terminalTab worker) = Some tab →
  ∃ text rest rest_all,
    log (cleanup nameOrId options e envs w) = WriteText tab text :: rest
    ∧ t_log (cleanupAll_step e worker acc)
      = t_log acc ++ WriteText tab text :: rest_all
    ∧ text = String backslash "x03"
    ∧ String.length text = 4%nat
    ∧ count_char (ascii_of_nat 3) text = 0%nat
    ∧ sendToItermSession_literal text = text
    ∧ unescape (sendToItermSession_literal text) = None
    ∧ (sendFails e = true →
       (∀ ms, Delay ms ∉ rest) ∧ WriteText tab "exit" ∉ rest).
Proof.
  intros Hall Htarget Hworker Htab.
  unfold cleanup, cleanupAll_step. rewrite Hall, Htarget, Hworker.
  rewrite !(close_terminal_events _ _ _ tab Htab).
  unfold delete_directory.
  destruct (sendFails e), (dirExists e), (rmSyncThrows e),
    (rmRfError e) as [message|];
    cbn [app log t_log]; eexists _, _, _;
    (split; [reflexivity|]); (split; [reflexivity|]);
    (split_and!; [done..|]); intros Hsend; try done;
    (split; [intros ms|]); intros Hin;
    repeat (apply elem_of_cons in Hin as [Hin|Hin]; [discriminate Hin|]);
    by apply elem_of_nil in Hin.
Qed.

Lemma cleanup_interrupt_is_literal_text_witness :
  let worker := sample_worker "b5f2kQ9xLm" "calm-owl" 3110 in
  let options := CleanupOptions.mk None None in
  let r := cleanup (Some "calm-owl") options env_ok (λ _, env_ok)
                   sample_registry in
  getWorker "calm-owl" sample_registry = Some worker
  ∧ truthy (Worker.terminalTab worker) = Some "7"
  ∧ take 3 (log r)
    = [ WriteText "7" (String backslash (String "x" (String "0" (String "3"
                         EmptyString))));
        Delay 500; WriteText "7" "exit" ]
  ∧ ∃ text rest,
      log r = WriteText "7" text :: rest
      ∧ String.length text = 4%nat
      ∧ count_char (ascii_of_nat 3) text = 0%nat.
Proof.
  cbv zeta.
  destruct (cleanup_interrupt_is_literal_text (Some "calm-owl")
              (CleanupOptions.mk None None) env_ok (λ _, env_ok)
              sample_registry "calm-owl"
              (sample_worker "b5f2kQ9xLm" "calm-owl" 3110) "7"
              (mkTally sample_registry [] 0 0)
              eq_refl eq_refl eq_refl eq_refl)
    as (text & rest & _ & Hlog & _ & _ & Hlen & Hetx & _).
  split; [reflexivity|]. split; [reflexivity|]. split; [reflexivity|].
  exists text, rest. split; [exact Hlog|]. split; [exact Hlen|exact Hetx].
Defined.

(** ** Cleaning up every worker *)

Section CleanupAll.

Implicit Types (w : World) (e : CleanupEnv) (x worker : Worker.t)
  (items kept : list Worker.t) (acc : Tally) (envs : nat → CleanupEnv).

(** One record of the loop: counted as failed and left alone when its
    directory cannot be deleted, removed by id and counted as cleaned
    otherwise. The terminal plays no part. *)
Lemma cleanupAll_step_spec e x acc :
  let acc' := cleanupAll_step e x acc in
  if deletion_fails e then
    t_world acc' = t_world acc
    ∧ cleaned acc' = cleaned acc ∧ failedCount acc' = S (failedCount acc)
  else
    t_world acc' = (removeWorker (Worker.id x) (t_world acc)).2
    ∧ cleaned acc' = S (cleaned acc) ∧ failedCount acc' = failedCount acc.
Proof.
  cbv zeta. unfold cleanupAll_step.
  pose proof (delete_directory_error e x) as Herr.
  destruct (delete_directory e x) as [deletion [message|]]; simpl in *.
  - destruct (deletion_fails e); [done|].
    destruct Herr as [_ Herr]. by specialize (Herr eq_refl).
  - destruct (deletion_fails e); [|done].
    destruct Herr as [Herr _]. by specialize (Herr eq_refl).
Qed.

(** The loop never makes the array longer, so the fuel it is given (the
    length at the start) is never what stops it: more fuel changes
    nothing. *)
Lemma length_delete_le (l : list Worker.t) (index : nat) :
  (length (delete index l) ≤ length l)%nat.
Proof.
  revert index. induction l as [|y l IH]; intros [|index]; simpl; try lia.
  specialize (IH index). lia.
Qed.

Lemma removeWorker_deref_length nameOrId w workers :
  (length (deref (removeWorker nameOrId w).2 workers) ≤ length (deref w workers))%nat.
Proof.
  unfold removeWorker.
  destruct (list_find _ _) as [[index removed]|]; [|done].
  destruct workers as [l|]; [by destruct w as [[] ?]|].
  destruct w as [[] l]; simpl; try done; apply length_delete_le.
Qed.

Lemma cleanupAll_step_deref_length e x acc workers :
  (length (deref (t_world (cleanupAll_step e x acc)) workers)
   ≤ length (deref (t_world acc) workers))%nat.
Proof.
  pose proof (cleanupAll_step_spec e x acc) as H. cbv zeta in H.
  destruct (deletion_fails e); destruct H as (-> & _); [done|].
  apply removeWorker_deref_length.
Qed.

Lemma cleanupAll_loop_fuel fuel extra i workers envs acc :
  (length (deref (t_world acc) workers) ≤ i + fuel)%nat →
  cleanupAll_loop (fuel + extra) i workers envs acc
  = cleanupAll_loop fuel i workers envs acc.
Proof.
  revert i acc. induction fuel as [|fuel IH]; intros i acc Hlen; simpl.
  - destruct extra; [done|]. simpl.
    by rewrite lookup_ge_None_2 by lia.
  - destruct (deref (t_world acc) workers !! i) as [worker|]; [|done].
    apply IH.
    pose proof (cleanupAll_step_deref_length (envs i) worker acc workers). lia.
Qed.

(** Over an array of its own the loop visits every record once. *)
Lemma cleanupAll_loop_Own fuel i l envs acc :
  (length l ≤ i + fuel)%nat →
  cleanupAll_loop fuel i (Own l) envs acc = for_of i (drop i l) envs acc.
Proof.
  revert i acc. induction fuel as [|fuel IH]; intros i acc Hlen; simpl.
  - by rewrite drop_ge by lia.
  - destruct (l !! i) as [worker|] eqn:Hi.
    + rewrite (drop_S l worker i Hi). simpl. apply IH. lia.
    + by rewrite drop_ge by (by apply lookup_ge_None).
Qed.

Lemma for_of_counts i items envs acc :
  (cleaned (for_of i items envs acc) + length (kept_records envs i items)
   = cleaned acc + length items)%nat
  ∧ (failedCount (for_of i items envs acc)
     = failedCount acc + length (kept_records envs i items))%nat.
Proof.
  revert i acc. induction items as [|x items IH]; intros i acc; simpl; [lia|].
  destruct (IH (S i) (cleanupAll_step (envs i) x acc)) as [Hc Hf].
  pose proof (cleanupAll_step_spec (envs i) x acc) as H. cbv zeta in H.
  destruct (deletion_fails (envs i)); destruct H as (_ & Hc' & Hf');
    simpl; lia.
Qed.

Lemma for_of_offset_hint i items envs acc :
  State.nextPortOffset (persisted (t_world (for_of i items envs acc)))
  = State.nextPortOffset (persisted (t_world acc))
  ∧ State.itermWindowId (persisted (t_world (for_of i items envs acc)))
  = State.itermWindowId (persisted (t_world acc)).
Proof.
  revert i acc. induction items as [|x items IH]; intros i acc;
    cbn [for_of]; [done|].
  destruct (IH (S i) (cleanupAll_step (envs i) x acc)) as [-> ->].
  pose proof (cleanupAll_step_spec (envs i) x acc) as H. cbv zeta in H.
  destruct (deletion_fails (envs i)); destruct H as (-> & _); [done|].
  by rewrite removeWorker_nextPortOffset, removeWorker_itermWindowId.
Qed.

(** Deleting at or before a position keeps what lies after it. *)
Lemma delete_before_middle j kept x items :
  (j ≤ length kept)%nat →
  ∃ kept', delete j (kept ++ x :: items) = kept' ++ items
           ∧ length kept' = length kept.
Proof.
  revert j. induction kept as [|y kept IH]; intros [|j] Hj; simpl in *.
  - by exists [].
  - lia.
  - exists (kept ++ [x]). rewrite <-app_assoc, length_app. simpl. split; [done|lia].
  - destruct (IH j) as (kept' & -> & Hlen); [lia|].
    exists (y :: kept'). simpl. by rewrite Hlen.
Qed.

(** However the identifiers collide, every record whose directory was
    deleted takes one record out of the registry. *)
Lemma for_of_length i items envs acc kept :
  State.workers (persisted (t_world acc)) = kept ++ items →
  length (State.workers (persisted (t_world (for_of i items envs acc))))
  = (length kept + length (kept_records envs i items))%nat.
Proof.
  revert i acc kept. induction items as [|x items IH]; intros i acc kept Hw;
    cbn [for_of kept_records].
  { rewrite Hw, length_app. simpl. lia. }
  pose proof (cleanupAll_step_spec (envs i) x acc) as H. cbv zeta in H.
  destruct (deletion_fails (envs i)); destruct H as (Hworld & _).
  - rewrite (IH _ _ (kept ++ [x])).
    + rewrite length_app. simpl. lia.
    + by rewrite Hworld, Hw, <-app_assoc.
  - assert (Worker.matches (Worker.id x) x) as Hx by (by right).
    destruct (list_find_elem_of (Worker.matches (Worker.id x))
                (kept ++ x :: items) x) as [[j y] Hfind]; [set_solver|done|].
    assert (j ≤ length kept)%nat as Hj.
    { apply list_find_Some in Hfind as (_ & _ & Hmin).
      destruct (decide (j ≤ length kept)%nat); [done|].
      destruct (Hmin (length kept) x); [by apply list_lookup_middle|lia|done]. }
    rewrite <-Hw in Hfind.
    destruct (removeWorker_Some _ _ _ _ Hfind) as (_ & Hp & _).
    destruct (delete_before_middle j kept x items Hj) as (kept' & Hdel & Hlen).
    rewrite (IH _ _ kept'); [lia|].
    by rewrite Hworld, Hp, Hw.
Qed.

(** With unique keys the records that remain are exactly those whose
    directory could not be deleted. *)
Lemma for_of_workers i items envs acc kept :
  unique_keys (kept ++ items) →
  State.workers (persisted (t_world acc)) = kept ++ items →
  State.workers (persisted (t_world (for_of i items envs acc)))
  = kept ++ kept_records envs i items.
Proof.
  revert i acc kept. induction items as [|x items IH];
    intros i acc kept Hkeys Hw; cbn [for_of kept_records]; [done|].
  pose proof (cleanupAll_step_spec (envs i) x acc) as H. cbv zeta in H.
  destruct (deletion_fails (envs i)); destruct H as (Hworld & _).
  - rewrite (IH _ _ (kept ++ [x])).
    + by rewrite <-app_assoc.
    + by rewrite <-app_assoc.
    + by rewrite Hworld, Hw, <-app_assoc.
  - assert (list_find (Worker.matches (Worker.id x))
              (State.workers (persisted (t_world acc)))
            = Some (length kept, x)) as Hfind.
    { rewrite Hw. apply unique_keys_list_find;
        [done|by apply list_lookup_middle|by right]. }
    destruct (removeWorker_Some _ _ _ _ Hfind) as (_ & Hp & _).
    apply IH; [by eapply unique_keys_middle|].
    by rewrite Hworld, Hp, Hw, delete_middle.
Qed.

End CleanupAll.

(** C5. Without [force], [cleanupAll] changes neither the store nor the
    heap and prints one line per existing record, in order, between a
    header and a footer (or the single line "No workers to clean up.").
    With [force] every record is processed on its own: a record whose
    directory cannot be deleted is counted as failed and stays, every
    other record is removed and counted as cleaned, so the registry ends
    with as many records as there were failures (with exactly the failed
    ones when names and ids are unique keys) and the summary carries
    both counts. The window hint is cleared at the end, whatever failed.
    On a registry without records there is nothing to process and
    nothing is written; the hint is then undefined afterwards as it was
    before, which it is in every registry the program has written
    (lemma [cleanupAll_hint_None_in_history]). *)
Theorem cleanupAll_dry_run_and_force
    (f : StoreFile) (force : option bool) (envs : nat → CleanupEnv) :
  let w := boot f in
  let ws := State.workers (persisted w) in
  let r := cleanupAll force envs w in
  let kept := kept_records envs 0 ws in
  exit r = Returned
  ∧ (flag force = false →
     world r = w
     ∧ ∃ header footer,
         log r = if decide (ws = []) then [ConsoleLog "No workers to clean up."]
                 else ConsoleLog header
                      :: (ConsoleLog ∘ listing_line <$> ws) ++ [ConsoleLog footer])
  ∧ (flag force = true →
     length (State.workers (persisted (world r))) = length kept
     ∧ (unique_keys ws → State.workers (persisted (world r)) = kept)
     ∧ State.nextPortOffset (persisted (world r))
       = State.nextPortOffset (persisted w)
     ∧ (ws ≠ [] →
        State.itermWindowId (persisted (world r)) = None
        ∧ last (log r) = Some (summary (length ws - length kept) (length kept)))
     ∧ (ws = [] → world r = w)
     ∧ ((ws = [] → State.itermWindowId (persisted w) = None) →
        State.itermWindowId (persisted (world r)) = None)).
Proof.
  cbv zeta. unfold cleanupAll.
  destruct f as [| | |s];
    [ (* nothing stored: no record *)
      simpl; (split_and!; [done| |]); intros _;
      [split; [done|by exists "", ""] | by split_and!] .. |].
  assert (persisted (boot (Stored s)) = s) as Hp by apply persisted_Stored.
  assert (getAllWorkers (boot (Stored s)) = Own (State.workers s)) as Hg by done.
  rewrite Hg, Hp. cbn [deref].
  destruct (State.workers s) as [|x ws] eqn:Hws.
  { (* a stored state without records *)
    simpl. rewrite ?Hws. split_and!; [done| |].
    - intros _. split; [done|]. by exists "", "".
    - intros _. split_and!; try done. intros H. by apply H. }
  rewrite bool_decide_eq_false_2 by done.
  destruct (flag force) eqn:Hforce; cbn [negb].
  { (* forced *)
    split_and!; [done|done|]. intros _. cbn [world log].
    rewrite cleanupAll_loop_Own by (simpl; lia). rewrite drop_0.
    set (acc0 := mkTally (boot (Stored s)) [] 0 0).
    assert (State.workers (persisted (t_world acc0)) = [] ++ x :: ws) as Hw0
      by (by rewrite <-Hws, <-Hp).
    pose proof (for_of_counts 0 (x :: ws) envs acc0) as [Hc Hf].
    pose proof (for_of_offset_hint 0 (x :: ws) envs acc0) as [Ho Hh].
    pose proof (for_of_length 0 (x :: ws) envs acc0 [] Hw0) as Hlen.
    rewrite !persisted_clearItermWindowId. cbn [State.workers State.nextPortOffset
      State.itermWindowId].
    split_and!.
    - by rewrite Hlen.
    - intros Hkeys. by rewrite (for_of_workers 0 (x :: ws) envs acc0 [] Hkeys Hw0).
    - rewrite Ho. by destruct s.
    - intros _. split; [done|]. rewrite last_snoc. f_equal. unfold summary.
      change (cleaned acc0) with 0%nat in Hc.
      change (failedCount acc0) with 0%nat in Hf. rewrite Hf, Nat.add_0_l.
      replace (cleaned (for_of 0 (x :: ws) envs acc0))
        with (length (x :: ws) - length (kept_records envs 0 (x :: ws)))%nat
        by lia.
      done.
    - done.
    - done. }
  (* dry run *)
  split_and!; [done| |done]. intros _. split; [done|]. cbn [log].
  eexists _, _. rewrite decide_False by done. reflexivity.
Qed.

Lemma cleanupAll_dry_run_and_force_witness :
  let f := Stored (State.mk [ sample_worker "V1StGXR8_Z" "swift-fox" 3100;
                              sample_worker "b5f2kQ9xLm" "calm-owl" 3110;
                              sample_worker "Zt0pWq83nA" "keen-lynx" 3120 ]
                            3 (Some "4211")) in
  let envs := λ i : nat, if decide (i = 1%nat) then env_stuck else env_ok in
  let dry := cleanupAll None envs (boot f) in
  let forced := cleanupAll (Some true) envs (boot f) in
  unique_keys (State.workers (persisted (boot f)))
  ∧ world dry = boot f
  ∧ (∃ header footer,
       log dry = [ ConsoleLog header;
                   ConsoleLog "  - swift-fox (feat/task-swift-fox-20260104)";
                   ConsoleLog "  - calm-owl (feat/task-calm-owl-20260104)";
                   ConsoleLog "  - keen-lynx (feat/task-keen-lynx-20260104)";
                   ConsoleLog footer ])
  ∧ Worker.name <$> State.workers (persisted (world forced)) = ["calm-owl"]
  ∧ State.itermWindowId (persisted (world forced)) = None
  ∧ last (log forced) = Some (SpinnerWarn "Cleaned up 2 workers, 1 failed").
Proof.
  cbv zeta.
  set (f := Stored (State.mk [ sample_worker "V1StGXR8_Z" "swift-fox" 3100;
                               sample_worker "b5f2kQ9xLm" "calm-owl" 3110;
                               sample_worker "Zt0pWq83nA" "keen-lynx" 3120 ]
                             3 (Some "4211"))).
  set (envs := λ i : nat, if decide (i = 1%nat) then env_stuck else env_ok).
  destruct (cleanupAll_dry_run_and_force f None envs) as (_ & Hdry & _).
  destruct (cleanupAll_dry_run_and_force f (Some true) envs) as (_ & _ & Hforced).
  destruct (Hdry eq_refl) as (Hworld & header & footer & Hlog).
  destruct (Hforced eq_refl) as (_ & Hkept & _ & Hhint & _).
  assert (unique_keys (State.workers (persisted (boot f)))) as Hkeys
    by (vm_compute; repeat constructor; by intros [=]).
  split; [exact Hkeys|]. split; [exact Hworld|].
  split; [by exists header, footer|].
  destruct Hhint as [Hhint Hlast]; [done|].
  split; [by rewrite (Hkept Hkeys)|]. split; [exact Hhint|exact Hlast].
Defined.

(** The guard [workers.length === 0] comes before [clearItermWindowId]:
    a state file with a window hint and no records, which no command of
    the program writes, keeps its hint. *)
Lemma cleanupAll_force_keeps_hint_of_empty_registry :
  let f := Stored (State.mk [] 3 (Some "4211")) in
  let r := cleanupAll (Some true) (λ _, env_ok) (boot f) in
  exit r = Returned
  ∧ log r = [ConsoleLog "No workers to clean up."]
  ∧ world r = boot f
  ∧ State.itermWindowId (persisted (world r)) = Some "4211".
Proof. cbv zeta. by split_and!. Qed.

(** ** Commands as histories *)

(** A run returns exactly when it succeeds; otherwise it ends the
    process with code 1. *)
Lemma spawnSingleWorker_exit repoUrl task options first e w :
  exit (spawnSingleWorker repoUrl task options first e w)
  = if succeeds e then Returned else Exited 1.
Proof.
  destruct (succeeds e) eqn:Hs.
  - by destruct (spawnSingleWorker_success repoUrl task options first e w Hs)
      as (_ & _ & _ & ->).
  - destruct (persists_record e) eqn:Hp.
    + by destruct (spawnSingleWorker_record_then_failure
                     repoUrl task options first e w Hp Hs) as (_ & -> & _).
    + by destruct (spawnSingleWorker_no_record repoUrl task options first e w Hp)
        as (_ & ->).
Qed.

(** A [spawn] command is the history of its runs. *)
Lemma spawn_loop_steps repoUrl options tasks i envs w events :
  next_world (spawn_loop repoUrl options tasks i envs w events)
  = run (steps_of_spawn repoUrl options tasks i envs) w.
Proof.
  revert i w events. induction tasks as [|task tasks IH]; intros i w events;
    cbn [spawn_loop steps_of_spawn run]; [done|].
  cbn [step_result]. unfold next_world at 2.
  rewrite spawnSingleWorker_exit.
  destruct (succeeds (envs i)); [apply IH|done].
Qed.

Lemma spawn_steps repoUrl options envs w :
  next_world (spawn repoUrl options envs w)
  = run (steps_of_spawn repoUrl options (SpawnOptions.task options) 0 envs) w.
Proof.
  rewrite <-(spawn_loop_steps _ _ _ _ _ _ []). unfold spawn.
  destruct (exit (spawn_loop _ _ _ _ _ _ _)) eqn:Hexit; [|done].
  destruct (bool_decide _); [|done].
  unfold next_world. cbn [exit world]. by rewrite Hexit.
Qed.

(** ** The port counter over the history of a registry *)

Section History.

Implicit Types (w : World) (steps : list Step) (sel : SpawnEnv → bool).

Lemma cleanupAll_loop_offset fuel i workers envs acc :
  State.nextPortOffset (persisted (t_world (cleanupAll_loop fuel i workers envs acc)))
  = State.nextPortOffset (persisted (t_world acc)).
Proof.
  revert i acc. induction fuel as [|fuel IH]; intros i acc;
    cbn [cleanupAll_loop]; [done|].
  destruct (deref (t_world acc) workers !! i) as [worker|]; [|done].
  rewrite IH.
  pose proof (cleanupAll_step_spec (envs i) worker acc) as H. cbv zeta in H.
  destruct (deletion_fails (envs i)); destruct H as (-> & _); [done|].
  apply removeWorker_nextPortOffset.
Qed.

(** No clean-up ever touches the counter. *)
Lemma cleanup_nextPortOffset nameOrId options e envs w :
  State.nextPortOffset (persisted (world (cleanup nameOrId options e envs w)))
  = State.nextPortOffset (persisted w).
Proof.
  unfold cleanup. destruct (flag (CleanupOptions.all options)).
  - unfold cleanupAll. destruct (bool_decide _); [done|].
    destruct (negb _); [done|]. cbn [world].
    rewrite persisted_clearItermWindowId. cbn [State.nextPortOffset].
    by rewrite cleanupAll_loop_offset.
  - destruct (truthy nameOrId) as [target|]; [|done].
    destruct (getWorker target w) as [worker|]; [|done].
    destruct (delete_directory e worker) as [deletion [message|]]; [done|].
    cbn [world]. destruct (bool_decide _);
      rewrite ?persisted_clearItermWindowId; apply removeWorker_nextPortOffset.
Qed.

(** One step moves the counter by one exactly when it is a spawn that
    wrote its record. *)
Lemma step_nextPortOffset s w :
  State.nextPortOffset (persisted (next_world (step_result s w)))
  = State.nextPortOffset (persisted w)
    + (if selected persists_record s then 1 else 0).
Proof.
  assert (State.nextPortOffset (persisted (world (step_result s w)))
          = State.nextPortOffset (persisted w)
            + (if selected persists_record s then 1 else 0)) as Hstep.
  { destruct s as [repoUrl task options first e|nameOrId options e envs|];
      cbn [step_result selected world].
    - destruct (persists_record e) eqn:Hp.
      + by destruct (spawnSingleWorker_persisted repoUrl task options first e w Hp)
          as (_ & _ & _ & -> & _).
      + destruct (spawnSingleWorker_no_record repoUrl task options first e w Hp)
          as (-> & _). lia.
    - rewrite cleanup_nextPortOffset. lia.
    - rewrite nextPortOffset_boot. lia. }
  unfold next_world. destruct (exit _); [done|].
  by rewrite nextPortOffset_boot.
Qed.

Lemma run_nextPortOffset steps w :
  State.nextPortOffset (persisted (run steps w))
  = State.nextPortOffset (persisted w)
    + Z.of_nat (count_spawns persists_record steps).
Proof.
  revert w. induction steps as [|s steps IH]; intros w;
    cbn [run count_spawns]; [lia|].
  rewrite IH, step_nextPortOffset. destruct (selected persists_record s); lia.
Qed.

Lemma port_range_S from n :
  port_range from (S n)
  = (CONFIG.basePort + from * CONFIG.portIncrement) :: port_range (from + 1) n.
Proof.
  unfold port_range. simpl. f_equal; [f_equal; lia|].
  rewrite <-fmap_S_seq, <-list_fmap_compose. apply list_fmap_ext.
  intros _ i _. simpl. f_equal. lia.
Qed.

Lemma port_range_NoDup from n : NoDup (port_range from n).
Proof.
  unfold port_range. apply NoDup_fmap_2; [|apply NoDup_seq].
  intros i j. unfold CONFIG.basePort, CONFIG.portIncrement. lia.
Qed.

(** The records written over a history carry the ports of an unbroken
    range, whatever was cleaned up in between. *)
Lemma assigned_ports_written steps w :
  assigned_ports persists_record steps w
  = port_range (State.nextPortOffset (persisted w))
               (count_spawns persists_record steps).
Proof.
  revert w. induction steps as [|s steps IH]; intros w;
    cbn [assigned_ports count_spawns]; [done|].
  rewrite IH, step_nextPortOffset.
  destruct s as [repoUrl task options first e| |]; cbn [selected];
    rewrite ?Z.add_0_r; try done.
  destruct (persists_record e); rewrite ?Z.add_0_r; [|done].
  by rewrite port_range_S.
Qed.

(** When no spawn failed after writing its record, the successful spawns
    are the ones that wrote a record. *)
Lemma no_failure_after_record_same steps :
  no_failure_after_record steps →
  count_spawns succeeds steps = count_spawns persists_record steps
  ∧ ∀ w, assigned_ports succeeds steps w = assigned_ports persists_record steps w.
Proof.
  induction 1 as [|s steps Hs _ [IHc IHp]]; [done|]. simpl. split.
  - by rewrite Hs, IHc.
  - intros w. rewrite IHp. f_equal.
    destruct s; simpl in *; try done. by rewrite Hs.
Qed.

Lemma count_spawns_succeeds_le steps :
  (count_spawns succeeds steps ≤ count_spawns persists_record steps)%nat.
Proof.
  induction steps as [|s steps IH]; simpl; [done|].
  destruct s as [? ? ? ? e| |]; simpl; try lia.
  destruct (succeeds e) eqn:Hs; [rewrite (succeeds_persists e Hs); lia|].
  destruct (persists_record e); lia.
Qed.

End History.

(** C3, as the code has it. Over any history of spawns, clean-ups and
    restarts, [nextPortOffset] grows by exactly one for every spawn that
    wrote its record and by nothing else: clean-ups never lower it, and a
    spawn that failed before writing a record leaves it alone. The
    records written carry, in order, the ports
    [basePort + k * portIncrement] for consecutive [k] starting at the
    counter the history began with (0 for a new registry), without
    duplicates. A spawn that fails after its record was written (while
    the terminal is set up) has taken its port and is counted; so the
    counter equals the number of successful spawns, and the successful
    spawns hold an unbroken range of ports, exactly when no spawn failed
    that late. *)
Theorem nextPortOffset_counts_written_records (steps : list Step) (w : World) :
  let start := State.nextPortOffset (persisted w) in
  let final := State.nextPortOffset (persisted (run steps w)) in
  final = start + Z.of_nat (count_spawns persists_record steps)
  ∧ assigned_ports persists_record steps w
    = port_range start (count_spawns persists_record steps)
  ∧ NoDup (assigned_ports persists_record steps w)
  ∧ (count_spawns succeeds steps ≤ count_spawns persists_record steps)%nat
  ∧ (no_failure_after_record steps →
     final = start + Z.of_nat (count_spawns succeeds steps)
     ∧ assigned_ports succeeds steps w
       = port_range start (count_spawns succeeds steps)
     ∧ NoDup (assigned_ports succeeds steps w)).
Proof.
  cbv zeta. split_and!.
  - apply run_nextPortOffset.
  - apply assigned_ports_written.
  - rewrite assigned_ports_written. apply port_range_NoDup.
  - apply count_spawns_succeeds_le.
  - intros [Hc Hp]%no_failure_after_record_same.
    rewrite Hc, Hp, run_nextPortOffset, assigned_ports_written.
    split_and!; [done..|]. apply port_range_NoDup.
Qed.

Lemma nextPortOffset_counts_written_records_witness :
  let url := "https://github.com/user/repo.git" in
  let ok := λ task, SpawnStep url task (sample_options [task]) true
                              (sample_env (inr "4211")) in
  let no_clone := SpawnStep url "b" (sample_options ["b"]) true
    (mkSpawnEnv "/home/u" (λ i, (i, i)) 1767522030000 "V1StGXR8_Z"
       "2026-01-04T10:20:30.000Z" "2026-01-04T10:20:31.000Z"
       None false (Some "fatal: repository not found") false None (inr "4211")) in
  let steps := [ ok "a"; no_clone;
                 CleanupStep (Some "swift-fox") (CleanupOptions.mk None None)
                             env_ok (λ _, env_ok);
                 ok "c"; ok "d" ] in
  no_failure_after_record steps
  ∧ State.nextPortOffset (persisted (run steps (boot NoFile))) = 3
  ∧ assigned_ports succeeds steps (boot NoFile) = [3100; 3110; 3120].
Proof.
  cbv zeta.
  match goal with |- no_failure_after_record ?s ∧ _ => set (steps := s) end.
  assert (no_failure_after_record steps) as Hno
    by (repeat constructor).
  destruct (nextPortOffset_counts_written_records steps (boot NoFile))
    as (_ & _ & _ & _ & Hsucc).
  destruct (Hsucc Hno) as (Hfinal & Hports & _).
  split; [exact Hno|]. split; [rewrite Hfinal|rewrite Hports]; reflexivity.
Defined.

(** C3, as stated, fails: a spawn whose session cannot be created is not
    a successful spawn, yet its record and its port are taken. After one
    successful spawn, one such failure and another successful spawn the
    counter is 3 with 2 successful spawns, and their ports are not
    [basePort] and [basePort + portIncrement]. *)
Lemma nextPortOffset_exceeds_successful_spawns :
  let url := "https://github.com/user/repo.git" in
  let ok := λ task, SpawnStep url task (sample_options [task]) true
                              (sample_env (inr "4211")) in
  let no_session := SpawnStep url "b" (sample_options ["b"]) true
                              (sample_env (inl "iTerm2 got an error")) in
  let steps := [ok "a"; no_session; ok "c"] in
  count_spawns succeeds steps = 2%nat
  ∧ State.nextPortOffset (persisted (run steps (boot NoFile))) = 3
  ∧ assigned_ports succeeds steps (boot NoFile) = [3100; 3120]
  ∧ Worker.status <$> State.workers (persisted (run steps (boot NoFile)))
    = [running; setting_up; running].
Proof. cbv zeta. split_and!; vm_compute; reflexivity. Qed.

(** ** The window hint over the history of a registry *)

Section WindowHint.

Implicit Types (w : World) (steps : list Step).

Lemma cleanupAll_loop_hint fuel i workers envs acc :
  State.itermWindowId (persisted (t_world (cleanupAll_loop fuel i workers envs acc)))
  = State.itermWindowId (persisted (t_world acc)).
Proof.
  revert i acc. induction fuel as [|fuel IH]; intros i acc;
    cbn [cleanupAll_loop]; [done|].
  destruct (deref (t_world acc) workers !! i) as [worker|]; [|done].
  rewrite IH.
  pose proof (cleanupAll_step_spec (envs i) worker acc) as H. cbv zeta in H.
  destruct (deletion_fails (envs i)); destruct H as (-> & _); [done|].
  apply removeWorker_itermWindowId.
Qed.

(** A clean-up leaves the hint as it was or clears it. *)
Lemma cleanup_itermWindowId nameOrId options e envs w :
  let w' := world (cleanup nameOrId options e envs w) in
  State.itermWindowId (persisted w') = State.itermWindowId (persisted w)
  ∨ State.itermWindowId (persisted w') = None.
Proof.
  cbv zeta. unfold cleanup. destruct (flag (CleanupOptions.all options)).
  - unfold cleanupAll. destruct (bool_decide _); [by left|].
    destruct (negb _); [by left|]. right. cbn [world].
    by rewrite persisted_clearItermWindowId.
  - destruct (truthy nameOrId) as [target|]; [|by left].
    destruct (getWorker target w) as [worker|]; [|by left].
    destruct (delete_directory e worker) as [deletion [message|]]; [by left|].
    cbn [world]. destruct (bool_decide _).
    + right. by rewrite persisted_clearItermWindowId.
    + left. apply removeWorker_itermWindowId.
Qed.

(** The half of the invariant that [cleanup] maintains: when the clean-up
    of a worker leaves no record, it leaves no hint. *)
Lemma cleanup_last_worker_clears_hint target options e envs w :
  flag (CleanupOptions.all options) = false →
  let r := cleanup (Some target) options e envs w in
  exit r = Returned →
  State.workers (persisted (world r)) = [] →
  State.itermWindowId (persisted (world r)) = None.
Proof.
  intros Hall. cbv zeta. unfold cleanup. rewrite Hall.
  destruct (truthy (Some target)) as [target'|]; [|done].
  destruct (getWorker target' w) as [worker|]; [|done].
  destruct (delete_directory e worker) as [deletion [message|]]; [done|].
  cbn [world exit]. intros _. rewrite deref_getAllWorkers.
  destruct (bool_decide _) eqn:Hempty.
  - by rewrite persisted_clearItermWindowId.
  - intros Hnone. rewrite Hnone in Hempty. done.
Qed.

(** Nothing in a history ever sets the hint: [setItermWindowId] is never
    called, so a registry that starts without a hint never has one. *)
Lemma run_itermWindowId_None steps w :
  State.itermWindowId (persisted w) = None →
  State.itermWindowId (persisted (run steps w)) = None.
Proof.
  revert w. induction steps as [|s steps IH]; intros w Hw; cbn [run]; [done|].
  apply IH. unfold next_world.
  assert (State.itermWindowId (persisted (world (step_result s w))) = None) as H.
  { destruct s as [repoUrl task options first e|nameOrId options e envs|];
      cbn [step_result world].
    - by rewrite spawnSingleWorker_itermWindowId.
    - destruct (cleanup_itermWindowId nameOrId options e envs w) as [->| ->]; done.
    - by rewrite itermWindowId_boot. }
  destruct (exit _); [done|]. by rewrite itermWindowId_boot.
Qed.

(** Starting from a new registry, the hint is undefined after every
    [cleanupAll], forced or not, whatever the registry holds and
    whatever fails. *)
Lemma cleanupAll_hint_None_in_history steps force envs :
  State.itermWindowId
    (persisted (world (cleanupAll force envs (run steps (boot NoFile))))) = None.
Proof.
  pose proof (run_itermWindowId_None steps (boot NoFile) eq_refl) as Hstart.
  destruct (cleanup_itermWindowId None (CleanupOptions.mk (Some true) force)
              env_ok envs (run steps (boot NoFile))) as [H|H];
    cbv zeta in H;
    change (cleanup None (CleanupOptions.mk (Some true) force) env_ok envs
                    (run steps (boot NoFile)))
      with (cleanupAll force envs (run steps (boot NoFile))) in H;
    by rewrite H.
Qed.

End WindowHint.

(** C1, at an input where it fails. The first worker ever is spawned
    into an empty registry and everything succeeds; the record is
    [running], the id returned by the script is stored as the record's
    [terminalTab], and the window hint of the persisted state is still
    undefined although [workers] is not empty. *)
Example first_spawn_leaves_window_hint_unset :
  let r := spawn "https://github.com/user/repo.git"
             (sample_options ["add dark mode"])
             (λ _, sample_env (inr "4211")) (boot NoFile) in
  exit r = Returned
  ∧ Worker.name <$> State.workers (persisted (world r)) = ["swift-fox"]
  ∧ Worker.status <$> State.workers (persisted (world r)) = [running]
  ∧ Worker.terminalTab <$> State.workers (persisted (world r)) = [Some "4211"]
  ∧ State.itermWindowId (persisted (world r)) = None.
Proof. cbv zeta. split_and!; vm_compute; reflexivity. Qed.

(* ===================================================================== *)
(** * Further properties of the code *)
(* ===================================================================== *)

(* ===================================================================== *)
(** ** Text inside AppleScript literals *)
(* ===================================================================== *)

Lemma backslash_not_dquote : backslash ≠ dquote.
Proof. by vm_compute. Qed.


Lemma replace_char_length c d s :
  String.length (replace_char c (String backslash (String d EmptyString)) s)
  = (String.length s + count_char c s)%nat.
Proof.
  induction s as [|e s IH]; [done|]. cbn [replace_char count_char].
  destruct (decide (e = c)) as [->|He].
  - rewrite bool_decide_eq_true_2 by done.
    rewrite !append_String, append_empty. cbn [String.length]. lia.
  - rewrite bool_decide_eq_false_2 by done. cbn [String.length]. lia.
Qed.

Lemma count_char_replace_backslash s :
  count_char dquote
    (replace_char backslash (String backslash (String backslash EmptyString)) s)
  = count_char dquote s.
Proof.
  induction s as [|e s IH]; [done|]. cbn [replace_char count_char].
  destruct (decide (e = backslash)) as [->|He].
  - rewrite !append_String, append_empty. cbn [count_char].
    rewrite !bool_decide_eq_false_2 by apply backslash_not_dquote. by rewrite IH.
  - cbn [count_char]. by rewrite IH.
Qed.

Lemma replace_char_absent c t s :
  count_char c s = 0%nat → replace_char c t s = s.
Proof.
  induction s as [|e s IH]; [done|]. cbn [replace_char count_char].
  destruct (decide (e = c)) as [->|He].
  - by rewrite bool_decide_eq_true_2.
  - rewrite bool_decide_eq_false_2 by done. intros ?. by rewrite IH.
Qed.

(** X1. [escapeForAppleScript]: reading the escaped text back as the body
    of a literal gives the original text, for every text. So no double
    quote of the input ends the literal early, no backslash of it starts
    an escape of its own, and two different texts are never escaped to
    the same literal. *)
Theorem unescape_escapeForAppleScript (s : string) :
  unescape (escapeForAppleScript s) = Some s.
Proof.
  unfold escapeForAppleScript.
  induction s as [|c s IH]; [done|]. cbn [replace_char].
  destruct (decide (c = backslash)) as [->|Hb].
  - rewrite ?append_String, ?append_empty; cbn [replace_char].
    rewrite !(decide_False (P := backslash = dquote)) by apply backslash_not_dquote.
    cbn [unescape]. rewrite !decide_True by auto.
    by rewrite IH.
  - cbn [replace_char]. destruct (decide (c = dquote)) as [->|Hq].
    + rewrite ?append_String, ?append_empty; cbn [unescape].
      rewrite decide_True by done. rewrite decide_True by auto.
      by rewrite IH.
    + cbn [unescape]. rewrite !decide_False by done. by rewrite IH.
Qed.

(** X2. [sendToItermSession] escapes the double quotes of its command
    only. What it places in the literal is what [escapeForAppleScript]
    would place there exactly when the command holds no backslash. *)
Theorem sendToItermSession_literal_escaped_iff (command : string) :
  sendToItermSession_literal command = escapeForAppleScript command
  ↔ count_char backslash command = 0%nat.
Proof.
  unfold sendToItermSession_literal, escapeForAppleScript. split.
  - intros H%(f_equal String.length).
    rewrite !replace_char_length, count_char_replace_backslash in H. lia.
  - intros H. by rewrite (replace_char_absent backslash).
Qed.

(** X3. A command without backslashes is read back from the literal of
    [sendToItermSession] unchanged. *)
Theorem unescape_sendToItermSession_literal (command : string) :
  count_char backslash command = 0%nat →
  unescape (sendToItermSession_literal command) = Some command.
Proof.
  unfold sendToItermSession_literal.
  induction command as [|c s IH]; [done|]. cbn [count_char replace_char].
  destruct (decide (c = backslash)) as [->|Hc].
  { by rewrite bool_decide_eq_true_2. }
  rewrite bool_decide_eq_false_2 by done. intros Hs.
  destruct (decide (c = dquote)) as [->|Hq].
  - rewrite ?append_String, ?append_empty; cbn [unescape].
    rewrite decide_True by done. rewrite decide_True by auto.
    by rewrite IH.
  - cbn [unescape]. rewrite !decide_False by done. by rewrite IH.
Qed.

Lemma unescape_sendToItermSession_literal_witness :
  count_char backslash ("echo " +:+ String dquote ("hi" +:+ String dquote EmptyString)) = 0%nat
  ∧ unescape (sendToItermSession_literal
                ("echo " +:+ String dquote ("hi" +:+ String dquote EmptyString)))
    = Some ("echo " +:+ String dquote ("hi" +:+ String dquote EmptyString)).
Proof.
  split; [reflexivity|].
  apply (unescape_sendToItermSession_literal
           ("echo " +:+ String dquote ("hi" +:+ String dquote EmptyString))).
  reflexivity.
Defined.

(* ===================================================================== *)
(** ** The registry as a store of records *)
(* ===================================================================== *)

Lemma getWorker_persisted nameOrId w :
  getWorker nameOrId w = find nameOrId (State.workers (persisted w)).
Proof. done. Qed.

Lemma find_snoc nameOrId l x :
  find nameOrId (l ++ [x])
  = match find nameOrId l with
    | Some y => Some y
    | None => if decide (Worker.matches nameOrId x) then Some x else None
    end.
Proof.
  unfold find. induction l as [|y l IH]; simpl.
  - by case_decide.
  - destruct (decide (Worker.matches nameOrId y)); [done|].
    revert IH.
    by destruct (list_find _ (l ++ [x])) as [[]|], (list_find _ l) as [[]|].
Qed.

Lemma matches_updated nameOrId status updates x :
  Worker.matches nameOrId (updated status updates x) ↔ Worker.matches nameOrId x.
Proof. by destruct updates. Qed.

(** A change of records that keeps every name and id keeps the position
    every lookup stops at. *)
Lemma list_find_insert_keys nameOrId l i y :
  (∀ x, l !! i = Some x →
        (Worker.matches nameOrId y ↔ Worker.matches nameOrId x)) →
  list_find (Worker.matches nameOrId) (<[i := y]> l)
  = (λ p, (p.1, if decide (p.1 = i) then y else p.2))
    <$> list_find (Worker.matches nameOrId) l.
Proof.
  revert i. induction l as [|x l IH]; intros i Hk; [done|].
  destruct i as [|i]; simpl.
  - destruct (Hk x eq_refl) as [H1 H2].
    repeat case_decide; try done; try tauto.
    destruct (list_find _ l) as [[j z]|]; simpl; [|done].
    repeat case_decide; try done; lia.
  - case_decide; simpl; [done|].
    rewrite IH by (intros z Hz; by apply Hk).
    destruct (list_find _ l) as [[j z]|]; simpl; [|done].
    repeat case_decide; try done; lia.
Qed.

Lemma workers_updateWorkerStatus nameOrId status updates w :
  State.workers (persisted (updateWorkerStatus nameOrId status updates w))
  = match list_find (Worker.matches nameOrId) (State.workers (persisted w)) with
    | Some (index, x) =>
        <[index := updated status updates x]> (State.workers (persisted w))
    | None => State.workers (persisted w)
    end.
Proof.
  unfold updateWorkerStatus. rewrite deref_getAllWorkers.
  destruct (list_find _ _) as [[i x]|]; [|done].
  by destruct w as [[] ?].
Qed.

Lemma updateWorkerStatus_None nameOrId status updates w :
  getWorker nameOrId w = None →
  updateWorkerStatus nameOrId status updates w = w.
Proof.
  intros H%getWorker_None. unfold updateWorkerStatus.
  by rewrite deref_getAllWorkers, H.
Qed.

Lemma reset_progress_updated status updates x :
  reset_progress (updated status updates x) = reset_progress x.
Proof. by destruct updates. Qed.

Lemma getWorker_updateWorkerStatus_any other nameOrId status updates w :
  getWorker other (updateWorkerStatus nameOrId status updates w)
  = match list_find (Worker.matches nameOrId) (State.workers (persisted w)),
          list_find (Worker.matches other) (State.workers (persisted w)) with
    | Some (i, _), Some (j, z) =>
        Some (if decide (j = i) then updated status updates z else z)
    | _, found => snd <$> found
    end.
Proof.
  rewrite getWorker_persisted, workers_updateWorkerStatus. unfold find.
  destruct (list_find (Worker.matches nameOrId) _) as [[i x]|] eqn:E; [|done].
  apply list_find_Some in E as (Hi & _).
  rewrite list_find_insert_keys.
  2:{ intros x' Hx'. rewrite Hi in Hx'. injection Hx' as <-.
      apply matches_updated. }
  destruct (list_find (Worker.matches other) _) as [[j z]|] eqn:F; [|done].
  simpl. case_decide as Hj; [|done]. subst j.
  apply list_find_Some in F as (Hj & _). by simplify_eq.
Qed.

Lemma find_delete other l i :
  (∀ x, l !! i = Some x → ¬ Worker.matches other x) →
  find other (delete i l) = find other l.
Proof.
  unfold find. revert i. induction l as [|y l IH]; intros i Hi; [done|].
  destruct i as [|i]; simpl.
  - rewrite decide_False by by apply Hi.
    by destruct (list_find _ l) as [[]|].
  - destruct (decide (Worker.matches other y)); [done|].
    specialize (IH i Hi). revert IH.
    by destruct (list_find _ (delete i l)) as [[]|], (list_find _ l) as [[]|].
Qed.

Lemma workers_removeWorker nameOrId w :
  State.workers (persisted (removeWorker nameOrId w).2)
  = match list_find (Worker.matches nameOrId) (State.workers (persisted w)) with
    | Some (index, _) => delete index (State.workers (persisted w))
    | None => State.workers (persisted w)
    end.
Proof.
  destruct (list_find _ _) as [[i x]|] eqn:E.
  - by destruct (removeWorker_Some _ _ _ _ E) as (_ & -> & _).
  - by rewrite (removeWorker_None _ _ E).
Qed.

Lemma removeWorker_found nameOrId w :
  (removeWorker nameOrId w).1 = getWorker nameOrId w.
Proof.
  rewrite getWorker_persisted. unfold find.
  destruct (list_find _ _) as [[i x]|] eqn:E.
  - by destruct (removeWorker_Some _ _ _ _ E) as (-> & _).
  - by rewrite (removeWorker_None _ _ E).
Qed.

Lemma unique_keys_delete l i : unique_keys l → unique_keys (delete i l).
Proof.
  intros Hu. destruct (l !! i) as [x|] eqn:Hi.
  - rewrite delete_take_drop. apply (unique_keys_middle _ x).
    by rewrite take_drop_middle.
  - rewrite delete_take_drop, (drop_ge l (S i)), app_nil_r, take_ge; [done|..];
      apply lookup_ge_None in Hi; lia.
Qed.

Lemma unique_keys_find_delete nameOrId l i x :
  unique_keys l →
  list_find (Worker.matches nameOrId) l = Some (i, x) →
  find nameOrId (delete i l) = None.
Proof.
  intros Hu E. unfold find.
  destruct (list_find _ (delete i l)) as [[k y]|] eqn:F; [exfalso|done].
  apply list_find_Some in F as (Hk & Hy & _).
  rewrite list_lookup_delete in Hk.
  pose proof (unique_keys_list_find _ _ _ _ Hu Hk Hy) as E'.
  rewrite E in E'. case_decide; simplify_eq; lia.
Qed.

(** X4. [addWorker] then [getWorker]: an identifier that resolved before
    the push resolves to the same record after it (an earlier record
    that carries the new record's name or id keeps shadowing it); one
    that did not resolve finds the new record exactly when it is its
    name or its id. *)
Theorem getWorker_addWorker (nameOrId : string) (x : Worker.t) (w : World) :
  getWorker nameOrId (addWorker x w)
  = match getWorker nameOrId w with
    | Some y => Some y
    | None => if decide (Worker.matches nameOrId x) then Some x else None
    end.
Proof. rewrite !getWorker_persisted, persisted_addWorker. apply find_snoc. Qed.

(** X5. [updateWorkerStatus] then [getWorker]: the identifier resolves to
    the record it resolved to, with the new status (and session handle,
    when one is passed); every identifier still resolves to the record
    it resolved to, up to those two fields; and when the identifier
    resolves to nothing, nothing is written at all. *)
Theorem getWorker_updateWorkerStatus
    (nameOrId : string) (status : Status) (updates : option string) (w : World) :
  getWorker nameOrId (updateWorkerStatus nameOrId status updates w)
  = updated status updates <$> getWorker nameOrId w
  ∧ (∀ other,
       reset_progress <$> getWorker other (updateWorkerStatus nameOrId status updates w)
       = reset_progress <$> getWorker other w)
  ∧ (getWorker nameOrId w = None →
     updateWorkerStatus nameOrId status updates w = w).
Proof.
  split_and!.
  - rewrite getWorker_updateWorkerStatus_any, getWorker_persisted. unfold find.
    destruct (list_find _ _) as [[i x]|]; [|done]. simpl. by rewrite decide_True.
  - intros other.
    rewrite getWorker_updateWorkerStatus_any, getWorker_persisted. unfold find.
    destruct (list_find (Worker.matches nameOrId) _) as [[i x]|]; [|done].
    destruct (list_find (Worker.matches other) _) as [[j z]|]; [|done].
    simpl. case_decide; [|done]. by rewrite reset_progress_updated.
  - apply updateWorkerStatus_None.
Qed.

Lemma getWorker_updateWorkerStatus_witness :
  getWorker "calm-owl" (updateWorkerStatus "calm-owl" stopped None sample_registry)
  = Some (Worker.set_status stopped (sample_worker "b5f2kQ9xLm" "calm-owl" 3110))
  ∧ getWorker "bold-bear" sample_registry = None
  ∧ updateWorkerStatus "bold-bear" stopped None sample_registry = sample_registry.
Proof.
  split; [|split; [reflexivity|]].
  - exact (proj1 (getWorker_updateWorkerStatus "calm-owl" stopped None sample_registry)).
  - apply (getWorker_updateWorkerStatus "bold-bear" stopped None sample_registry).
    reflexivity.
Defined.

(** X6. [removeWorker] returns the record [getWorker] finds for the same
    identifier; the records left are the old ones in their order, one
    fewer when a record was found; and an identifier that does not name
    the removed record resolves as before. *)
Theorem removeWorker_getWorker (nameOrId : string) (w : World) :
  (removeWorker nameOrId w).1 = getWorker nameOrId w
  ∧ sublist (State.workers (persisted (removeWorker nameOrId w).2))
            (State.workers (persisted w))
  ∧ (length (State.workers (persisted (removeWorker nameOrId w).2))
     + (if getWorker nameOrId w is Some _ then 1 else 0)
     = length (State.workers (persisted w)))%nat
  ∧ ∀ other,
      (∀ x, getWorker nameOrId w = Some x → ¬ Worker.matches other x) →
      getWorker other (removeWorker nameOrId w).2 = getWorker other w.
Proof.
  split_and!.
  - apply removeWorker_found.
  - rewrite workers_removeWorker.
    destruct (list_find _ _) as [[i x]|]; [apply sublist_delete|done].
  - rewrite workers_removeWorker, getWorker_persisted. unfold find.
    destruct (list_find _ _) as [[i x]|] eqn:E; [|simpl; lia].
    apply list_find_Some in E as (Hi%lookup_lt_Some & _).
    rewrite length_delete by (apply lookup_lt_is_Some; lia).
    cbn [fmap option_fmap option_map]. lia.
  - intros other Hother. rewrite !getWorker_persisted, workers_removeWorker.
    rewrite getWorker_persisted in Hother. unfold find in Hother.
    destruct (list_find _ _) as [[i x]|] eqn:E; [|done].
    apply find_delete. intros x' Hx'. apply Hother.
    apply list_find_Some in E as (Hi & _). simpl. congruence.
Qed.

(** X7. In a registry whose names and ids are keys, the identifier of a
    removed record resolves to nothing afterwards, and the names and ids
    of the records left are still keys. *)
Theorem removeWorker_unique_keys (nameOrId : string) (w : World) :
  unique_keys (State.workers (persisted w)) →
  getWorker nameOrId (removeWorker nameOrId w).2 = None
  ∧ unique_keys (State.workers (persisted (removeWorker nameOrId w).2)).
Proof.
  intros Hu. rewrite getWorker_persisted, workers_removeWorker.
  destruct (list_find _ _) as [[i x]|] eqn:E.
  - split; [by eapply unique_keys_find_delete|by apply unique_keys_delete].
  - split; [|done]. unfold find. by rewrite E.
Qed.

Lemma removeWorker_unique_keys_witness :
  unique_keys (State.workers (persisted sample_registry))
  ∧ getWorker "Zt0pWq83nA" (removeWorker "Zt0pWq83nA" sample_registry).2 = None
  ∧ unique_keys
      (State.workers (persisted (removeWorker "Zt0pWq83nA" sample_registry).2)).
Proof.
  assert (unique_keys (State.workers (persisted sample_registry))) as Hu.
  { by apply (bool_decide_unpack _). }
  split; [exact Hu|].
  exact (removeWorker_unique_keys "Zt0pWq83nA" sample_registry Hu).
Defined.

(** X8. The shared-window hint is a field of its own: what
    [setItermWindowId] stores is what [getItermWindowId] reads,
    [clearItermWindowId] makes it undefined again, and neither touches
    the records or the port counter. *)
Theorem itermWindowId_set_get_clear (windowId : string) (w : World) :
  getItermWindowId (setItermWindowId windowId w) = Some windowId
  ∧ getItermWindowId (clearItermWindowId (setItermWindowId windowId w)) = None
  ∧ State.workers (persisted (setItermWindowId windowId w))
    = State.workers (persisted w)
  ∧ State.nextPortOffset (persisted (setItermWindowId windowId w))
    = State.nextPortOffset (persisted w)
  ∧ State.workers (persisted (clearItermWindowId w)) = State.workers (persisted w)
  ∧ State.nextPortOffset (persisted (clearItermWindowId w))
    = State.nextPortOffset (persisted w).
Proof. by destruct w as [[] ?]. Qed.

(* ===================================================================== *)
(** ** What the commands leave behind *)
(* ===================================================================== *)

Lemma getWorker_updated nameOrId status updates w :
  getWorker nameOrId (updateWorkerStatus nameOrId status updates w)
  = updated status updates <$> getWorker nameOrId w.
Proof.
  rewrite getWorker_updateWorkerStatus_any, getWorker_persisted. unfold find.
  destruct (list_find _ _) as [[i x]|]; [|done]. simpl. by rewrite decide_True.
Qed.

Lemma truthy_Some s : truthy (Some s) = if decide (s = EmptyString) then None else Some s.
Proof. by destruct s. Qed.

Lemma getWorker_after_spawn repoUrl task options first e w windowId :
  succeeds e = true →
  openWorkerTab e = inr windowId →
  getWorker (Worker.name (new_worker repoUrl task options e w))
            (world (spawnSingleWorker repoUrl task options first e w))
  = Some (updated running (Some windowId)
            (default (new_worker repoUrl task options e w)
               (getWorker (Worker.name (new_worker repoUrl task options e w)) w))).
Proof.
  intros Hs Htab.
  destruct (spawnSingleWorker_success repoUrl task options first e w Hs)
    as (windowId' & Htab' & Hw & _).
  rewrite Htab in Htab'. injection Htab' as <-.
  set (worker := new_worker repoUrl task options e w) in *.
  rewrite Hw, getWorker_updated, !getWorker_persisted, persisted_addWorker.
  cbn [State.workers]. rewrite find_snoc.
  destruct (find _ _); [done|].
  rewrite decide_True by by left. done.
Qed.

(** X9. After a spawn that ran to its end, the new worker's name resolves
    to a [running] record that carries the session id the script
    returned, and [focus] with that name goes to that session (it
    reports the worker as missing when the script returned the empty
    text). The record is the new one, unless an earlier record already
    carried the name as its name or id: then that record is the one
    updated, and the new one stays [setting-up]. *)
Theorem spawnSingleWorker_then_getWorker
    (repoUrl task : string) (options : SpawnOptions.t) (first : bool)
    (e : SpawnEnv) (w : World) (windowId : string) :
  succeeds e = true →
  openWorkerTab e = inr windowId →
  let r := spawnSingleWorker repoUrl task options first e w in
  let worker := new_worker repoUrl task options e w in
  getWorker (Worker.name worker) (world r)
  = Some (updated running (Some windowId)
            (default worker (getWorker (Worker.name worker) w)))
  ∧ focus (Worker.name worker) (world r)
    = (if decide (windowId = EmptyString)
       then FocusFailed ("Worker not found or no terminal tab: "
                         +:+ Worker.name worker) 1
       else FocusSession windowId).
Proof.
  intros Hs Htab. cbv zeta.
  pose proof (getWorker_after_spawn repoUrl task options first e w windowId
                Hs Htab) as Hget.
  split; [done|]. unfold focus. rewrite Hget. cbn [mbind option_bind].
  change (Worker.terminalTab (updated running (Some windowId) _))
    with (Some windowId).
  rewrite truthy_Some. by case_decide.
Qed.

Lemma spawnSingleWorker_then_getWorker_witness :
  let e := sample_env (inr "4211") in
  let r := spawnSingleWorker "https://github.com/user/repo.git" "add dark mode"
             (sample_options ["add dark mode"]) true e sample_registry in
  succeeds e = true
  ∧ (Worker.status <$> getWorker "brave-owl" (world r)) = Some running
  ∧ focus "brave-owl" (world r) = FocusSession "4211".
Proof.
  cbv zeta.
  pose proof (spawnSingleWorker_then_getWorker
                "https://github.com/user/repo.git" "add dark mode"
                (sample_options ["add dark mode"]) true
                (sample_env (inr "4211")) sample_registry "4211"
                eq_refl eq_refl) as [Hget Hfocus].
  split; [reflexivity|]. split.
  - exact (f_equal (fmap Worker.status) Hget).
  - exact Hfocus.
Defined.

Lemma cleanupAll_exit force envs w : exit (cleanupAll force envs w) = Returned.
Proof. unfold cleanupAll. by repeat case_match. Qed.

(** X10. A [cleanup] that ends in [process.exit] ends with code 1 and has
    written nothing: it was not [--all], and either no name was given,
    or the name resolves to no record, or the directory of the record
    found could not be deleted. *)
Theorem cleanup_exited_leaves_registry
    (nameOrId : option string) (options : CleanupOptions.t)
    (e : CleanupEnv) (envs : nat → CleanupEnv) (w : World) (code : Z) :
  exit (cleanup nameOrId options e envs w) = Exited code →
  code = 1
  ∧ world (cleanup nameOrId options e envs w) = w
  ∧ flag (CleanupOptions.all options) = false
  ∧ (truthy nameOrId = None
     ∨ ∃ target, truthy nameOrId = Some target
         ∧ (getWorker target w = None
            ∨ (is_Some (getWorker target w) ∧ deletion_fails e = true))).
Proof.
  unfold cleanup. destruct (flag (CleanupOptions.all options)).
  { by rewrite cleanupAll_exit. }
  destruct (truthy nameOrId) as [target|]; [|intros [= <-]; auto].
  destruct (getWorker target w) as [worker|] eqn:Hget;
    [|intros [= <-]; split_and!; eauto].
  pose proof (delete_directory_error e worker) as Hdel.
  destruct (delete_directory e worker) as [deletion [message|]]; [|done].
  cbn [snd] in Hdel.
  intros [= <-]. split_and!; try done. right. exists target. split; [done|].
  right. split; [done|]. destruct (deletion_fails e); [done|].
  discriminate (proj2 Hdel eq_refl).
Qed.

Lemma cleanup_exited_leaves_registry_witness :
  let r := cleanup (Some "calm-owl") (CleanupOptions.mk None None) env_stuck
                   (λ _, env_ok) sample_registry in
  exit r = Exited 1 ∧ world r = sample_registry.
Proof.
  cbv zeta. split; [reflexivity|].
  apply (cleanup_exited_leaves_registry (Some "calm-owl")
           (CleanupOptions.mk None None) env_stuck (λ _, env_ok)
           sample_registry 1).
  reflexivity.
Defined.

Lemma cleanup_found
    (nameOrId : option string) (options : CleanupOptions.t)
    (e : CleanupEnv) (envs : nat → CleanupEnv) (w : World)
    (target : string) (worker : Worker.t) :
  flag (CleanupOptions.all options) = false →
  truthy nameOrId = Some target →
  getWorker target w = Some worker →
  deletion_fails e = false →
  let r := cleanup nameOrId options e envs w in
  exit r = Returned
  ∧ (∃ index,
       State.workers (persisted w) !! index = Some worker
       ∧ State.workers (persisted (world r))
         = delete index (State.workers (persisted w)))
  ∧ State.nextPortOffset (persisted (world r)) = State.nextPortOffset (persisted w)
  ∧ State.itermWindowId (persisted (world r))
    = (if decide (State.workers (persisted (world r)) = []) then None
       else State.itermWindowId (persisted w))
  ∧ ∃ events,
      log r = events
              ++ [ SpinnerSucceed ("Cleaned up " +:+ Worker.name worker);
                   ConsoleLog ("   Directory removed: " +:+ Worker.directory worker);
                   ConsoleLog ("   Branch was: " +:+ Worker.branch worker) ].
Proof.
  intros Hall Htarget Hget Hdel. cbv zeta. unfold cleanup.
  rewrite Hall, Htarget, Hget.
  apply (delete_directory_error e worker) in Hdel.
  destruct (delete_directory e worker) as [deletion error]. simpl in Hdel. subst error.
  apply getWorker_list_find in Hget as [index Hfind].
  destruct (removeWorker_Some _ _ _ _ Hfind) as (_ & Hp & _).
  rewrite deref_getAllWorkers.
  set (w1 := (removeWorker target w).2) in *.
  assert (State.workers (persisted w1) = delete index (State.workers (persisted w)))
    as Hws by by rewrite Hp.
  cbn [exit world log].
  split; [done|]. split_and!.
  - exists index. split; [by apply list_find_Some in Hfind as (? & _)|].
    case_bool_decide; [|done]. by rewrite persisted_clearItermWindowId.
  - case_bool_decide; rewrite ?persisted_clearItermWindowId; by rewrite Hp.
  - case_bool_decide as Hlen.
    + rewrite persisted_clearItermWindowId. cbn [State.workers State.itermWindowId].
      apply nil_length_inv in Hlen. by rewrite decide_True.
    + rewrite decide_False; [by rewrite Hp|]. intros Hnil. by rewrite Hnil in Hlen.
  - exists (close_terminal 500 e worker ++ deletion). by rewrite <- app_assoc.
Qed.

(** X11. A [cleanup] of one worker whose directory can be deleted (or is
    not there) removes the record the name resolves to and nothing
    else: the record sat at some position of the registry and the
    registry afterwards is the old one without that position; the port
    counter is as before; the shared-window hint is cleared exactly when
    no record is left. *)
Theorem cleanup_removes_found_record
    (nameOrId : option string) (options : CleanupOptions.t)
    (e : CleanupEnv) (envs : nat → CleanupEnv) (w : World)
    (target : string) (worker : Worker.t) :
  flag (CleanupOptions.all options) = false →
  truthy nameOrId = Some target →
  getWorker target w = Some worker →
  deletion_fails e = false →
  let r := cleanup nameOrId options e envs w in
  exit r = Returned
  ∧ (∃ index,
       State.workers (persisted w) !! index = Some worker
       ∧ State.workers (persisted (world r))
         = delete index (State.workers (persisted w)))
  ∧ State.nextPortOffset (persisted (world r)) = State.nextPortOffset (persisted w)
  ∧ State.itermWindowId (persisted (world r))
    = (if decide (State.workers (persisted (world r)) = []) then None
       else State.itermWindowId (persisted w))
  ∧ ∃ events,
      log r = events
              ++ [ SpinnerSucceed ("Cleaned up " +:+ Worker.name worker);
                   ConsoleLog ("   Directory removed: " +:+ Worker.directory worker);
                   ConsoleLog ("   Branch was: " +:+ Worker.branch worker) ].
Proof. apply cleanup_found. Qed.

Lemma cleanup_removes_found_record_witness :
  let worker := sample_worker "b5f2kQ9xLm" "calm-owl" 3110 in
  let r := cleanup (Some "b5f2kQ9xLm") (CleanupOptions.mk None None) env_ok
                   (λ _, env_ok) sample_registry in
  getWorker "b5f2kQ9xLm" sample_registry = Some worker
  ∧ deletion_fails env_ok = false
  ∧ exit r = Returned
  ∧ State.nextPortOffset (persisted (world r)) = 3
  ∧ ∃ index,
      State.workers (persisted sample_registry) !! index = Some worker
      ∧ State.workers (persisted (world r))
        = delete index (State.workers (persisted sample_registry)).
Proof.
  cbv zeta.
  pose proof (cleanup_removes_found_record (Some "b5f2kQ9xLm")
                (CleanupOptions.mk None None) env_ok (λ _, env_ok)
                sample_registry "b5f2kQ9xLm"
                (sample_worker "b5f2kQ9xLm" "calm-owl" 3110)
                eq_refl eq_refl eq_refl eq_refl) as (Hexit & Hidx & Hoff & _).
  split; [reflexivity|]. split; [reflexivity|]. split; [exact Hexit|].
  split; [exact Hoff|exact Hidx].
Defined.

(** ** Batches of tasks *)

Lemma spawn_loop_with_tasks repoUrl options other tasks i envs w events :
  spawn_loop repoUrl (with_tasks other options) tasks i envs w events
  = spawn_loop repoUrl options tasks i envs w events.
Proof.
  revert i w events. induction tasks as [|task tasks IH]; intros i w events;
    simpl; [done|].
  change (spawnSingleWorker repoUrl task (with_tasks other options)
            (bool_decide (i = 0%nat)) (envs i) w)
    with (spawnSingleWorker repoUrl task options
            (bool_decide (i = 0%nat)) (envs i) w).
  destruct (exit _); [apply IH|done].
Qed.

Lemma spawnSingleWorker_nextPortOffset repoUrl task options first e w :
  State.nextPortOffset
    (persisted (world (spawnSingleWorker repoUrl task options first e w)))
  = State.nextPortOffset (persisted w) + (if persists_record e then 1 else 0).
Proof.
  destruct (persists_record e) eqn:Hp.
  - by destruct (spawnSingleWorker_persisted repoUrl task options first e w Hp)
      as (_ & _ & _ & -> & _).
  - destruct (spawnSingleWorker_no_record repoUrl task options first e w Hp)
      as (-> & _). lia.
Qed.

Lemma spawn_loop_failure repoUrl options finished task rest i envs w events :
  (∀ k, (k < length finished)%nat → succeeds (envs (i + k)%nat) = true) →
  succeeds (envs (i + length finished)%nat) = false →
  spawn_loop repoUrl options (finished ++ task :: rest) i envs w events
  = spawn_loop repoUrl options (finished ++ [task]) i envs w events
  ∧ exit (spawn_loop repoUrl options (finished ++ task :: rest) i envs w events)
    = Exited 1
  ∧ State.nextPortOffset
      (persisted (world (spawn_loop repoUrl options (finished ++ task :: rest)
                                    i envs w events)))
    = State.nextPortOffset (persisted w) + Z.of_nat (length finished)
      + (if persists_record (envs (i + length finished)%nat) then 1 else 0).
Proof.
  revert i w events.
  induction finished as [|t finished IH]; intros i w events Hok Hfail;
    cbn [app spawn_loop length] in *.
  - rewrite Nat.add_0_r in *.
    pose proof (spawnSingleWorker_exit repoUrl task options
                  (bool_decide (i = 0%nat)) (envs i) w) as Hexit.
    rewrite Hfail in Hexit. rewrite Hexit. cbn [exit world].
    rewrite spawnSingleWorker_nextPortOffset. split_and!; [done..|lia].
  - pose proof (spawnSingleWorker_exit repoUrl t options
                  (bool_decide (i = 0%nat)) (envs i) w) as Hexit.
    pose proof (Hok 0%nat ltac:(lia)) as H0. rewrite Nat.add_0_r in H0.
    rewrite H0 in Hexit. rewrite Hexit.
    destruct (IH (S i)
                (world (spawnSingleWorker repoUrl t options
                          (bool_decide (i = 0%nat)) (envs i) w))
                (events ++ log (spawnSingleWorker repoUrl t options
                          (bool_decide (i = 0%nat)) (envs i) w)))
      as (-> & -> & ->).
    + intros k Hk. rewrite <- (Hok (S k)) by lia. do 2 f_equal; lia.
    + rewrite <- Hfail. do 2 f_equal; lia.
    + rewrite spawnSingleWorker_nextPortOffset, (succeeds_persists _ H0).
      replace (S i + length finished)%nat with (i + S (length finished))%nat by lia.
      split_and!; [done..|].
      destruct (persists_record (envs (i + S (length finished))%nat)); lia.
Qed.

Lemma spawn_loop_success repoUrl options tasks i envs w events :
  (∀ k, (k < length tasks)%nat → succeeds (envs (i + k)%nat) = true) →
  exit (spawn_loop repoUrl options tasks i envs w events) = Returned
  ∧ Worker.port <$> State.workers
      (persisted (world (spawn_loop repoUrl options tasks i envs w events)))
    = (Worker.port <$> State.workers (persisted w))
      ++ port_range (State.nextPortOffset (persisted w)) (length tasks)
  ∧ State.nextPortOffset
      (persisted (world (spawn_loop repoUrl options tasks i envs w events)))
    = State.nextPortOffset (persisted w) + Z.of_nat (length tasks).
Proof.
  revert i w events.
  induction tasks as [|t tasks IH]; intros i w events Hok;
    cbn [spawn_loop length] in *.
  - cbn [exit world port_range]. rewrite app_nil_r. split_and!; [done..|lia].
  - pose proof (spawnSingleWorker_exit repoUrl t options
                  (bool_decide (i = 0%nat)) (envs i) w) as Hexit.
    pose proof (Hok 0%nat ltac:(lia)) as H0. rewrite Nat.add_0_r in H0.
    rewrite H0 in Hexit. rewrite Hexit.
    destruct (IH (S i)
                (world (spawnSingleWorker repoUrl t options
                          (bool_decide (i = 0%nat)) (envs i) w))
                (events ++ log (spawnSingleWorker repoUrl t options
                          (bool_decide (i = 0%nat)) (envs i) w)))
      as (-> & -> & ->).
    + intros k Hk. rewrite <- (Hok (S k)) by lia. do 2 f_equal; lia.
    + destruct (spawnSingleWorker_persisted repoUrl t options
                  (bool_decide (i = 0%nat)) (envs i) w (succeeds_persists _ H0))
        as (-> & _ & _ & -> & _).
      rewrite port_range_S, <- app_assoc. cbn [Worker.port new_worker].
      rewrite getNextPort_persisted. split_and!; [done..|lia].
Qed.

(** X12. [spawn] with several tasks stops at the first task whose worker
    fails: the process exits with code 1, the tasks after it are never
    tried (the outcome is that of the batch cut after the failing task),
    and the port counter has advanced by one for each worker before it,
    and by one more when the failing worker had written its record. *)
Theorem spawn_stops_at_first_failure
    (repoUrl : string) (options : SpawnOptions.t) (envs : nat → SpawnEnv)
    (w : World) (finished : list string) (task : string) (rest : list string) :
  SpawnOptions.task options = finished ++ task :: rest →
  (∀ i, (i < length finished)%nat → succeeds (envs i) = true) →
  succeeds (envs (length finished)) = false →
  let r := spawn repoUrl options envs w in
  exit r = Exited 1
  ∧ r = spawn repoUrl (with_tasks (finished ++ [task]) options) envs w
  ∧ State.nextPortOffset (persisted (world r))
    = State.nextPortOffset (persisted w) + Z.of_nat (length finished)
      + (if persists_record (envs (length finished)) then 1 else 0).
Proof.
  intros Htasks Hok Hfail. cbv zeta. unfold spawn.
  cbn [SpawnOptions.task with_tasks]. rewrite Htasks, spawn_loop_with_tasks.
  destruct (spawn_loop_failure repoUrl options finished task rest 0 envs w [])
    as (Hcut & Hexit & Hoff); [done..|].
  destruct (spawn_loop_failure repoUrl options finished task [] 0 envs w [])
    as (_ & Hexit' & _); [done..|].
  rewrite Hexit, Hexit'. by rewrite Hoff, Hcut.
Qed.

Lemma spawn_stops_at_first_failure_witness :
  let envs := λ i : nat, if decide (i = 1%nat)
                         then sample_env (inl "iTerm2 got an error")
                         else sample_env (inr "4211") in
  let r := spawn "https://github.com/user/repo.git"
                 (sample_options ["a"; "b"; "c"]) envs (boot NoFile) in
  succeeds (envs 1%nat) = false
  ∧ exit r = Exited 1
  ∧ r = spawn "https://github.com/user/repo.git" (sample_options ["a"; "b"])
              envs (boot NoFile)
  ∧ State.nextPortOffset (persisted (world r)) = 2.
Proof.
  cbv zeta. split; [reflexivity|].
  assert (∀ i, (i < length ["a"])%nat →
               succeeds ((λ i : nat, if decide (i = 1%nat)
                                     then sample_env (inl "iTerm2 got an error")
                                     else sample_env (inr "4211")) i) = true) as Hok.
  { intros [|i] Hi; [reflexivity|]. simpl in Hi. lia. }
  pose proof (spawn_stops_at_first_failure "https://github.com/user/repo.git"
                (sample_options ["a"; "b"; "c"]) _ (boot NoFile) ["a"] "b" ["c"]
                eq_refl Hok eq_refl) as (Hexit & Hcut & Hoff).
  split; [exact Hexit|]. split; [exact Hcut|exact Hoff].
Defined.

(** X13. [spawn] whose workers all succeed returns, has written one
    record per task with the next ports of the counter, in the order of
    the tasks, and reports the number of workers when there is more than
    one task. *)
Theorem spawn_batch_all_succeed
    (repoUrl : string) (options : SpawnOptions.t) (envs : nat → SpawnEnv)
    (w : World) :
  (∀ i, (i < length (SpawnOptions.task options))%nat → succeeds (envs i) = true) →
  let tasks := SpawnOptions.task options in
  let r := spawn repoUrl options envs w in
  exit r = Returned
  ∧ Worker.port <$> State.workers (persisted (world r))
    = (Worker.port <$> State.workers (persisted w))
      ++ port_range (State.nextPortOffset (persisted w)) (length tasks)
  ∧ State.nextPortOffset (persisted (world r))
    = State.nextPortOffset (persisted w) + Z.of_nat (length tasks)
  ∧ ((1 < length tasks)%nat →
     last (log r)
     = Some (ConsoleLog (nl +:+ "✨ Spawned " +:+ pretty (length tasks)
                         +:+ " workers!"))).
Proof.
  intros Hok. cbv zeta. unfold spawn.
  destruct (spawn_loop_success repoUrl options (SpawnOptions.task options)
              0 envs w []) as (Hexit & Hports & Hoff); [done|].
  rewrite Hexit. case_bool_decide as Hn; cbn [exit world log].
  - split_and!; [done..|]. intros _. by rewrite last_snoc.
  - split_and!; [done..|]. intros ?. lia.
Qed.

Lemma spawn_batch_all_succeed_witness :
  let r := spawn "https://github.com/user/repo.git"
                 (sample_options ["a"; "b"]) (λ _, sample_env (inr "4211"))
                 (boot NoFile) in
  exit r = Returned
  ∧ Worker.port <$> State.workers (persisted (world r)) = [3100; 3110]
  ∧ State.nextPortOffset (persisted (world r)) = 2.
Proof.
  cbv zeta.
  pose proof (spawn_batch_all_succeed "https://github.com/user/repo.git"
                (sample_options ["a"; "b"]) (λ _, sample_env (inr "4211"))
                (boot NoFile) (λ _ _, eq_refl)) as (Hexit & Hports & Hoff & _).
  split; [exact Hexit|]. split; [exact Hports|exact Hoff].
Defined.

(* ===================================================================== *)
(** ** Invariants over the history of a registry *)
(* ===================================================================== *)

Section Invariants.

Implicit Types (w : World) (steps : list Step) (s : Step).

Lemma sublist_Forall {A} (P : A → Prop) (l k : list A) :
  sublist l k → Forall P k → Forall P l.
Proof.
  induction 1 as [|x l k _ IH|x l k _ IH]; [done|..].
  - intros [? ?]%Forall_cons. constructor; auto.
  - intros [? ?]%Forall_cons. auto.
Qed.

(** The process that starts after a command sees what the command left
    in the file, or the default when there is no readable file. *)
Lemma persisted_boot w :
  persisted (boot (file w)) = persisted w
  ∨ persisted (boot (file w)) = DEFAULT_STATE.
Proof. destruct w as [[] ?]; auto. Qed.

Lemma persisted_next_world (r : Result) :
  persisted (next_world r) = persisted (world r)
  ∨ persisted (next_world r) = DEFAULT_STATE.
Proof. unfold next_world. destruct (exit r); [auto|apply persisted_boot]. Qed.

(** A property of the persisted state that holds of the default and is
    kept by every command holds after every history. *)
Lemma run_invariant (Inv : State.t → Prop) :
  Inv DEFAULT_STATE →
  (∀ s w, Inv (persisted w) → Inv (persisted (world (step_result s w)))) →
  ∀ steps w, Inv (persisted w) → Inv (persisted (run steps w)).
Proof.
  intros Hdefault Hstep steps.
  induction steps as [|s steps IH]; intros w Hw; [done|].
  cbn [run]. apply IH.
  destruct (persisted_next_world (step_result s w)) as [-> | ->]; auto.
Qed.

(** Workers of the registry after each command. *)
Lemma cleanupAll_loop_sublist fuel i workers envs acc :
  sublist (State.workers (persisted (t_world (cleanupAll_loop fuel i workers envs acc))))
          (State.workers (persisted (t_world acc))).
Proof.
  revert i acc. induction fuel as [|fuel IH]; intros i acc; cbn [cleanupAll_loop];
    [done|].
  destruct (deref (t_world acc) workers !! i) as [x|]; [|done].
  etrans; [apply IH|].
  pose proof (cleanupAll_step_spec (envs i) x acc) as Hstep. cbv zeta in Hstep.
  destruct (deletion_fails (envs i)); destruct Hstep as (-> & _); [done|].
  rewrite workers_removeWorker.
  destruct (list_find _ _) as [[j y]|]; [apply sublist_delete|done].
Qed.

Lemma cleanup_sublist nameOrId options e envs w :
  sublist (State.workers (persisted (world (cleanup nameOrId options e envs w))))
          (State.workers (persisted w)).
Proof.
  unfold cleanup. destruct (flag (CleanupOptions.all options)).
  - unfold cleanupAll. repeat case_match; cbn [world]; try done;
      rewrite persisted_clearItermWindowId; cbn [State.workers];
      apply (cleanupAll_loop_sublist _ _ _ _ (mkTally w [] 0 0)).
  - destruct (truthy nameOrId) as [target|]; [|done].
    destruct (getWorker target w) as [worker|]; [|done].
    destruct (delete_directory e worker) as [deletion [message|]]; [done|].
    cbn [world].
    assert (sublist (State.workers (persisted (removeWorker target w).2))
                    (State.workers (persisted w))) as Hsub.
    { rewrite workers_removeWorker.
      destruct (list_find _ _) as [[j y]|]; [apply sublist_delete|done]. }
    case_bool_decide; [|done]. by rewrite persisted_clearItermWindowId.
Qed.

Lemma workers_spawnSingleWorker repoUrl task options first e w :
  let r := spawnSingleWorker repoUrl task options first e w in
  let worker := new_worker repoUrl task options e w in
  State.workers (persisted (world r)) = State.workers (persisted w)
  ∨ State.workers (persisted (world r)) = State.workers (persisted w) ++ [worker]
  ∨ ∃ index x windowId,
      (State.workers (persisted w) ++ [worker]) !! index = Some x
      ∧ State.workers (persisted (world r))
        = <[index := updated running (Some windowId) x]>
            (State.workers (persisted w) ++ [worker]).
Proof.
  cbv zeta. destruct (persists_record e) eqn:Hp.
  2:{ destruct (spawnSingleWorker_no_record repoUrl task options first e w Hp)
        as (-> & _). auto. }
  destruct (succeeds e) eqn:Hs.
  2:{ destruct (spawnSingleWorker_record_then_failure repoUrl task options first
                  e w Hp Hs) as (-> & _).
      rewrite persisted_addWorker. auto. }
  destruct (spawnSingleWorker_success repoUrl task options first e w Hs)
    as (windowId & _ & -> & _).
  rewrite workers_updateWorkerStatus, persisted_addWorker. cbn [State.workers].
  destruct (list_find _ _) as [[index x]|] eqn:E; [|auto].
  right; right. exists index, x, windowId.
  by apply list_find_Some in E as (? & _).
Qed.

End Invariants.

Lemma allocated_mono offset offset' p :
  offset ≤ offset' → allocated offset p → allocated offset' p.
Proof. intros ? (k & ? & ? & ->). exists k. split_and!; [done|lia|done]. Qed.

Lemma ports_allocated_sublist (s s' : State.t) :
  sublist (State.workers s') (State.workers s) →
  State.nextPortOffset s' = State.nextPortOffset s →
  ports_allocated s → ports_allocated s'.
Proof.
  intros Hsub Hoff (Hpos & Hnodup & Hall). unfold ports_allocated. rewrite Hoff.
  apply (fmap_sublist Worker.port) in Hsub.
  split_and!; [done|by eapply sublist_NoDup|by eapply sublist_Forall].
Qed.

Lemma ports_allocated_snoc (ports : list Z) (offset : Z) :
  0 ≤ offset → NoDup ports → Forall (allocated offset) ports →
  NoDup (ports ++ [CONFIG.basePort + offset * CONFIG.portIncrement])
  ∧ Forall (allocated (offset + 1))
           (ports ++ [CONFIG.basePort + offset * CONFIG.portIncrement]).
Proof.
  intros Hpos Hnodup Hall. split.
  - apply NoDup_app. split_and!; [done| |apply NoDup_singleton].
    intros p Hp ->%list_elem_of_singleton.
    rewrite Forall_forall in Hall. destruct (Hall _ Hp) as (k & ? & ? & Hk).
    unfold CONFIG.basePort, CONFIG.portIncrement in Hk. lia.
  - apply Forall_app. split.
    + eapply Forall_impl; [done|]. intros p. apply allocated_mono. lia.
    + apply Forall_singleton. exists offset. split_and!; [done|lia|done].
Qed.

Lemma ports_allocated_step (s : Step) (w : World) :
  ports_allocated (persisted w) →
  ports_allocated (persisted (world (step_result s w))).
Proof.
  intros Hinv. destruct s as [repoUrl task options first e|nameOrId options e envs|];
    cbn [step_result world].
  - destruct (persists_record e) eqn:Hp.
    + destruct Hinv as (Hpos & Hnodup & Hall).
      destruct (spawnSingleWorker_persisted repoUrl task options first e w Hp)
        as (Hports & _ & _ & Hoff & _).
      unfold ports_allocated. rewrite Hports, Hoff.
      cbn [Worker.port new_worker]. rewrite getNextPort_persisted.
      destruct (ports_allocated_snoc _ _ Hpos Hnodup Hall).
      split_and!; [lia|done..].
    + by destruct (spawnSingleWorker_no_record repoUrl task options first e w Hp)
        as (-> & _).
  - eapply ports_allocated_sublist;
      [apply cleanup_sublist|apply cleanup_nextPortOffset|done].
  - destruct (persisted_boot w) as [-> | ->]; [done|].
    split_and!; [done|constructor|constructor].
Qed.

(** X14. Over every history of spawns, cleanups and new processes, no
    two records of the registry hold the same port, and every port held
    is one the counter has handed out:
    [basePort + k * portIncrement] with [0 <= k < nextPortOffset]. *)
Theorem ports_stay_allocated (steps : list Step) (w : World) :
  ports_allocated (persisted w) →
  ports_allocated (persisted (run steps w)).
Proof.
  apply (run_invariant ports_allocated).
  - split_and!; [done|constructor|constructor].
  - apply ports_allocated_step.
Qed.

Lemma ports_stay_allocated_witness :
  let url := "https://github.com/user/repo.git" in
  let ok := λ task, SpawnStep url task (sample_options [task]) true
                              (sample_env (inr "4211")) in
  let steps := [ ok "a";
                 CleanupStep (Some "swift-fox") (CleanupOptions.mk None None)
                             env_ok (λ _, env_ok);
                 ok "b" ] in
  ports_allocated (persisted sample_registry)
  ∧ ports_allocated (persisted (run steps sample_registry))
  ∧ Worker.port <$> State.workers (persisted (run steps sample_registry))
    = [3110; 3120; 3130; 3140].
Proof.
  cbv zeta.
  assert (ports_allocated (persisted sample_registry)) as Hinv.
  { split_and!; [done|by apply (bool_decide_unpack _)|].
    repeat constructor; [exists 0|exists 1|exists 2]; done. }
  split; [exact Hinv|]. split; [|reflexivity].
  exact (ports_stay_allocated _ sample_registry Hinv).
Defined.

Lemma in_progress_step (s : Step) (w : World) :
  Forall in_progress (State.workers (persisted w)) →
  Forall in_progress (State.workers (persisted (world (step_result s w)))).
Proof.
  intros Hinv. destruct s as [repoUrl task options first e|nameOrId options e envs|];
    cbn [step_result world].
  - assert (Forall in_progress
              (State.workers (persisted w) ++ [new_worker repoUrl task options e w]))
      as Hnew.
    { apply Forall_app. split; [done|]. apply Forall_singleton. by left. }
    destruct (workers_spawnSingleWorker repoUrl task options first e w)
      as [-> | [-> | (index & x & windowId & _ & ->)]]; [done..|].
    apply Forall_insert; [done|]. right. by split.
  - eapply sublist_Forall; [apply cleanup_sublist|done].
  - destruct (persisted_boot w) as [-> | ->]; [done|constructor].
Qed.

(** X15. Over every history, every record of the registry is either
    [setting-up] without a session handle or [running] with one: no
    command writes the status [stopped] or [failed], and none lets a
    record run without a session handle. *)
Theorem records_stay_in_progress (steps : list Step) (w : World) :
  Forall in_progress (State.workers (persisted w)) →
  Forall in_progress (State.workers (persisted (run steps w)))
  ∧ ∀ x, x ∈ State.workers (persisted (run steps w)) →
         Worker.status x ≠ stopped ∧ Worker.status x ≠ failed.
Proof.
  intros Hinv.
  assert (Forall in_progress (State.workers (persisted (run steps w)))) as Hall.
  { revert Hinv.
    apply (run_invariant (λ st, Forall in_progress (State.workers st))).
    - constructor.
    - apply in_progress_step. }
  split; [done|]. intros x Hx. rewrite Forall_forall in Hall.
  destruct (Hall x Hx) as [[-> _]|[-> _]]; done.
Qed.

Lemma records_stay_in_progress_witness :
  let url := "https://github.com/user/repo.git" in
  let steps := [ SpawnStep url "a" (sample_options ["a"]) true
                           (sample_env (inl "iTerm2 got an error"));
                 CleanupStep (Some "swift-fox") (CleanupOptions.mk None None)
                             env_ok (λ _, env_ok) ] in
  Forall in_progress (State.workers (persisted sample_registry))
  ∧ Forall in_progress (State.workers (persisted (run steps sample_registry)))
  ∧ Worker.status <$> State.workers (persisted (run steps sample_registry))
    = [running; running; setting_up].
Proof.
  cbv zeta.
  assert (Forall in_progress (State.workers (persisted sample_registry))) as Hinv.
  { by apply (bool_decide_unpack _). }
  split; [exact Hinv|]. split; [|reflexivity].
  exact (proj1 (records_stay_in_progress _ sample_registry Hinv)).
Defined.

(** X16. No history writes the shared-window hint: after any sequence of
    spawns, cleanups and new processes it is what it was at the start,
    or it is undefined. *)
Theorem itermWindowId_kept_or_cleared (steps : list Step) (w : World) :
  State.itermWindowId (persisted (run steps w)) = State.itermWindowId (persisted w)
  ∨ State.itermWindowId (persisted (run steps w)) = None.
Proof.
  apply (run_invariant
           (λ st, State.itermWindowId st = State.itermWindowId (persisted w)
                  ∨ State.itermWindowId st = None)); [auto| |auto].
  intros s w' Hinv.
  destruct s as [repoUrl task options first e|nameOrId options e envs|];
    cbn [step_result world].
  - by rewrite spawnSingleWorker_itermWindowId.
  - destruct (cleanup_itermWindowId nameOrId options e envs w') as [-> | ->]; auto.
  - destruct (persisted_boot w') as [-> | ->]; auto.
Qed.

(* ===================================================================== *)
(** ** Names: repository, worker, branch *)
(* ===================================================================== *)

Section Names.

Implicit Types (s seg name base : string) (c : ascii).

Lemma count_char_append c s t :
  count_char c (s +:+ t) = (count_char c s + count_char c t)%nat.
Proof.
  induction s as [|d s IH]; [done|].
  rewrite append_String. cbn [count_char]. rewrite IH. lia.
Qed.

Lemma last_segment_None s :
  last_segment s = None ↔ count_char "/" s = 0%nat.
Proof.
  induction s as [|c s IH]; [done|]. cbn [last_segment count_char].
  destruct (last_segment s) as [seg|].
  - split; [done|]. intros H. assert (count_char "/" s = 0%nat) as H0 by lia.
    by apply IH in H0.
  - rewrite (proj1 IH eq_refl).
    destruct (decide (c = "/"%char)) as [->|Hc].
    + by rewrite bool_decide_eq_true_2.
    + by rewrite bool_decide_eq_false_2.
Qed.

Lemma last_segment_Some s seg :
  last_segment s = Some seg → count_char "/" seg = 0%nat.
Proof.
  induction s as [|c s IH]; [done|]. cbn [last_segment].
  destruct (last_segment s) as [seg'|] eqn:E.
  - intros [= <-]. by apply IH.
  - case_decide; [|done]. intros [= <-]. by apply last_segment_None.
Qed.

Lemma last_segment_append base seg :
  count_char "/" seg = 0%nat →
  last_segment (base +:+ String "/" seg) = Some seg.
Proof.
  intros Hseg. induction base as [|c base IH].
  - rewrite append_empty. cbn [last_segment].
    by rewrite (proj2 (last_segment_None seg) Hseg), decide_True.
  - rewrite append_String. cbn [last_segment]. by rewrite IH.
Qed.

Lemma strip_git_count c seg :
  (count_char c (strip_git seg) ≤ count_char c seg)%nat.
Proof.
  induction seg as [|d seg IH]; [done|]. cbn [strip_git].
  case_decide; cbn [count_char]; lia.
Qed.

Lemma append_git_eq s : s +:+ ".git" = ".git" → s = EmptyString.
Proof.
  intros H%(f_equal String.length). destruct s as [|c s]; [done|].
  rewrite append_String in H. cbn [String.length] in H.
  assert (String.length (s +:+ ".git") = (String.length s + 4)%nat) as Hlen.
  { clear. induction s as [|d s IH]; [done|].
    rewrite append_String. cbn [String.length]. by rewrite IH. }
  rewrite Hlen in H. simpl in H. lia.
Qed.

Lemma strip_git_append name :
  name ≠ EmptyString → strip_git (name +:+ ".git") = name.
Proof.
  induction name as [|c name IH]; [done|]. intros _.
  rewrite append_String. cbn [strip_git].
  destruct (decide (name +:+ ".git" = ".git")) as [Heq|Hne].
  - by rewrite (append_git_eq _ Heq).
  - rewrite IH; [done|]. intros ->. by apply Hne.
Qed.

(** X17. [getRepoName] of a clone URL [<base>/<name>.git] is [<name>],
    for every base and every non-empty name without a slash; a name
    that itself ends in [.git] loses one [.git] only. *)
Theorem getRepoName_clone_url (base name : string) :
  name ≠ EmptyString →
  count_char "/" name = 0%nat →
  getRepoName (base +:+ "/" +:+ name +:+ ".git") = name.
Proof.
  intros Hne Hslash. unfold getRepoName.
  change (base +:+ "/" +:+ name +:+ ".git")
    with (base +:+ String "/" (name +:+ ".git")).
  rewrite last_segment_append by (by rewrite count_char_append, Hslash).
  destruct name as [|c name]; [done|].
  rewrite append_String. rewrite <- append_String. by apply strip_git_append.
Qed.

Lemma getRepoName_clone_url_witness :
  count_char "/" "parallel-claude" = 0%nat
  ∧ getRepoName "https://github.com/saadnvd1/parallel-claude.git" = "parallel-claude".
Proof.
  split; [reflexivity|].
  apply (getRepoName_clone_url "https://github.com/saadnvd1" "parallel-claude");
    [discriminate|reflexivity].
Defined.

(** X18. [getRepoName] never returns the empty text and never a text
    with a slash, whatever the URL; a URL without a slash, or one that
    ends in a slash, gives the placeholder [repo]. *)
Theorem getRepoName_segment (repoUrl : string) :
  getRepoName repoUrl ≠ EmptyString
  ∧ count_char "/" (getRepoName repoUrl) = 0%nat
  ∧ (count_char "/" repoUrl = 0%nat → getRepoName repoUrl = "repo")
  ∧ getRepoName (repoUrl +:+ "/") = "repo".
Proof.
  unfold getRepoName. split_and!.
  - destruct (last_segment repoUrl) as [[|c seg]|]; [done| |done].
    cbn [strip_git]. by case_decide.
  - destruct (last_segment repoUrl) as [[|c seg]|] eqn:E; [done| |done].
    apply last_segment_Some in E.
    pose proof (strip_git_count "/" (String c seg)). lia.
  - intros H%last_segment_None. by rewrite H.
  - by rewrite (last_segment_append repoUrl EmptyString).
Qed.

Lemma all_chars_append (p : ascii → bool) s t :
  all_chars p (s +:+ t) = all_chars p s && all_chars p t.
Proof.
  induction s as [|c s IH]; [done|].
  rewrite append_String. cbn [all_chars]. by rewrite IH, andb_assoc.
Qed.

Lemma all_chars_impl (p q : ascii → bool) s :
  (∀ c, p c = true → q c = true) → all_chars p s = true → all_chars q s = true.
Proof.
  intros Hpq. induction s as [|c s IH]; [done|]. cbn [all_chars].
  intros [? ?]%andb_true_iff. apply andb_true_iff. auto.
Qed.

Lemma digit_slug_char c : is_digit c = true → slug_char c = true.
Proof.
  unfold slug_char, is_lower_alnum, is_digit. cbv zeta.
  intros ->. by rewrite orb_true_r.
Qed.

Lemma pretty_N_char_digit (x : N) : is_digit (pretty_N_char x) = true.
Proof. unfold pretty_N_char. by repeat case_match. Qed.

Lemma pretty_N_go_digits (x : N) s :
  all_chars is_digit s = true → all_chars is_digit (pretty_N_go x s) = true.
Proof.
  revert s. induction (N.lt_wf_0 x) as [x _ IH]; intros s Hs.
  assert (x = 0 ∨ 0 < x)%N as [->|?] by lia.
  - by rewrite pretty_N_go_0.
  - rewrite pretty_N_go_step by done. apply IH.
    { by apply N.div_lt. }
    cbn [all_chars]. by rewrite pretty_N_char_digit.
Qed.

Lemma pretty_N_digits (x : N) : all_chars is_digit (pretty x) = true.
Proof.
  unfold pretty, pretty_N. case_decide; [done|]. by apply pretty_N_go_digits.
Qed.

Lemma pretty_N_nonempty (x : N) : pretty x ≠ EmptyString.
Proof.
  unfold pretty, pretty_N. case_decide; [done|].
  assert (0 < x)%N by lia. rewrite pretty_N_go_step by done.
  assert (∀ y s, s ≠ EmptyString → pretty_N_go y s ≠ EmptyString) as Hgo.
  { intros y. induction (N.lt_wf_0 y) as [y _ IH]; intros s Hs.
    assert (y = 0 ∨ 0 < y)%N as [->|?] by lia; [by rewrite pretty_N_go_0|].
    rewrite pretty_N_go_step by done. apply IH; [by apply N.div_lt|done]. }
  by apply Hgo.
Qed.

Lemma at_index_words (xs : list string) k :
  Forall (λ word, all_chars is_lower_alnum word = true) xs →
  all_chars is_lower_alnum (at_index xs k) = true.
Proof.
  intros Hxs. unfold at_index. destruct (xs !! k) as [word|] eqn:E; [|done].
  simpl. rewrite Forall_lookup in Hxs. by apply (Hxs k).
Qed.

Lemma candidate_chars draw :
  all_chars slug_char (candidate draw) = true
  ∧ count_char "-" (candidate draw) = 1%nat.
Proof.
  assert (Forall (λ word, all_chars is_lower_alnum word = true) adjectives) as Hadj.
  { by apply (bool_decide_unpack _). }
  assert (Forall (λ word, all_chars is_lower_alnum word = true) animals) as Hani.
  { by apply (bool_decide_unpack _). }
  pose proof (at_index_words _ draw.1 Hadj) as H1.
  pose proof (at_index_words _ draw.2 Hani) as H2.
  assert (∀ s, all_chars is_lower_alnum s = true →
               all_chars slug_char s = true ∧ count_char "-" s = 0%nat) as Hword.
  { clear. intros s. induction s as [|c s IH]; [done|]. cbn [all_chars count_char].
    intros [Hc Hs]%andb_true_iff. destruct (IH Hs) as [-> ->].
    unfold slug_char. rewrite Hc. split; [done|].
    apply lower_alnum_not_hyphen in Hc. unfold is_hyphen in Hc. by rewrite Hc. }
  destruct (Hword _ H1) as [Ha1 Ha2], (Hword _ H2) as [Hb1 Hb2].
  unfold candidate. rewrite !all_chars_append, !count_char_append, Ha1, Ha2, Hb1, Hb2.
  done.
Qed.

Lemma generateWorkerName_chars_aux existingNames draws now :
  all_chars slug_char (generateWorkerName existingNames draws now) = true.
Proof.
  unfold generateWorkerName. cbv zeta.
  destruct (attempts _ _ _ _) as [name|] eqn:E.
  - apply attempts_Some in E as (k & _ & _ & -> & _). apply candidate_chars.
  - rewrite all_chars_append. apply andb_true_iff. split; [done|].
    eapply all_chars_impl; [apply digit_slug_char|apply pretty_N_digits].
Qed.

(** X19. A name [generateWorkerName] returns is never empty and is made
    of lower-case letters, digits and hyphens only, whatever the random
    draws, the clock and the existing names: it holds no slash, no
    space and no quote. *)
Theorem generateWorkerName_chars
    (existingNames : list string) (draws : nat → nat * nat) (now : N) :
  all_chars slug_char (generateWorkerName existingNames draws now) = true
  ∧ generateWorkerName existingNames draws now ≠ EmptyString
  ∧ count_char "/" (generateWorkerName existingNames draws now) = 0%nat.
Proof.
  assert (∀ s, all_chars slug_char s = true → count_char "/" s = 0%nat) as Hslash.
  { intros s. induction s as [|c s IH]; [done|]. cbn [all_chars count_char].
    intros [Hc Hs]%andb_true_iff. rewrite (IH Hs).
    rewrite bool_decide_eq_false_2; [done|]. by intros ->. }
  pose proof (generateWorkerName_chars_aux existingNames draws now) as Hchars.
  split_and!; [done| |by apply Hslash].
  unfold generateWorkerName. cbv zeta.
  destruct (attempts _ _ _ _) as [name|] eqn:E; [|done].
  apply attempts_Some in E as (k & _ & _ & -> & _).
  destruct (candidate_chars (draws k)) as [_ Hcount]. intros Hnil.
  by rewrite Hnil in Hcount.
Qed.

(** X20. With the clock's date in place, a generated branch name built
    on a generated worker name is made of lower-case letters, digits,
    hyphens and the one slash of its prefix [feat/]. *)
Theorem generateBranchName_chars
    (task iso : string) (existingNames : list string)
    (draws : nat → nat * nat) (now : N) :
  iso_date_prefix iso = true →
  let branch :=
    generateBranchName task (generateWorkerName existingNames draws now) iso in
  all_chars (λ c, slug_char c || bool_decide (c = "/"%char)) branch = true
  ∧ count_char "/" branch = 1%nat.
Proof.
  intros Hiso. cbv zeta. unfold generateBranchName. cbv zeta.
  assert (∀ s, all_chars slug_char s = true →
               all_chars (λ c, slug_char c || bool_decide (c = "/"%char)) s = true
               ∧ count_char "/" s = 0%nat) as Hslug.
  { intros s. induction s as [|c s IH]; [done|]. cbn [all_chars count_char].
    intros [Hc Hs]%andb_true_iff. destruct (IH Hs) as [-> ->]. rewrite Hc.
    split; [done|]. rewrite bool_decide_eq_false_2; [done|]. by intros ->. }
  destruct (slugify_facts (toLowerCase task)) as (H1%Hslug & _).
  pose proof (generateWorkerName_chars_aux existingNames draws now) as H2.
  apply Hslug in H2.
  destruct (date_of_iso iso Hiso) as (_ & H3).
  apply (all_chars_impl _ _ _ digit_slug_char), Hslug in H3.
  destruct H1 as [H1 H1'], H2 as [H2 H2'], H3 as [H3 H3'].
  rewrite !all_chars_append, !count_char_append, H1, H1', H2, H2', H3, H3'.
  done.
Qed.

Lemma generateBranchName_chars_witness :
  iso_date_prefix "2026-01-04T10:20:30.000Z" = true
  ∧ generateBranchName "Fix the LOGIN page!"
      (generateWorkerName ["swift-fox"] (λ i, (i, i)) 1767522030000)
      "2026-01-04T10:20:30.000Z"
    = "feat/fix-the-login-page-brave-owl-20260104"
  ∧ count_char "/" "feat/fix-the-login-page-brave-owl-20260104" = 1%nat.
Proof.
  split; [reflexivity|]. split; [reflexivity|].
  exact (proj2 (generateBranchName_chars "Fix the LOGIN page!"
                  "2026-01-04T10:20:30.000Z" ["swift-fox"] (λ i, (i, i))
                  1767522030000 eq_refl)).
Defined.

End Names.

(* ===================================================================== *)
(** ** A spawn and the cleanup of its worker *)
(* ===================================================================== *)

Lemma workerName_of_persisted e w :
  workerName_of e w
  = generateWorkerName (Worker.name <$> State.workers (persisted w))
                       (draws e) (dateNow e).
Proof. unfold workerName_of. by rewrite deref_getAllWorkers. Qed.

Lemma generateWorkerName_nonempty existingNames draws now :
  generateWorkerName existingNames draws now ≠ EmptyString.
Proof.
  unfold generateWorkerName. cbv zeta.
  destruct (attempts _ _ _ _) as [name|] eqn:E; [|done].
  apply attempts_Some in E as (k & _ & _ & -> & _).
  destruct (candidate_chars (draws k)) as [_ Hcount]. intros Hnil.
  by rewrite Hnil in Hcount.
Qed.

Lemma generateWorkerName_free existingNames draws now k :
  (k < 100)%nat → candidate (draws k) ∉ existingNames →
  generateWorkerName existingNames draws now ∉ existingNames.
Proof.
  intros Hk Hfree. unfold generateWorkerName. cbv zeta.
  destruct (attempts _ _ _ _) as [name|] eqn:E.
  - apply attempts_Some in E as (_ & _ & _ & _ & Hname & _).
    by rewrite elem_of_list_to_set in Hname.
  - exfalso. apply Hfree.
    pose proof (proj1 (attempts_None _ _ _ _) E k) as Hin.
    rewrite elem_of_list_to_set in Hin. apply Hin; lia.
Qed.

(** X21. When one of the hundred draws of the naming loop is a name no
    record carries, a spawn keeps the names of the registry pairwise
    distinct. *)
Theorem spawnSingleWorker_names_distinct
    (repoUrl task : string) (options : SpawnOptions.t) (first : bool)
    (e : SpawnEnv) (w : World) (k : nat) :
  NoDup (Worker.name <$> State.workers (persisted w)) →
  (k < 100)%nat →
  candidate (draws e k) ∉ Worker.name <$> State.workers (persisted w) →
  NoDup (Worker.name <$> State.workers
           (persisted (world (spawnSingleWorker repoUrl task options first e w)))).
Proof.
  intros Hnodup Hk Hfree. destruct (persists_record e) eqn:Hp.
  - destruct (spawnSingleWorker_persisted repoUrl task options first e w Hp)
      as (_ & -> & _).
    apply NoDup_app. split_and!; [done| |apply NoDup_singleton].
    intros name Hin ->%list_elem_of_singleton. revert Hin.
    cbn [Worker.name new_worker]. rewrite workerName_of_persisted.
    by eapply generateWorkerName_free.
  - by destruct (spawnSingleWorker_no_record repoUrl task options first e w Hp)
      as (-> & _).
Qed.

Lemma spawnSingleWorker_names_distinct_witness :
  let r := spawnSingleWorker "https://github.com/user/repo.git" "add dark mode"
             (sample_options ["add dark mode"]) true (sample_env (inr "4211"))
             sample_registry in
  candidate (draws (sample_env (inr "4211")) 1%nat) = "brave-owl"
  ∧ NoDup (Worker.name <$> State.workers (persisted (world r))).
Proof.
  cbv zeta. split; [reflexivity|].
  apply (spawnSingleWorker_names_distinct "https://github.com/user/repo.git"
           "add dark mode" (sample_options ["add dark mode"]) true
           (sample_env (inr "4211")) sample_registry 1%nat).
  - by apply (bool_decide_unpack _).
  - lia.
  - by apply (bool_decide_unpack _).
Defined.

(** X22. A spawn that ran to its end, followed by the cleanup of the new
    worker by its name, gives back the records the registry had before
    the spawn, in their order, when the name was not in use as a name or
    id and the directory can be deleted. The port counter keeps the
    step of the spawn: the port is not handed out again. *)
Theorem spawn_then_cleanup_restores_records
    (repoUrl task : string) (options : SpawnOptions.t) (first : bool)
    (e : SpawnEnv) (ce : CleanupEnv) (envs : nat → CleanupEnv) (w : World) :
  succeeds e = true →
  getWorker (workerName_of e w) w = None →
  deletion_fails ce = false →
  let r := spawnSingleWorker repoUrl task options first e w in
  let r' := cleanup (Some (workerName_of e w)) (CleanupOptions.mk None None)
                    ce envs (world r) in
  exit r' = Returned
  ∧ State.workers (persisted (world r')) = State.workers (persisted w)
  ∧ State.nextPortOffset (persisted (world r'))
    = State.nextPortOffset (persisted w) + 1.
Proof.
  intros Hs Hfresh Hdel. cbv zeta.
  destruct (spawnSingleWorker_success repoUrl task options first e w Hs)
    as (windowId & Htab & Hw & _).
  set (worker := new_worker repoUrl task options e w) in *.
  assert (Worker.name worker = workerName_of e w) as Hname by done.
  pose proof (getWorker_after_spawn repoUrl task options first e w windowId
                Hs Htab) as Hget.
  fold worker in Hget. rewrite Hname, Hfresh in Hget. cbn [default] in Hget.
  set (r := spawnSingleWorker repoUrl task options first e w) in *.
  assert (truthy (Some (workerName_of e w)) = Some (workerName_of e w)) as Htruthy.
  { rewrite truthy_Some, decide_False; [done|].
    rewrite workerName_of_persisted. apply generateWorkerName_nonempty. }
  destruct (cleanup_found (Some (workerName_of e w)) (CleanupOptions.mk None None)
              ce envs (world r) _ _ eq_refl Htruthy Hget Hdel)
    as (Hexit & (index & Hindex & Hws) & Hoff & _).
  split; [done|].
  assert (State.workers (persisted (world r))
          = State.workers (persisted w)
            ++ [updated running (Some windowId) worker]) as Hafter.
  { rewrite Hw, workers_updateWorkerStatus, persisted_addWorker.
    cbn [State.workers]. rewrite Hname.
    rewrite getWorker_persisted in Hfresh. unfold find in Hfresh.
    destruct (list_find _ (State.workers (persisted w))) as [[]|] eqn:E; [done|].
    assert (list_find (Worker.matches (workerName_of e w))
              (State.workers (persisted w) ++ [worker])
            = Some (length (State.workers (persisted w)), worker)) as ->.
    { apply list_find_Some. split_and!.
      - by rewrite lookup_app_r, Nat.sub_diag.
      - by left.
      - intros j y Hj Hlt. rewrite lookup_app_l in Hj by done.
        rewrite list_find_None, Forall_forall in E. apply E.
        by eapply list_elem_of_lookup_2. }
    by rewrite insert_app_r_alt, Nat.sub_diag. }
  assert (index = length (State.workers (persisted w))) as ->.
  { apply getWorker_list_find in Hget as [index' Hfind].
    rewrite getWorker_persisted in Hfresh. unfold find in Hfresh.
    destruct (list_find _ (State.workers (persisted w))) as [[]|] eqn:E; [done|].
    rewrite list_find_None, Forall_forall in E.
    destruct (decide (index < length (State.workers (persisted w)))%nat) as [Hlt|Hge].
    - rewrite Hafter, lookup_app_l in Hindex by done.
      exfalso. apply (E _ (list_elem_of_lookup_2 _ _ _ Hindex)).
      rewrite matches_updated. by left.
    - apply lookup_lt_Some in Hindex. rewrite Hafter, length_app in Hindex.
      cbn [length] in Hindex. lia. }
  split.
  - rewrite Hws, Hafter.
    rewrite delete_take_drop, take_app_length, drop_ge, app_nil_r; [done|].
    rewrite length_app. cbn [length]. lia.
  - rewrite Hoff. unfold r.
    destruct (spawnSingleWorker_persisted repoUrl task options first e w
                (succeeds_persists _ Hs)) as (_ & _ & _ & -> & _). done.
Qed.

Lemma spawn_then_cleanup_restores_records_witness :
  let e := sample_env (inr "4211") in
  let r := spawnSingleWorker "https://github.com/user/repo.git" "add dark mode"
             (sample_options ["add dark mode"]) true e sample_registry in
  let r' := cleanup (Some "brave-owl") (CleanupOptions.mk None None) env_ok
                    (λ _, env_ok) (world r) in
  workerName_of e sample_registry = "brave-owl"
  ∧ exit r' = Returned
  ∧ State.workers (persisted (world r')) = State.workers (persisted sample_registry)
  ∧ State.nextPortOffset (persisted (world r')) = 4.
Proof.
  cbv zeta. split; [reflexivity|].
  exact (spawn_then_cleanup_restores_records "https://github.com/user/repo.git"
           "add dark mode" (sample_options ["add dark mode"]) true
           (sample_env (inr "4211")) env_ok (λ _, env_ok) sample_registry
           eq_refl eq_refl eq_refl).
Defined.
